(** * ByteStream: a stream over a chain of ByteRanges

    A shallow embedding of [velox/common/memory/ByteStream.h] and the
    properties of its read, write and seek paths.

    Conventions of the embedding.
    - [int32_t] fields and locals are [Z]; every arithmetic operation of
      the source is followed by the conversion to the type C++ computes it
      in ([int32_t] : two's complement wrap-around to 32 bits, [size_t] :
      reduction modulo 2^64).
    - A [uint8_t*] block is the list of the bytes it points to.  Reading or
      writing outside the block is undefined in C++ and raises
      [UndefinedBehavior] here.
    - [current_], a pointer into the vector [ranges_], is the index of the
      element it points to; an index that is not an element of [ranges_]
      stands for a null or dangling pointer.  Every member function that
      changes the storage of the vector sets [current_] anew.
    - The elements of [ranges_] live in a block of storage that the vector
      leaves for a new one when it grows beyond its capacity.  A
      [ByteRange*] that outlives a call, as the one in a [Position] does,
      is the block together with the index; it dangles once the vector has
      left the block.
    - A member function is a computation in the monad [M]: it takes the
      stream and returns an outcome together with the stream it leaves
      behind.  A C++ exception is the outcome [Raises]; the stream returned
      with it is the (possibly modified) stream the exception leaves.
    - The machine is little-endian, as the source assumes ("the wire format
      has the machine byte order"): a value of a primitive type of [w]
      bytes is the number in [0, 2^(8w)) that its object representation
      encodes. *)

From Stdlib Require Import ZArith Lia Bool.
From Stdlib Require Ascii String.
From stdpp Require Import base tactics option list numbers.
From stdpp Require strings.
From coqutil Require Import Byte Word.LittleEndianList.

Local Open Scope Z_scope.

(** ** Fixed-width integers *)

(** Conversion to [int32_t]. *)
Definition int32_t (z : Z) : Z := (z + 2 ^ 31) mod 2 ^ 32 - 2 ^ 31.

(** Conversion to [size_t] / [uint64_t]. *)
Definition size_t (z : Z) : Z := z mod 2 ^ 64.

(** ** Outcomes and the stream monad *)

Inductive failure : Type :=
| EndOfStream        (* std::runtime_error("Reading past end of ByteStream") *)
| CheckFailure       (* VELOX_CHECK / VELOX_DCHECK: a programming-error check *)
| UndefinedBehavior  (* null or dangling pointer, access outside a block *)
| Diverges.          (* a loop of the source that does not terminate *)

Inductive outcome (T : Type) : Type :=
| Returns (v : T)
| Raises (e : failure).
Arguments Returns {T} v.
Arguments Raises {T} e.

Definition M (St T : Type) : Type := St → outcome T * St.

Definition ret {St T} (v : T) : M St T := λ s, (Returns v, s).

Definition bind {St T U} (c : M St T) (k : T → M St U) : M St U :=
  λ s, match c s with
       | (Returns v, s') => k v s'
       | (Raises e, s') => (Raises e, s')
       end.

Definition raise {St T} (e : failure) : M St T := λ s, (Raises e, s).

Definition get {St} : M St St := λ s, (Returns s, s).

Definition put {St} (s : St) : M St unit := λ _, (Returns tt, s).

Definition defined {St T} (o : option T) : M St T :=
  match o with
  | Some v => ret v
  | None => raise UndefinedBehavior
  end.

Declare Scope stream_scope.
Delimit Scope stream_scope with stream.
Notation "'let*' x ':=' c 'in' k" := (bind c (λ x, k))
  (at level 10, x binder, c at level 100, k at level 200) : stream_scope.
Local Open Scope stream_scope.

(** Modelled from the spec: the check macros of velox/common/base/Exceptions.h
    are not part of the sources at hand.  Section 7 of the specification
    describes them as programming-error checks, fatal and distinct from the
    end-of-stream condition.  [VELOX_DCHECK] is given the meaning it has in
    a build with debug checks enabled. *)
Definition VELOX_CHECK {St} (cond : bool) : M St unit :=
  if cond then ret tt else raise CheckFailure.

Definition VELOX_DCHECK {St} (cond : bool) : M St unit := VELOX_CHECK cond.

(** ** Memory blocks *)

(** [*(buf + at_)] *)
Definition peek (buf : list byte) (at_ : Z) : option byte :=
  if 0 <=? at_ then buf !! Z.to_nat at_ else None.

(** The [n] bytes at [buf + at_]. *)
Definition load (buf : list byte) (at_ : Z) (n : Z) : option (list byte) :=
  if (0 <=? at_) && (0 <=? n) && (at_ + n <=? Z.of_nat (length buf))
  then Some (take (Z.to_nat n) (drop (Z.to_nat at_) buf))
  else None.

(** Overwrite the bytes at [buf + at_] with [src]. *)
Definition store (buf : list byte) (at_ : Z) (src : list byte) : option (list byte) :=
  if (0 <=? at_) && (at_ + Z.of_nat (length src) <=? Z.of_nat (length buf))
  then Some (list_inserts (Z.to_nat at_) src buf)
  else None.

(** [memcpy(dst + dpos, src + spos, n)]; the count is a [size_t], so a
    negative [n] asks for more bytes than any block holds. *)
Definition memcpy (dst : list byte) (dpos : Z) (src : list byte) (spos n : Z)
  : option (list byte) :=
  match load src spos n with
  | Some bs => store dst dpos bs
  | None => None
  end.

(** [*reinterpret_cast<const T*>(buf + at_)] for a primitive [T] of [w]
    bytes, and the matching assignment through a [T*]. *)
Definition load_value (w : nat) (buf : list byte) (at_ : Z) : option Z :=
  le_combine <$> load buf at_ (Z.of_nat w).

Definition store_value (w : nat) (buf : list byte) (at_ : Z) (v : Z)
  : option (list byte) :=
  store buf at_ (le_split w v).

(** ** ByteRange *)

Record ByteRange : Type := mkByteRange {
  buffer : list byte;
  size : Z;
  position : Z;
}.

Definition with_position (p : Z) (r : ByteRange) : ByteRange :=
  {| buffer := buffer r; size := size r; position := p |}.

Definition with_buffer (b : list byte) (r : ByteRange) : ByteRange :=
  {| buffer := b; size := size r; position := position r |}.

(** [ByteRange::available<T>()] for a [T] of [w] bytes: the difference is an
    [int32_t], the division is unsigned. *)
Definition available (w : nat) (r : ByteRange) : Z :=
  int32_t (size_t (int32_t (size r - position r)) / Z.of_nat w).

(** [ByteRange::available<bool>()] *)
Definition available_bool (r : ByteRange) : Z :=
  int32_t (int32_t (size r * 8) - position r).

(** ** Collaborators *)

(** [StreamArena::newRange(bytes, range)] fills the range it is given; the
    arena is not part of the sources at hand and is a parameter of the
    development.  [A] is the state of the arena. *)
Class StreamArena (A : Type) : Type := newRange : Z → A → ByteRange * A.

(** [memory::MappedMemory::kPageSize], declared outside the sources at hand. *)
Class MappedMemory : Type := kPageSize : Z.

(** [std::vector] keeps its elements in one block of storage.  When an
    element is added to a vector whose size is its capacity, the elements
    move to a new block and every pointer to an element dangles; the
    capacity of the new block, for a vector that held [n] elements, is the
    choice of the library and a parameter of the development. *)
Class VectorGrowth : Type := grown_capacity : nat → nat.

(** Modelled from the spec: the bit utilities of velox/common/base/BitUtil.h
    are not part of the sources at hand.  The specification names them as
    rounding up to the page granularity, rounding a bit count up to a byte
    count, setting a single bit and filling a bit range with a value. *)
Definition roundUp (value factor : Z) : Z :=
  int32_t (size_t (size_t (size_t value + (factor - 1)) / factor * factor)).

Definition nbytes (bits : Z) : Z := int32_t (int32_t (bits + 7) ÷ 8).

Definition setBit_byte (b : byte) (i : Z) (value : bool) : byte :=
  byte.of_Z (if value then Z.setbit (byte.unsigned b) i
             else Z.clearbit (byte.unsigned b) i).

Definition setBit (buf : list byte) (idx : Z) (value : bool) : option (list byte) :=
  match peek buf (idx / 8) with
  | Some b => Some (<[Z.to_nat (idx / 8) := setBit_byte b (idx mod 8) value]> buf)
  | None => None
  end.

Fixpoint fillBits_from (n : nat) (buf : list byte) (begin_ : Z) (value : bool)
  : option (list byte) :=
  match n with
  | O => Some buf
  | S n' =>
      match setBit buf begin_ value with
      | Some buf' => fillBits_from n' buf' (begin_ + 1) value
      | None => None
      end
  end.

Definition fillBits (buf : list byte) (begin_ end_ : Z) (value : bool)
  : option (list byte) :=
  fillBits_from (Z.to_nat (end_ - begin_)) buf begin_ value.

(** ** ByteStream *)

(** The vector [ranges_] is the list of its elements together with its
    storage: [ranges_data_] identifies the block that holds the elements
    (what [ranges_.data()] points to) and [ranges_capacity_] is
    [ranges_.capacity()]. *)
Record ByteStream (A : Type) : Type := {
  arena_ : A;
  isBits_ : bool;
  isReverseBitOrder_ : bool;
  isReversed_ : bool;
  ranges_ : list ByteRange;
  current_ : nat;
  ranges_data_ : nat;
  ranges_capacity_ : nat;
}.
Arguments arena_ {A}.
Arguments isBits_ {A}.
Arguments isReverseBitOrder_ {A}.
Arguments isReversed_ {A}.
Arguments ranges_ {A}.
Arguments current_ {A}.
Arguments ranges_data_ {A}.
Arguments ranges_capacity_ {A}.

(** A stream whose vector of ranges fills its block of storage, block 0,
    exactly: the vector of a stream that has not been given any range, or
    one that was built with all its elements at once. *)
Definition mkByteStream {A : Type} (arena : A)
    (isBits isReverseBitOrder isReversed : bool)
    (ranges : list ByteRange) (current : nat) : ByteStream A :=
  {| arena_ := arena;
     isBits_ := isBits;
     isReverseBitOrder_ := isReverseBitOrder;
     isReversed_ := isReversed;
     ranges_ := ranges;
     current_ := current;
     ranges_data_ := 0;
     ranges_capacity_ := length ranges |}.

(** A [ByteRange*] that points into the storage of [ranges_]: the block and
    the index of the element in it. *)
Record ByteRangePtr : Type := mkPtr {
  ptr_block : nat;
  ptr_index : nat;
}.

(** [Position], a [std::tuple<ByteRange*, int32_t>]: the pointer to a range
    and an offset in the range. *)
Definition Position : Type := ByteRangePtr * Z.

(** What a [std::string_view] over a range's buffer refers to: the range and
    the offset of its first byte ([None] for a null pointer), and its
    length. *)
Record string_view : Type := mkView {
  view_data : option (nat * Z);
  view_size : Z;
}.

Section Stream.
Context {A : Type} {arena : StreamArena A} {memory : MappedMemory}
        {growth : VectorGrowth}.

Definition set_ranges (rs : list ByteRange) (s : ByteStream A) : ByteStream A :=
  {| arena_ := arena_ s;
     isBits_ := isBits_ s;
     isReverseBitOrder_ := isReverseBitOrder_ s;
     isReversed_ := isReversed_ s;
     ranges_ := rs;
     current_ := current_ s;
     ranges_data_ := ranges_data_ s;
     ranges_capacity_ := ranges_capacity_ s |}.

Definition set_current (i : nat) (s : ByteStream A) : ByteStream A :=
  {| arena_ := arena_ s;
     isBits_ := isBits_ s;
     isReverseBitOrder_ := isReverseBitOrder_ s;
     isReversed_ := isReversed_ s;
     ranges_ := ranges_ s;
     current_ := i;
     ranges_data_ := ranges_data_ s;
     ranges_capacity_ := ranges_capacity_ s |}.

Definition set_arena (a : A) (s : ByteStream A) : ByteStream A :=
  {| arena_ := a;
     isBits_ := isBits_ s;
     isReverseBitOrder_ := isReverseBitOrder_ s;
     isReversed_ := isReversed_ s;
     ranges_ := ranges_ s;
     current_ := current_ s;
     ranges_data_ := ranges_data_ s;
     ranges_capacity_ := ranges_capacity_ s |}.

Definition set_storage (block capacity : nat) (s : ByteStream A) : ByteStream A :=
  {| arena_ := arena_ s;
     isBits_ := isBits_ s;
     isReverseBitOrder_ := isReverseBitOrder_ s;
     isReversed_ := isReversed_ s;
     ranges_ := ranges_ s;
     current_ := current_ s;
     ranges_data_ := block;
     ranges_capacity_ := capacity |}.

(** What [ranges_.emplace_back()] does to the storage: with room left the
    element is built in place; a vector whose size is its capacity moves
    to a new block. *)
Definition emplace_back_storage (s : ByteStream A) : ByteStream A :=
  set_storage
    (if (length (ranges_ s) <? ranges_capacity_ s)%nat then ranges_data_ s
     else S (ranges_data_ s))
    (if (length (ranges_ s) <? ranges_capacity_ s)%nat then ranges_capacity_ s
     else grown_capacity (length (ranges_ s)))
    s.

(** What [ranges_.resize(1)] does to the storage: only a vector without
    storage, which has no element, has to allocate, and it grows as it
    does for [emplace_back]. *)
Definition resize_one_storage (s : ByteStream A) : ByteStream A :=
  set_storage
    (if (1 <=? ranges_capacity_ s)%nat then ranges_data_ s
     else S (ranges_data_ s))
    (if (1 <=? ranges_capacity_ s)%nat then ranges_capacity_ s
     else grown_capacity 0)
    s.

(** [&ranges_[i]] *)
Definition element (s : ByteStream A) (i : nat) : ByteRangePtr :=
  mkPtr (ranges_data_ s) i.

(** The constructor for input, and the one for output. *)
Definition input_stream (a : A) : ByteStream A :=
  mkByteStream a false false false [] 0.

Definition output_stream (a : A) (isBits isReverseBitOrder : bool) : ByteStream A :=
  mkByteStream a isBits isReverseBitOrder false [] 0.

(** [*current_] as an rvalue. *)
Definition deref : M (ByteStream A) ByteRange :=
  λ s, defined (ranges_ s !! current_ s) s.

(** [*current_ = r]: every assignment to a field of [*current_]. *)
Definition assign (r : ByteRange) : M (ByteStream A) unit :=
  λ s, if decide (current_ s < length (ranges_ s))%nat
       then (Returns tt, set_ranges (<[current_ s := r]> (ranges_ s)) s)
       else (Raises UndefinedBehavior, s).

(** The move assignment gives [ranges_] the storage of the vector moved
    in, a block the stream has not had before.  The capacity of that
    vector is not known to the stream; it is taken to be its size. *)
Definition resetInput (ranges : list ByteRange) : M (ByteStream A) unit :=
  λ s, (Returns tt,
        set_current 0
          (set_ranges ranges
             (set_storage (S (ranges_data_ s)) (length ranges) s))).

Definition setRange (range : ByteRange) : M (ByteStream A) unit :=
  λ s, (Returns tt, set_current 0 (set_ranges [range] (resize_one_storage s))).

Definition ranges : M (ByteStream A) (list ByteRange) :=
  let* s := get in ret (ranges_ s).

Definition extend (bytes : Z) : M (ByteStream A) unit :=
  λ s, let '(r, a) := newRange bytes (arena_ s) in
       (Returns tt,
        set_arena a (set_current (length (ranges_ s))
                       (set_ranges (ranges_ s ++ [r])
                          (emplace_back_storage s)))).

Definition startWrite (initialSize : Z) : M (ByteStream A) unit :=
  extend initialSize.

Definition seek (range : Z) (position' : Z) : M (ByteStream A) unit :=
  let* _ := (if range <? 0 then raise UndefinedBehavior else ret tt) in
  let* s := get in
  let* _ := put (set_current (Z.to_nat range) s) in
  let* c := deref in
  assign (with_position position' c).

Definition tellp : M (ByteStream A) Position :=
  let* s := get in
  let* c := deref in
  ret (element s (current_ s), position c).

(** [seekp] writes through the pointer of the position at once.  A
    pointer into a block that the vector has left since dangles. *)
Definition seekp (pos : Position) : M (ByteStream A) unit :=
  let* s := get in
  let* _ := (if bool_decide (ptr_block (fst pos) = ranges_data_ s) then ret tt
             else raise UndefinedBehavior) in
  let* _ := put (set_current (ptr_index (fst pos)) s) in
  let* c := deref in
  assign (with_position (snd pos) c).

(** [ByteStream::size()], a [const] member that cannot fail. *)
Definition stream_size (s : ByteStream A) : Z :=
  fold_left (λ total range, size_t (total + position range)) (ranges_ s) 0.

Definition atEnd : M (ByteStream A) bool :=
  let* c := deref in
  if position c <? size c then ret false
  else
    let* s := get in
    let position := current_ s in
    let* _ := VELOX_CHECK (bool_decide (position < length (ranges_ s))%nat) in
    if bool_decide (position = length (ranges_ s) - 1)%nat then ret true
    else ret false.

Definition next (throwIfPastEnd : bool) : M (ByteStream A) unit :=
  let* s := get in
  let position := current_ s in
  let* _ := VELOX_CHECK (bool_decide (position < length (ranges_ s))%nat) in
  if bool_decide (position = length (ranges_ s) - 1)%nat then
    if throwIfPastEnd then raise EndOfStream else ret tt
  else
    let* _ := put (set_current (S (current_ s)) s) in
    let* c := deref in
    assign (with_position 0 c).

(** [readByte] calls itself after [next()]; every such call has moved
    [current_] one range further, so the number of ranges bounds the depth. *)
Fixpoint readByte_from (depth : nat) : M (ByteStream A) byte :=
  match depth with
  | O => raise Diverges
  | S depth' =>
      let* c := deref in
      if position c <? size c then
        let* b := defined (peek (buffer c) (position c)) in
        let* _ := assign (with_position (int32_t (position c + 1)) c) in
        ret b
      else
        let* _ := next true in
        readByte_from depth'
  end.

Definition readByte : M (ByteStream A) byte :=
  let* s := get in
  readByte_from (S (length (ranges_ s))).

(** The loop of the straddling path of [read<T>]: bytes [i .. sizeofT) are
    or-ed into the little-endian scratch word [value]. *)
Fixpoint read_straddling (n : nat) (i : Z) (value : Z) : M (ByteStream A) Z :=
  match n with
  | O => ret value
  | S n' =>
      let* b := readByte in
      read_straddling n' (int32_t (i + 1))
        (Z.lor value (size_t (Z.shiftl (byte.unsigned b) (int32_t (i * 8)))))
  end.

(** [read<T>()] for a primitive [T] with [sizeof(T) = sizeofT]. *)
Definition read (sizeofT : nat) : M (ByteStream A) Z :=
  let* c := deref in
  if size_t (size_t (position c) + Z.of_nat sizeofT) <=? size_t (size c) then
    let* _ := assign (with_position
                        (int32_t (size_t (position c) + Z.of_nat sizeofT)) c) in
    let* c := deref in
    defined (load_value sizeofT (buffer c) (position c - Z.of_nat sizeofT))
  else
    let* value := read_straddling sizeofT 0 0 in
    ret (value mod 2 ^ (8 * Z.of_nat sizeofT)).

(** The state of [readBytes] is the stream together with the block [bytes]
    that the caller passes for the result. *)
Definition on_stream {T} (c : M (ByteStream A) T) : M (ByteStream A * list byte) T :=
  λ '(s, bytes), let '(o, s') := c s in (o, (s', bytes)).

Definition on_bytes (f : list byte → option (list byte))
  : M (ByteStream A * list byte) unit :=
  λ '(s, bytes), match f bytes with
                 | Some bytes' => (Returns tt, (s, bytes'))
                 | None => (Raises UndefinedBehavior, (s, bytes))
                 end.

Fixpoint readBytes_loop (fuel : nat) (offset size' : Z)
  : M (ByteStream A * list byte) unit :=
  match fuel with
  | O => raise Diverges
  | S fuel' =>
      let* c := on_stream deref in
      let available := int32_t (size c - position c) in
      let numUsed := Z.min available size' in
      let* _ := on_bytes (λ bytes, memcpy bytes offset (buffer c) (position c) numUsed) in
      let offset := int32_t (offset + numUsed) in
      let size' := int32_t (size' - numUsed) in
      let* _ := on_stream (assign (with_position (int32_t (position c + numUsed)) c)) in
      if size' =? 0 then ret tt
      else
        let* _ := on_stream (next true) in
        readBytes_loop fuel' offset size'
  end.

(** Every turn of the loop that does not return calls [next()], which
    moves to the following range or throws. *)
Definition readBytes (size' : Z) : M (ByteStream A * list byte) unit :=
  let* s := on_stream get in
  readBytes_loop (S (length (ranges_ s))) 0 size'.

Definition nextView (size' : Z) : M (ByteStream A) string_view :=
  let* c := deref in
  let* s := get in
  let* atLast :=
    (if position c =? size c then
       if bool_decide (current_ s = length (ranges_ s) - 1)%nat then ret true
       else let* _ := next true in ret false
     else ret false) in
  if (atLast : bool) then ret (mkView None 0)
  else
    let* c := deref in
    let* s := get in
    let* _ := VELOX_CHECK (negb (size c =? 0)) in
    let position' := position c in
    let viewSize := Z.min (int32_t (size c - position c)) size' in
    let* _ := assign (with_position (int32_t (position c + viewSize)) c) in
    ret (mkView (Some (current_ s, position')) (size_t viewSize)).

Fixpoint skip_loop (fuel : nat) (size' : Z) : M (ByteStream A) unit :=
  match fuel with
  | O => raise Diverges
  | S fuel' =>
      let* c := deref in
      let available := int32_t (size c - position c) in
      let numUsed := Z.min available size' in
      let size' := int32_t (size' - numUsed) in
      let* _ := assign (with_position (int32_t (position c + numUsed)) c) in
      if size' =? 0 then ret tt
      else
        let* _ := next true in
        skip_loop fuel' size'
  end.

Definition skip (size' : Z) : M (ByteStream A) unit :=
  let* s := get in
  skip_loop (S (length (ranges_ s))) size'.

(** The loop of [appendStringPiece].  A turn that does not return has
    filled the current range and asks the arena for a new one. *)
Fixpoint appendStringPiece_loop (fuel : nat) (value : list byte) (bytes offset : Z)
  : M (ByteStream A) unit :=
  match fuel with
  | O => raise Diverges
  | S fuel' =>
      let* c := deref in
      let bytesFit := Z.min (int32_t (bytes - offset)) (int32_t (size c - position c)) in
      let* buffer' := defined (memcpy (buffer c) (position c) value offset bytesFit) in
      let* _ := assign (with_position (int32_t (position c + bytesFit))
                          (with_buffer buffer' c)) in
      let offset := int32_t (offset + bytesFit) in
      if offset =? bytes then ret tt
      else
        let* _ := extend (roundUp (int32_t (bytes - offset)) kPageSize) in
        appendStringPiece_loop fuel' value bytes offset
  end.

(** With an arena whose ranges are not empty the first turn copies what
    fits into the current range and each later turn at least one byte. *)
Definition appendStringPiece (value : list byte) : M (ByteStream A) unit :=
  appendStringPiece_loop (S (length value)) value
    (int32_t (Z.of_nat (length value))) 0.

(** The element-wise copy loop of [append<T>]. *)
Fixpoint append_copy (sizeofT : nat) (values : list Z) (buf : list byte) (target : Z)
  : option (list byte) :=
  match values with
  | [] => Some buf
  | v :: values' =>
      match store_value sizeofT buf target v with
      | Some buf' => append_copy sizeofT values' buf' (target + Z.of_nat sizeofT)
      | None => None
      end
  end.

(** The object representation of a span of values. *)
Definition bytes_of (sizeofT : nat) (values : list Z) : list byte :=
  concat (map (le_split sizeofT) values).

(** [append<T>(values)] for a primitive [T] with [sizeof(T) = sizeofT]. *)
Definition append (sizeofT : nat) (values : list Z) : M (ByteStream A) unit :=
  let* c := deref in
  if size_t (size c) <?
     size_t (size_t (position c)
             + size_t (Z.of_nat sizeofT * Z.of_nat (length values))) then
    appendStringPiece (bytes_of sizeofT values)
  else
    let* buffer' := defined (append_copy sizeofT values (buffer c) (position c)) in
    assign (with_position
              (int32_t (size_t (position c)
                        + size_t (Z.of_nat sizeofT * Z.of_nat (length values))))
              (with_buffer buffer' c)).

Definition appendOne (sizeofT : nat) (value : Z) : M (ByteStream A) unit :=
  append sizeofT [value].

Fixpoint appendBool_loop (fuel : nat) (value : bool) (count offset : Z)
  : M (ByteStream A) unit :=
  match fuel with
  | O => raise Diverges
  | S fuel' =>
      let* c := deref in
      let bitsFit :=
        Z.min (int32_t (count - offset))
              (int32_t (int32_t (size c * 8) - position c)) in
      let* buffer' :=
        defined (fillBits (buffer c) (position c)
                   (int32_t (position c + bitsFit)) value) in
      let* _ := assign (with_position (int32_t (position c + bitsFit))
                          (with_buffer buffer' c)) in
      let offset := int32_t (offset + bitsFit) in
      if offset =? count then ret tt
      else
        let* _ := extend (nbytes (int32_t (count - offset))) in
        appendBool_loop fuel' value count offset
  end.

Definition appendBool (value : bool) (count : Z) : M (ByteStream A) unit :=
  let* single :=
    (if count =? 1 then
       let* c := deref in
       ret (negb (int32_t (int32_t (size c * 8) - position c) =? 0))
     else ret false) in
  if (single : bool) then
    let* c := deref in
    let* buffer' := defined (setBit (buffer c) (position c) value) in
    assign (with_position (int32_t (position c + 1)) (with_buffer buffer' c))
  else
    let* s := get in
    let* _ := VELOX_DCHECK (isBits_ s) in
    appendBool_loop (S (Z.to_nat count)) value count 0.

Definition writePosition : M (ByteStream A) (option (nat * Z)) :=
  let* s := get in
  if bool_decide (ranges_ s = []) then ret None
  else
    let* c := deref in
    ret (Some (current_ s, position c)).

(** The body of the specialisations [read<Timestamp>] and [read<Date>]:
    the bytes of an object [value] of [sizeofT] bytes are overwritten by
    [readBytes] and the object is returned.  [Timestamp] and [Date] are
    declared outside the sources at hand, so the size of the type and the
    bytes of the uninitialised object are arguments. *)
Definition read_struct (sizeofT : nat) (value : list byte)
  : M (ByteStream A) (list byte) :=
  λ s, match readBytes (Z.of_nat sizeofT) (s, value) with
       | (Returns _, (s', value')) => (Returns value', s')
       | (Raises e, (s', _)) => (Raises e, s')
       end.

End Stream.

(** * S3Util: paths of the S3 file system

    A shallow embedding of the string functions of
    [velox/connectors/hive/storage_adapters/s3fs/S3Util.h].  A
    [std::string] or [std::string_view] is the list of its characters;
    positions and counts are [size_t]. *)

Module S3Util.
Import String.StringSyntax.

(** [std::string::npos] *)
Definition npos : Z := 2 ^ 64 - 1.

(** A value, or the exception [std::out_of_range]. *)
Inductive result (T : Type) : Type :=
| Ok (v : T)
| OutOfRange.
Arguments Ok {T} v.
Arguments OutOfRange {T}.

(** [s.substr(pos, n)]: the characters from [pos] on, at most [n] of them;
    it throws when [pos] is past the end. *)
Definition substr (s : list Ascii.ascii) (pos n : Z) : result (list Ascii.ascii) :=
  if Z.of_nat (length s) <? pos then OutOfRange
  else Ok (take (Z.to_nat (Z.min n (Z.of_nat (length s) - pos)))
             (drop (Z.to_nat pos) s)).

(** [s.find_first_of(chars)]: the position of the first character of [s]
    that is one of [chars], or [npos]. *)
Fixpoint find_first_of_from (s chars : list Ascii.ascii) (i : Z) : Z :=
  match s with
  | [] => npos
  | c :: s' =>
      if bool_decide (c ∈ chars) then i
      else find_first_of_from s' chars (size_t (i + 1))
  end.

Definition find_first_of (s chars : list Ascii.ascii) : Z :=
  find_first_of_from s chars 0.

Definition kSep : list Ascii.ascii := String.list_ascii_of_string "/".

Definition kS3Scheme : list Ascii.ascii := String.list_ascii_of_string "s3://".

Definition kS3MaxKeySize : Z := 1024.

Definition isS3File (filename : list Ascii.ascii) : result bool :=
  match substr filename 0 (Z.of_nat (length kS3Scheme)) with
  | Ok prefix => Ok (bool_decide (prefix = kS3Scheme))
  | OutOfRange => OutOfRange
  end.

(** The references [bucket] and [key] that the function assigns are its
    result. *)
Definition bucketAndKeyFromS3Path (path : list Ascii.ascii)
  : result (list Ascii.ascii * list Ascii.ascii) :=
  let firstSep := find_first_of path kSep in
  match substr path 0 firstSep with
  | Ok bucket =>
      match substr path (size_t (firstSep + 1)) npos with
      | Ok key => Ok (bucket, key)
      | OutOfRange => OutOfRange
      end
  | OutOfRange => OutOfRange
  end.

Definition s3Path (path : list Ascii.ascii) : result (list Ascii.ascii) :=
  substr path (Z.of_nat (length kS3Scheme)) npos.

(** [Aws::String(s.begin(), s.end())]: the same characters. *)
Definition awsString (s : list Ascii.ascii) : list Ascii.ascii := s.

End S3Util.

(** ** Vocabulary of the properties *)

(** The invariant of a byte-addressed range, within the [int32_t] range of
    its fields: the cursor lies within the capacity and the block holds at
    least [size] bytes. *)
Definition range_ok (r : ByteRange) : Prop :=
  0 ≤ position r ≤ size r
  ∧ size r < 2 ^ 31
  ∧ size r ≤ Z.of_nat (length (buffer r)).

(** The bytes of a range that an output stream has written, and the bytes
    that an input stream can read from it. *)
Definition written (r : ByteRange) : list byte :=
  take (Z.to_nat (position r)) (buffer r).

Definition readable (r : ByteRange) : list byte :=
  take (Z.to_nat (size r)) (buffer r).

(** What the stream relies on from its arena.  [J a reqs] relates a state
    of the arena to the sizes that have been asked of it so far.  Asked
    for a positive number of bytes in such a state, the arena moves to a
    state related to the longer history and fills the range in with
    position 0, a size that is not zero, and a block of at least that size.
    (The specification asks for more: a block of at least the size asked
    for.) *)
Definition ArenaContract {A : Type} {arena : StreamArena A}
    (J : A → list Z → Prop) : Prop :=
  ∀ bytes a reqs,
    0 < bytes < 2 ^ 31 → J a reqs →
    J (snd (newRange bytes a)) (reqs ++ [bytes])
    ∧ position (fst (newRange bytes a)) = 0
    ∧ 0 < size (fst (newRange bytes a))
    ∧ range_ok (fst (newRange bytes a)).

(** An arena that also records the sizes it is asked for. *)
Definition recording {A : Type} (arena : StreamArena A) : StreamArena (A * list Z) :=
  λ bytes '(a, log),
    let '(r, a') := newRange bytes a in (r, (a', log ++ [bytes])).

(** Every range of the list but its last is filled up to its size. *)
Definition full_but_last (rs : list ByteRange) : Prop :=
  ∀ i r, (S i < length rs)%nat → rs !! i = Some r → position r = size r.

(** The bytes an output stream holds, in the order of its ranges. *)
Definition output_bytes {A : Type} (s : ByteStream A) : list byte :=
  concat (map written (ranges_ s)).

(** What an output stream is between two appends: its current range is
    its last one, every range satisfies its invariant, and every range but
    the last is filled up to its size. *)
Definition out_ok {A : Type} (s : ByteStream A) : Prop :=
  (0 < length (ranges_ s))%nat
  ∧ current_ s = (length (ranges_ s) - 1)%nat
  ∧ Forall range_ok (ranges_ s)
  ∧ full_but_last (ranges_ s).

(** What appending the bytes [value] does to a stream [s] whose arena has
    been asked for [reqs] so far: the range [c] that was current becomes
    [c'], the ranges [added] follow the ranges of [s], and the arena has
    been asked for [asked] more. *)
Definition append_effect {A : Type} {memory : MappedMemory}
    (J : A → list Z → Prop) (value : list byte) (reqs : list Z)
    (s s' : ByteStream A) : Prop :=
  ∃ c c' added asked,
    ranges_ s !! current_ s = Some c
    ∧ ranges_ s' = <[current_ s := c']> (ranges_ s) ++ added
    ∧ isBits_ s' = isBits_ s
    ∧ J (arena_ s') (reqs ++ asked)
    ∧ length asked = length added
    ∧ Forall (λ b, 0 < b ∧ b mod kPageSize = 0) asked
    ∧ range_ok c'
    ∧ size c' = size c
    ∧ position c'
      = position c + Z.min (Z.of_nat (length value)) (size c - position c)
    ∧ written c' ++ concat (map written added) = written c ++ value
    ∧ Forall range_ok added
    ∧ Forall (λ r, 0 < position r) added
    ∧ full_but_last added
    ∧ (added = [] → current_ s' = current_ s)
    ∧ (added ≠ [] →
       current_ s' = (length (ranges_ s') - 1)%nat ∧ position c' = size c').

(** The relation between the states of a recording arena and the sizes
    asked of it: the log is the history, and the arena recorded is in a
    state its own contract speaks of. *)
Definition recorded {A : Type} (J : A → list Z → Prop)
    (al : A * list Z) (reqs : list Z) : Prop :=
  snd al = reqs ∧ ∃ reqs0, J (fst al) reqs0.

(** ** Sequences of appends *)

Inductive append_op : Type :=
| Append (sizeofT : nat) (values : list Z)
| AppendOne (sizeofT : nat) (value : Z)
| AppendStringPiece (value : list byte).

(** The bytes an append adds to the stream. *)
Definition op_bytes (op : append_op) : list byte :=
  match op with
  | Append sizeofT values => bytes_of sizeofT values
  | AppendOne sizeofT value => bytes_of sizeofT [value]
  | AppendStringPiece value => value
  end.

(** The values an append writes, each with the size of its type.  The
    bytes of a string are values of a one-byte type. *)
Definition op_values (op : append_op) : list (nat * Z) :=
  match op with
  | Append sizeofT values => map (pair sizeofT) values
  | AppendOne sizeofT value => [(sizeofT, value)]
  | AppendStringPiece value => map (λ b, (1%nat, byte.unsigned b)) value
  end.

(** A value fits its type: the type has at most eight bytes and the value
    is one of its bit patterns. *)
Definition fits_type (v : nat * Z) : Prop :=
  (fst v ≤ 8)%nat ∧ 0 ≤ snd v < 2 ^ (Z.of_nat (fst v) * 8).

Section Programs.
Context {A : Type} {arena : StreamArena A} {memory : MappedMemory}
        {growth : VectorGrowth}.

Definition run_op (op : append_op) : M (ByteStream A) unit :=
  match op with
  | Append sizeofT values => append sizeofT values
  | AppendOne sizeofT value => appendOne sizeofT value
  | AppendStringPiece value => appendStringPiece value
  end.

Fixpoint run_ops (ops : list append_op) : M (ByteStream A) unit :=
  match ops with
  | [] => ret tt
  | op :: ops' => let* _ := run_op op in run_ops ops'
  end.

(** [appendBool] once for each pair of a value and a count, in order. *)
Fixpoint append_bools (bools : list (bool * Z)) : M (ByteStream A) unit :=
  match bools with
  | [] => ret tt
  | (value, count) :: bools' =>
      let* _ := appendBool value count in append_bools bools'
  end.

(** [read<T>()] once for each size of the list, in order. *)
Fixpoint read_all (sizes : list nat) : M (ByteStream A) (list Z) :=
  match sizes with
  | [] => ret []
  | sizeofT :: sizes' =>
      let* v := read sizeofT in
      let* vs := read_all sizes' in
      ret (v :: vs)
  end.

End Programs.

(** What an input stream needs of a range it has not reached yet, and of
    the stream as a whole: a current range that satisfies its invariant,
    followed by ranges that can be read. *)
Definition readable_ok (r : ByteRange) : Prop :=
  0 ≤ size r < 2 ^ 31 ∧ size r ≤ Z.of_nat (length (buffer r)).

Definition in_ok {A : Type} (s : ByteStream A) : Prop :=
  ∃ c, ranges_ s !! current_ s = Some c
       ∧ range_ok c
       ∧ Forall readable_ok (drop (S (current_ s)) (ranges_ s)).

(** The bytes an input stream has yet to read: the rest of the current
    range, then the ranges after it. *)
Definition input_bytes {A : Type} (s : ByteStream A) : list byte :=
  match ranges_ s !! current_ s with
  | Some c =>
      drop (Z.to_nat (position c)) (readable c)
      ++ concat (map readable (drop (S (current_ s)) (ranges_ s)))
  | None => []
  end.

(** The bytes a view refers to in the ranges [rs]. *)
Definition view_bytes (rs : list ByteRange) (v : string_view) : list byte :=
  match view_data v with
  | Some (i, off) =>
      match rs !! i with
      | Some r => take (Z.to_nat (view_size v)) (drop (Z.to_nat off) (buffer r))
      | None => []
      end
  | None => []
  end.

(** The written part of a range, as a range to read. *)
Definition as_input (r : ByteRange) : ByteRange :=
  {| buffer := buffer r; size := position r; position := 0 |}.

(** The invariant of a range of a bit-addressed stream as the code keeps
    it: [position] counts bits, [size] counts the bytes of the block. *)
Definition bit_range_ok (r : ByteRange) : Prop :=
  0 ≤ position r ≤ size r * 8
  ∧ size r * 8 < 2 ^ 31
  ∧ size r ≤ Z.of_nat (length (buffer r)).

(** The bits written to a list of ranges. *)
Definition bits_in (rs : list ByteRange) : Z :=
  foldr (λ r n, position r + n) 0 rs.

(** The bits that a sequence of [appendBool] calls appends. *)
Definition bits_appended (bools : list (bool * Z)) : Z :=
  foldr (λ op n, snd op + n) 0 bools.

(** ** Two arenas to run the stream on *)

(** An arena that hands out zero-filled ranges of exactly the size asked
    for; its state counts the ranges handed out. *)
Definition exactArena : StreamArena nat :=
  λ bytes n,
    ({| buffer := replicate (Z.to_nat bytes) Byte.x00;
        size := bytes;
        position := 0 |}, S n).

(** An arena that hands out ranges of [chunk] bytes filled with 0xff,
    whatever size is asked for, as an arena whose run of pages is nearly
    used up does. *)
Definition chunkArena (chunk : nat) : StreamArena nat :=
  λ bytes n,
    ({| buffer := replicate chunk Byte.xff;
        size := Z.of_nat chunk;
        position := 0 |}, S n).

Definition chunks_of_three : StreamArena nat := chunkArena 3.

Definition page4096 : MappedMemory := 4096.

(** The growth of the vector in libstdc++ and libc++: the capacity
    doubles. *)
Definition doubling : VectorGrowth := λ n, Nat.max 1 (2 * n).

(** ** Runs on these arenas *)

(** The sizes asked of [exactArena] and [chunkArena] do not matter to
    them. *)
Definition any_history (a : nat) (reqs : list Z) : Prop := True.

(** A byte-addressed and a bit-addressed output stream on a fresh arena. *)
Definition fresh_output : ByteStream nat := output_stream 0%nat false false.

Definition fresh_bit_output : ByteStream nat := output_stream 0%nat true false.

(** An output stream whose only range has one byte, none written, when it
    is bit-addressed and when it is not. *)
Definition one_byte_range : ByteRange :=
  {| buffer := [Byte.x00]; size := 1; position := 0 |}.

Definition one_byte_bits : ByteStream nat :=
  mkByteStream 1%nat true false false [one_byte_range] 0.

Definition one_byte_bytes : ByteStream nat :=
  mkByteStream 1%nat false false false [one_byte_range] 0.

(** An output stream whose only range has two bytes, none written. *)
Definition two_byte_range : ByteRange :=
  {| buffer := [Byte.x00; Byte.x00]; size := 2; position := 0 |}.

Definition two_byte_output : ByteStream nat :=
  mkByteStream 1%nat false false false [two_byte_range] 0.

Definition two_byte_recorded : ByteStream (nat * list Z) :=
  mkByteStream (1%nat, []) false false false [two_byte_range] 0.

(** An input stream of two ranges, of three and two bytes, the first byte
    already read; the same stream on its second range; and that stream
    read to its end. *)
Definition first_range : ByteRange :=
  {| buffer := [Byte.x01; Byte.x02; Byte.x03]; size := 3; position := 1 |}.

Definition second_range : ByteRange :=
  {| buffer := [Byte.x04; Byte.x05]; size := 2; position := 0 |}.

Definition two_ranges_input : ByteStream unit :=
  mkByteStream tt false false false [first_range; second_range] 0.

Definition on_second_range : ByteStream unit :=
  mkByteStream tt false false false [first_range; second_range] 1.

Definition read_to_end : ByteStream unit :=
  mkByteStream tt false false false
    [with_position 3 first_range; with_position 2 second_range] 1.

(** An input stream whose first range is read up to its size and whose
    second range is empty. *)
Definition before_empty_range : ByteStream unit :=
  mkByteStream tt false false false
    [with_position 3 first_range;
     {| buffer := []; size := 0; position := 0 |}] 0.

(** Values of four, two, eight and one bytes. *)
Definition mixed_appends : list append_op :=
  [AppendOne 4 0x11223344;
   Append 2 [0xBEEF; 0x0102];
   AppendOne 8 0x0102030405060708;
   AppendOne 1 0xFF].

(** A bucket and a key of the S3 file system, and a name without a
    separator. *)
Section Names.
Import String.StringSyntax.

Definition warehouse : list Ascii.ascii := String.list_ascii_of_string "warehouse".

Definition part_key : list Ascii.ascii :=
  String.list_ascii_of_string "year=2023/part-0.parquet".

Definition local_name : list Ascii.ascii := String.list_ascii_of_string "tmp".

End Names.

Section Runs.
Local Existing Instance exactArena.
Local Existing Instance page4096.
Local Existing Instance doubling.

(** A placeholder that straddles two ranges: the first range has two
    bytes, a four-byte placeholder is written at its start and a payload
    after it. *)
Definition straddling_placeholder : M (ByteStream nat) unit :=
  let* _ := startWrite 2 in
  let* _ := appendOne 4 0 in
  appendOne 4 0x55667788.

(** Back at the start of the placeholder, the position is captured and
    restored at once. *)
Definition back_to_placeholder : M (ByteStream nat) Position :=
  let* _ := seek 0 0 in
  let* pos := tellp in
  let* _ := seekp pos in
  ret pos.

(** A backpatch that captures the position before it writes the
    placeholder and restores it afterwards. *)
Definition straddling_backpatch : M (ByteStream nat) unit :=
  let* _ := startWrite 2 in
  let* pos := tellp in
  let* _ := appendOne 4 0 in
  let* _ := appendOne 4 0x55667788 in
  let* _ := seekp pos in
  appendOne 4 0x11223344.

End Runs.

(** * Properties *)

(** ** Arithmetic within the range of the fixed-width types *)

Lemma int32_t_id (z : Z) : - 2 ^ 31 ≤ z < 2 ^ 31 → int32_t z = z.
Proof. intros Hz. unfold int32_t. rewrite Z.mod_small; lia. Qed.

Lemma size_t_id (z : Z) : 0 ≤ z < 2 ^ 64 → size_t z = z.
Proof. intros Hz. unfold size_t. by rewrite Z.mod_small. Qed.

Arguments int32_t : simpl never.
Arguments size_t : simpl never.

(** Removes the conversions whose argument is within range. *)
Ltac unwrap :=
  repeat match goal with
    | |- context [size_t ?z] => rewrite (size_t_id z) by lia
    | |- context [int32_t ?z] => rewrite (int32_t_id z) by lia
    end.

(** ** The monad *)

Lemma bind_Returns {St T U} (c : M St T) (k : T → M St U) s v s' :
  c s = (Returns v, s') → bind c k s = k v s'.
Proof. intros H. unfold bind. by rewrite H. Qed.

Lemma bind_Raises {St T U} (c : M St T) (k : T → M St U) s e s' :
  c s = (Raises e, s') → bind c k s = (Raises e, s').
Proof. intros H. unfold bind. by rewrite H. Qed.

Section StreamFacts.
Context {A : Type}.
Implicit Types (s : ByteStream A) (c r : ByteRange).

Lemma deref_Some s c :
  ranges_ s !! current_ s = Some c → deref s = (Returns c, s).
Proof. intros H. unfold deref. by rewrite H. Qed.

Lemma deref_None s :
  ranges_ s !! current_ s = None → deref s = (Raises UndefinedBehavior, s).
Proof. intros H. unfold deref. by rewrite H. Qed.

Lemma assign_Some s c r :
  ranges_ s !! current_ s = Some c →
  assign r s = (Returns tt, set_ranges (<[current_ s := r]> (ranges_ s)) s).
Proof.
  intros H. unfold assign. apply lookup_lt_Some in H.
  by rewrite decide_True.
Qed.

Lemma with_position_id c : with_position (position c) c = c.
Proof. by destruct c. Qed.

End StreamFacts.

(** ** Traversal: [next] and [atEnd] *)

Section Traversal.
Context {A : Type}.
Implicit Types (s : ByteStream A) (c r : ByteRange).

Lemma next_last (throwIfPastEnd : bool) s c :
  ranges_ s !! current_ s = Some c →
  current_ s = (length (ranges_ s) - 1)%nat →
  next throwIfPastEnd s
  = (if throwIfPastEnd then Raises EndOfStream else Returns tt, s).
Proof.
  intros Hc Hlast. apply lookup_lt_Some in Hc.
  unfold next, bind, get, VELOX_CHECK.
  rewrite bool_decide_eq_true_2 by done. cbn.
  rewrite bool_decide_eq_true_2 by done.
  by destruct throwIfPastEnd.
Qed.

Lemma next_advance (throwIfPastEnd : bool) s c r :
  ranges_ s !! current_ s = Some c →
  ranges_ s !! S (current_ s) = Some r →
  next throwIfPastEnd s
  = (Returns tt,
     set_ranges (<[S (current_ s) := with_position 0 r]> (ranges_ s))
       (set_current (S (current_ s)) s)).
Proof.
  intros Hc Hr.
  pose proof (lookup_lt_Some _ _ _ Hc). pose proof (lookup_lt_Some _ _ _ Hr).
  unfold next, bind, get, VELOX_CHECK.
  rewrite bool_decide_eq_true_2 by done. cbn.
  rewrite bool_decide_eq_false_2 by lia.
  unfold put, deref, assign. cbn. rewrite Hr. cbn.
  by rewrite decide_True.
Qed.

(** C4.  On a stream whose current range is the last one, [next(true)]
    raises the end-of-stream failure and [next(false)] returns normally,
    and both leave the stream exactly as it was, so neither the current
    range nor its position changes.  When a range [r] follows the current
    one, [next] returns normally, makes [r] the current range and sets its
    position to 0, whatever the flag; nothing else changes. *)
Theorem next_spec s c :
  ranges_ s !! current_ s = Some c →
  (current_ s = (length (ranges_ s) - 1)%nat →
     next true s = (Raises EndOfStream, s) ∧ next false s = (Returns tt, s))
  ∧ (∀ r throwIfPastEnd,
       ranges_ s !! S (current_ s) = Some r →
       ∃ s', next throwIfPastEnd s = (Returns tt, s')
             ∧ current_ s' = S (current_ s)
             ∧ ranges_ s' !! current_ s' = Some (with_position 0 r)
             ∧ position (with_position 0 r) = 0
             ∧ (∀ i, i ≠ S (current_ s) → ranges_ s' !! i = ranges_ s !! i)
             ∧ length (ranges_ s') = length (ranges_ s)).
Proof.
  intros Hc. split.
  - intros Hlast. split.
    + apply (next_last true s c Hc Hlast).
    + apply (next_last false s c Hc Hlast).
  - intros r b Hr. eexists. split; [by apply (next_advance b s c r)|].
    cbn. pose proof (lookup_lt_Some _ _ _ Hr).
    split_and!; [done| |done| |].
    + by apply list_lookup_insert_eq.
    + intros i Hi. by apply list_lookup_insert_ne.
    + by rewrite length_insert.
Qed.

(** C5.  On a stream whose current range satisfies [position <= size],
    [atEnd()] returns normally, leaves the stream as it is, and its result
    is true exactly when the current range is read up to its size and is
    the last range; at every earlier read position it is false. *)
Theorem atEnd_spec s c :
  ranges_ s !! current_ s = Some c →
  position c ≤ size c →
  ∃ b : bool,
    atEnd s = (Returns b, s)
    ∧ (b = true ↔
       position c = size c ∧ current_ s = (length (ranges_ s) - 1)%nat).
Proof.
  intros Hc Hle. pose proof (lookup_lt_Some _ _ _ Hc) as Hlt.
  unfold atEnd. rewrite (bind_Returns _ _ _ _ _ (deref_Some s c Hc)).
  destruct (Z.ltb_spec (position c) (size c)) as [Hlt'|Hge].
  - exists false. split; [done|]. split; [done|]. lia.
  - unfold bind, get, VELOX_CHECK. rewrite bool_decide_eq_true_2 by done. cbn.
    case_bool_decide as Hlast.
    + exists true. split; [done|]. split; [|done]. intros _. split; [lia|done].
    + exists false. split; [done|]. split; [done|]. intros [_ ?]. done.
Qed.

End Traversal.

(** ** Zero-copy views: [nextView] *)

Section Views.
Context {A : Type}.
Implicit Types (s : ByteStream A) (c r : ByteRange).

Lemma nextView_at_end k s c :
  ranges_ s !! current_ s = Some c →
  position c = size c →
  current_ s = (length (ranges_ s) - 1)%nat →
  nextView k s = (Returns (mkView None 0), s).
Proof.
  intros Hc Hpos Hlast. unfold nextView.
  rewrite (bind_Returns _ _ _ _ _ (deref_Some s c Hc)).
  unfold bind at 1. unfold get at 1.
  rewrite (proj2 (Z.eqb_eq _ _) Hpos).
  rewrite bool_decide_eq_true_2 by done. done.
Qed.

Lemma nextView_within k s c :
  ranges_ s !! current_ s = Some c →
  0 ≤ position c < size c → size c < 2 ^ 31 → 0 ≤ k →
  nextView k s
  = (Returns (mkView (Some (current_ s, position c))
                (Z.min (size c - position c) k)),
     set_ranges (<[current_ s :=
                     with_position (position c + Z.min (size c - position c) k) c]>
                   (ranges_ s)) s).
Proof.
  intros Hc Hpos Hsize Hk. unfold nextView.
  rewrite (bind_Returns _ _ _ _ _ (deref_Some s c Hc)).
  unfold bind at 1. unfold get at 1.
  rewrite (proj2 (Z.eqb_neq _ _)) by lia.
  unfold bind at 1. unfold ret at 1.
  rewrite (bind_Returns _ _ _ _ _ (deref_Some s c Hc)).
  unfold bind at 1. unfold get at 1.
  rewrite (proj2 (Z.eqb_neq (size c) 0)) by lia. cbn.
  unfold bind. rewrite (assign_Some s c _ Hc). unfold ret.
  unwrap. done.
Qed.

Lemma nextView_advance k s c r :
  ranges_ s !! current_ s = Some c →
  position c = size c →
  ranges_ s !! S (current_ s) = Some r →
  0 < size r < 2 ^ 31 → 0 ≤ k →
  nextView k s
  = (Returns (mkView (Some (S (current_ s), 0)) (Z.min (size r) k)),
     set_ranges (<[S (current_ s) := with_position (Z.min (size r) k) r]>
                   (ranges_ s))
       (set_current (S (current_ s)) s)).
Proof.
  intros Hc Hpos Hr Hsize Hk.
  pose proof (lookup_lt_Some _ _ _ Hr) as Hlt.
  unfold nextView.
  rewrite (bind_Returns _ _ _ _ _ (deref_Some s c Hc)).
  unfold bind at 1. unfold get at 1.
  rewrite (proj2 (Z.eqb_eq _ _) Hpos).
  rewrite bool_decide_eq_false_2 by lia.
  unfold bind at 1. unfold bind at 1.
  rewrite (next_advance true s c r Hc Hr). unfold ret at 1.
  set (s1 := set_ranges _ _).
  assert (ranges_ s1 !! current_ s1 = Some (with_position 0 r)) as Hc1.
  { subst s1. cbn. by apply list_lookup_insert_eq. }
  rewrite (bind_Returns _ _ _ _ _ (deref_Some s1 _ Hc1)).
  unfold bind at 1. unfold get at 1. cbn [size with_position position].
  rewrite (proj2 (Z.eqb_neq (size r) 0)) by lia. cbn [negb VELOX_CHECK].
  unfold bind. unfold ret at 1. rewrite (assign_Some s1 _ _ Hc1). unfold ret.
  unwrap. subst s1. cbn. rewrite list_insert_insert_eq.
  rewrite Z.sub_0_r. done.
Qed.

(** C6, amended.  Let the current range satisfy [0 <= position <= size],
    let the range that follows it, if any, have a size that is not zero,
    and let [1 <= k].  Then [nextView(k)] returns normally.  Its view is at
    most [k] bytes long.  It is the null view of length 0, with the stream
    unchanged, exactly when the current range is read up to its size and
    is the last one.  Otherwise it lies in one range: the current one, from
    its position, or, when that range is read up to its size, the following
    one from offset 0 (one step forward, never more); it is
    [min(k, bytes left in that range)] long, which is at least 1, it ends
    within the range, and the position of the range moves to its end. *)
Theorem nextView_spec k s c :
  ranges_ s !! current_ s = Some c →
  0 ≤ position c ≤ size c → size c < 2 ^ 31 →
  (∀ r, ranges_ s !! S (current_ s) = Some r → 0 < size r < 2 ^ 31) →
  1 ≤ k < 2 ^ 31 →
  ∃ v s',
    nextView k s = (Returns v, s')
    ∧ view_size v ≤ k
    ∧ (view_size v = 0 ↔
       position c = size c ∧ current_ s = (length (ranges_ s) - 1)%nat)
    ∧ match view_data v with
      | None => view_size v = 0 ∧ s' = s
      | Some (i, off) =>
          ∃ r, ranges_ s !! i = Some r
               ∧ (i = current_ s ∧ off = position c
                  ∨ i = S (current_ s) ∧ position c = size c ∧ off = 0)
               ∧ view_size v = Z.min k (size r - off)
               ∧ 0 < view_size v
               ∧ off + view_size v ≤ size r
               ∧ current_ s' = i
               ∧ ranges_ s' = <[i := with_position (off + view_size v) r]> (ranges_ s)
      end.
Proof.
  intros Hc Hpos Hsize Hnext Hk.
  pose proof (lookup_lt_Some _ _ _ Hc) as Hlt.
  destruct (decide (position c = size c)) as [Hfull|Hleft].
  - destruct (ranges_ s !! S (current_ s)) as [r|] eqn:Hr.
    + specialize (Hnext r eq_refl).
      pose proof (lookup_lt_Some _ _ _ Hr) as Hlt'.
      eexists _, _. split; [by apply (nextView_advance k s c r); try lia|].
      cbn. split_and!; [lia|split; lia|].
      exists r. split_and!; try done; try lia.
    + apply lookup_ge_None in Hr.
      eexists _, _. split; [apply (nextView_at_end k s c); [done|done|lia]|].
      cbn. split_and!; [lia| |done|done]. split; [intros _|done]. split; [done|lia].
  - eexists _, _. split; [by apply (nextView_within k s c); try lia|].
    cbn. split_and!; [lia|split; lia|].
    exists c. split_and!; try done; try lia.
Qed.

End Views.

(** ** Memory blocks *)

Section Blocks.
Context {T : Type}.
Implicit Types (k l : list T) (i : nat).

Lemma list_inserts_splice i k l :
  (i + length k ≤ length l)%nat →
  list_inserts i k l = take i l ++ k ++ drop (i + length k) l.
Proof.
  intros Hle.
  rewrite <- (take_drop i l) at 1.
  rewrite <- (take_drop (length k) (drop i l)) at 1.
  assert (length (take i l) = i) as Hi by (rewrite length_take; lia).
  rewrite <- (Nat.add_0_r i) at 1. rewrite <- Hi at 1.
  rewrite list_inserts_app_r, list_inserts_0_r, drop_drop; [done|].
  rewrite length_take, length_drop. lia.
Qed.

Lemma length_splice i k l :
  (i + length k ≤ length l)%nat →
  length (take i l ++ k ++ drop (i + length k) l) = length l.
Proof. intros. rewrite !length_app, length_take, length_drop. lia. Qed.

Lemma take_splice i k l :
  (i ≤ length l)%nat →
  take i (take i l ++ k ++ drop (i + length k) l) = take i l.
Proof.
  intros. rewrite take_app_le by (rewrite length_take; lia).
  by rewrite take_take, Nat.min_id.
Qed.

Lemma take_splice_end i k l :
  (i ≤ length l)%nat →
  take (i + length k) (take i l ++ k ++ drop (i + length k) l) = take i l ++ k.
Proof.
  intros. rewrite app_assoc.
  rewrite take_app_le by (rewrite length_app, length_take; lia).
  rewrite take_ge; [done|]. rewrite length_app, length_take. lia.
Qed.

Lemma drop_splice_end i k l :
  (i ≤ length l)%nat →
  drop (i + length k) (take i l ++ k ++ drop (i + length k) l)
  = drop (i + length k) l.
Proof.
  intros. rewrite app_assoc.
  rewrite drop_app_ge by (rewrite length_app, length_take; lia).
  rewrite length_app, length_take.
  replace (i + length k - (i `min` length l + length k))%nat with 0%nat by lia.
  done.
Qed.

Lemma splice_splice i k1 k2 l :
  (i + length k1 ≤ length l)%nat →
  let l1 := take i l ++ k1 ++ drop (i + length k1) l in
  take (i + length k1) l1 ++ k2 ++ drop (i + length k1 + length k2) l1
  = take i l ++ (k1 ++ k2) ++ drop (i + length (k1 ++ k2)) l.
Proof.
  intros Hle l1. subst l1.
  rewrite take_splice_end by lia.
  rewrite <- (drop_drop _ (length k2) (i + length k1)), drop_splice_end by lia.
  rewrite drop_drop, length_app, <- !app_assoc.
  by rewrite Nat.add_assoc.
Qed.

End Blocks.

Lemma load_Some (buf : list byte) (at_ n : Z) :
  0 ≤ at_ → 0 ≤ n → at_ + n ≤ Z.of_nat (length buf) →
  load buf at_ n = Some (take (Z.to_nat n) (drop (Z.to_nat at_) buf)).
Proof.
  intros. unfold load.
  rewrite !(proj2 (Z.leb_le _ _)) by lia. done.
Qed.

Lemma store_Some (buf : list byte) (at_ : Z) (src : list byte) :
  0 ≤ at_ → at_ + Z.of_nat (length src) ≤ Z.of_nat (length buf) →
  store buf at_ src
  = Some (take (Z.to_nat at_) buf ++ src
          ++ drop (Z.to_nat at_ + length src) buf).
Proof.
  intros. unfold store.
  rewrite !(proj2 (Z.leb_le _ _)) by lia. cbn.
  rewrite list_inserts_splice by lia. done.
Qed.

Lemma memcpy_Some (dst : list byte) (dpos : Z) (src : list byte) (spos n : Z) :
  0 ≤ dpos → 0 ≤ spos → 0 ≤ n →
  spos + n ≤ Z.of_nat (length src) →
  dpos + n ≤ Z.of_nat (length dst) →
  let bs := take (Z.to_nat n) (drop (Z.to_nat spos) src) in
  memcpy dst dpos src spos n
  = Some (take (Z.to_nat dpos) dst ++ bs
          ++ drop (Z.to_nat dpos + length bs) dst)
  ∧ length bs = Z.to_nat n.
Proof.
  intros ? ? ? ? ? bs.
  assert (length bs = Z.to_nat n) as Hbs.
  { subst bs. rewrite length_take, length_drop. lia. }
  split; [|done]. unfold memcpy. rewrite load_Some by lia.
  fold bs. rewrite store_Some by lia. done.
Qed.

Lemma length_bytes_of (sizeofT : nat) (values : list Z) :
  length (bytes_of sizeofT values) = (sizeofT * length values)%nat.
Proof.
  unfold bytes_of. induction values as [|v vs IH]; cbn; [lia|].
  rewrite length_app, length_le_split, IH. lia.
Qed.

Lemma append_copy_Some (sizeofT : nat) (values : list Z) (buf : list byte) (target : Z) :
  0 ≤ target →
  target + Z.of_nat (length (bytes_of sizeofT values)) ≤ Z.of_nat (length buf) →
  append_copy sizeofT values buf target
  = Some (take (Z.to_nat target) buf ++ bytes_of sizeofT values
          ++ drop (Z.to_nat target + length (bytes_of sizeofT values)) buf).
Proof.
  revert buf target. induction values as [|v vs IH]; intros buf target Ht Hfit.
  - cbn. rewrite Nat.add_0_r, take_drop. done.
  - cbn [append_copy]. unfold store_value.
    change (bytes_of sizeofT (v :: vs))
      with (le_split sizeofT v ++ bytes_of sizeofT vs) in *.
    rewrite length_app, length_le_split in Hfit.
    rewrite store_Some by (rewrite ?length_le_split; lia).
    set (buf1 := take _ buf ++ _).
    assert (length buf1 = length buf) as Hlen.
    { subst buf1. apply length_splice. rewrite ?length_le_split. lia. }
    rewrite IH by lia.
    replace (Z.to_nat (target + Z.of_nat sizeofT))
      with (Z.to_nat target + length (le_split sizeofT v))%nat
      by (rewrite ?length_le_split; lia).
    subst buf1. rewrite splice_splice by (rewrite ?length_le_split; lia). done.
Qed.

(** ** Writing in place: [tellp], [seekp] and an append that fits *)

Section InPlace.
Context {A : Type} {arena : StreamArena A} {memory : MappedMemory}
        {growth : VectorGrowth}.
Implicit Types (s : ByteStream A) (c r : ByteRange).

Lemma tellp_Some s c :
  ranges_ s !! current_ s = Some c →
  tellp s = (Returns (element s (current_ s), position c), s).
Proof.
  intros Hc. unfold tellp, bind, get. by rewrite (deref_Some s c Hc).
Qed.

Lemma seekp_Some (pos : Position) s r :
  ptr_block (fst pos) = ranges_data_ s →
  ranges_ s !! ptr_index (fst pos) = Some r →
  seekp pos s
  = (Returns tt,
     set_ranges (<[ptr_index (fst pos) := with_position (snd pos) r]> (ranges_ s))
       (set_current (ptr_index (fst pos)) s)).
Proof.
  intros Hblock Hr. pose proof (lookup_lt_Some _ _ _ Hr).
  unfold seekp, bind, get, put, deref, assign. cbn.
  rewrite bool_decide_eq_true_2 by done. cbn. rewrite Hr. cbn.
  by rewrite decide_True.
Qed.

(** A position whose pointer refers to a block that the vector has left
    cannot be restored. *)
Lemma seekp_dangling (pos : Position) s :
  ptr_block (fst pos) ≠ ranges_data_ s →
  seekp pos s = (Raises UndefinedBehavior, s).
Proof.
  intros Hblock. unfold seekp, bind, get. cbn.
  by rewrite bool_decide_eq_false_2 by done.
Qed.

Lemma seekp_tellp s c :
  ranges_ s !! current_ s = Some c →
  seekp (element s (current_ s), position c) s = (Returns tt, s).
Proof.
  intros Hc. rewrite (seekp_Some (element s (current_ s), position c) s c eq_refl Hc).
  cbn. rewrite with_position_id, list_insert_id by done.
  by destruct s.
Qed.

(** An [append] whose bytes fit into the current range takes the
    element-wise path and changes the bytes from [position] on, nothing
    else. *)
Lemma append_fits (sizeofT : nat) (values : list Z) s c :
  ranges_ s !! current_ s = Some c →
  0 ≤ position c →
  position c + Z.of_nat (length (bytes_of sizeofT values)) ≤ size c →
  size c < 2 ^ 31 →
  size c ≤ Z.of_nat (length (buffer c)) →
  append sizeofT values s
  = (Returns tt,
     set_ranges
       (<[current_ s :=
            {| buffer := take (Z.to_nat (position c)) (buffer c)
                         ++ bytes_of sizeofT values
                         ++ drop (Z.to_nat (position c)
                                  + length (bytes_of sizeofT values)) (buffer c);
               size := size c;
               position := position c
                           + Z.of_nat (length (bytes_of sizeofT values)) |}]>
          (ranges_ s)) s).
Proof.
  intros Hc Hpos Hfit Hsize Hbuf.
  pose proof (length_bytes_of sizeofT values) as Hlen.
  assert (Z.of_nat sizeofT * Z.of_nat (length values)
          = Z.of_nat (length (bytes_of sizeofT values))) as Hmul
    by (rewrite Hlen, Nat2Z.inj_mul; done).
  unfold append. rewrite (bind_Returns _ _ _ _ _ (deref_Some s c Hc)).
  rewrite Hmul. unwrap.
  rewrite (proj2 (Z.ltb_ge _ _)) by lia.
  rewrite append_copy_Some by lia. unfold defined.
  unfold bind, ret. rewrite (assign_Some s c _ Hc). done.
Qed.

(** C8, amended.  [tellp()] returns the pointer to the current range and
    its position and changes nothing, and [seekp] of that position, called
    at once, leaves the stream exactly as it is.  Called on a later stream
    [s2], the position can be restored only while the vector of ranges
    still has the block of storage it had at [tellp()]: once the vector has
    grown into a new block the pointer dangles, and [seekp] writes through
    it.  While the vector has the block and the range, [seekp] makes the
    range the current range again with the saved offset ([tellp] then
    returns the saved position) and changes no buffer.  An [append] that
    follows and whose bytes fit between the saved offset and the size of
    the range writes them in place: the range keeps its size and the
    length of its buffer, its bytes before the saved offset and after the
    last byte written stay as they were, and no other range changes or is
    added. *)
Theorem seekp_tellp_overwrite s c :
  ranges_ s !! current_ s = Some c →
  ∃ pos : Position,
    pos = (element s (current_ s), position c)
    ∧ tellp s = (Returns pos, s)
    ∧ seekp pos s = (Returns tt, s)
    ∧ (∀ s2 : ByteStream A,
         ranges_data_ s2 ≠ ranges_data_ s →
         seekp pos s2 = (Raises UndefinedBehavior, s2))
    ∧ ∀ (s2 : ByteStream A) r,
        ranges_data_ s2 = ranges_data_ s →
        ranges_ s2 !! current_ s = Some r →
        ∃ s3,
          seekp pos s2 = (Returns tt, s3)
          ∧ tellp s3 = (Returns pos, s3)
          ∧ current_ s3 = current_ s
          ∧ ranges_ s3 = <[current_ s := with_position (snd pos) r]> (ranges_ s2)
          ∧ ∀ (sizeofT : nat) (values : list Z),
              0 ≤ snd pos →
              snd pos + Z.of_nat (length (bytes_of sizeofT values)) ≤ size r →
              size r < 2 ^ 31 →
              size r ≤ Z.of_nat (length (buffer r)) →
              ∃ s4 r4,
                append sizeofT values s3 = (Returns tt, s4)
                ∧ current_ s4 = current_ s
                ∧ ranges_ s4 = <[current_ s := r4]> (ranges_ s2)
                ∧ size r4 = size r
                ∧ position r4
                  = snd pos + Z.of_nat (length (bytes_of sizeofT values))
                ∧ length (buffer r4) = length (buffer r)
                ∧ take (Z.to_nat (snd pos)) (buffer r4)
                  = take (Z.to_nat (snd pos)) (buffer r)
                ∧ take (length (bytes_of sizeofT values))
                    (drop (Z.to_nat (snd pos)) (buffer r4))
                  = bytes_of sizeofT values
                ∧ drop (Z.to_nat (snd pos) + length (bytes_of sizeofT values))
                    (buffer r4)
                  = drop (Z.to_nat (snd pos) + length (bytes_of sizeofT values))
                      (buffer r).
Proof.
  intros Hc. exists (element s (current_ s), position c).
  split; [done|]. split; [by apply tellp_Some|]. split; [by apply seekp_tellp|].
  split.
  { intros s2 Hblock. apply seekp_dangling. cbn. congruence. }
  intros s2 r Hblock Hr. cbn [fst snd] in *.
  pose proof (lookup_lt_Some _ _ _ Hr) as Hlt.
  eexists. split;
    [by apply (seekp_Some (element s (current_ s), position c) s2 r)|].
  set (s3 := set_ranges _ _).
  assert (ranges_ s3 !! current_ s3 = Some (with_position (position c) r)) as Hc3.
  { subst s3. cbn. by apply list_lookup_insert_eq. }
  split.
  { rewrite (tellp_Some s3 _ Hc3). unfold element. subst s3. cbn.
    by rewrite Hblock. }
  split; [done|]. split; [done|].
  intros sizeofT values Hpos Hfit Hsize Hbuf.
  eexists _, _. split.
  { by apply (append_fits sizeofT values s3 _ Hc3). }
  cbn [current_ ranges_ set_ranges set_current s3 buffer size position
       with_position element ptr_index].
  rewrite list_insert_insert_eq.
  split_and!; try done; cbn [buffer].
  - apply length_splice. lia.
  - apply take_splice. lia.
  - rewrite drop_app_length' by (rewrite length_take; lia).
    by rewrite take_app_length.
  - apply drop_splice_end. lia.
Qed.

End InPlace.

(** ** The output path: [extend] and [appendStringPiece] *)

Lemma roundUp_bounds (value factor : Z) :
  0 < value → 0 < factor → value + factor ≤ 2 ^ 31 →
  value ≤ roundUp value factor < value + factor
  ∧ roundUp value factor mod factor = 0.
Proof.
  intros Hv Hf Hsum. unfold roundUp.
  pose proof (Z.mul_div_le (value + (factor - 1)) factor Hf) as Hle.
  pose proof (Z.mul_succ_div_gt (value + (factor - 1)) factor Hf) as Hgt.
  assert (0 ≤ (value + (factor - 1)) / factor) by (apply Z.div_pos; lia).
  rewrite (size_t_id value) by lia.
  rewrite (size_t_id (value + (factor - 1))) by lia.
  rewrite (size_t_id (_ * factor)) by nia.
  rewrite int32_t_id by nia.
  split; [nia|]. apply Z.mod_mul. lia.
Qed.

Lemma written_length (r : ByteRange) :
  range_ok r → Z.of_nat (length (written r)) = position r.
Proof.
  intros (? & ? & ?). unfold written. rewrite length_take. lia.
Qed.

Lemma insert_app_last {T} (l : list T) (x y : T) :
  <[length l := y]> (l ++ [x]) = l ++ [y].
Proof.
  rewrite insert_app_r_alt by lia. by rewrite Nat.sub_diag.
Qed.

Section Output.
Context {A : Type} {arena : StreamArena A} {memory : MappedMemory}
        {growth : VectorGrowth}.
Context (J : A → list Z → Prop) (contract : ArenaContract J).
Implicit Types (s : ByteStream A) (c r : ByteRange).

Lemma extend_spec (bytes : Z) s reqs :
  0 < bytes < 2 ^ 31 →
  J (arena_ s) reqs →
  ∃ s' r,
    extend bytes s = (Returns tt, s')
    ∧ ranges_ s' = ranges_ s ++ [r]
    ∧ current_ s' = length (ranges_ s)
    ∧ isBits_ s' = isBits_ s
    ∧ J (arena_ s') (reqs ++ [bytes])
    ∧ position r = 0 ∧ 0 < size r ∧ range_ok r.
Proof.
  intros Hb HJ. destruct (contract bytes (arena_ s) reqs Hb HJ) as (? & ? & ? & ?).
  unfold extend. destruct (newRange bytes (arena_ s)) as [r a] eqn:Hnew.
  eexists _, r. split; [done|]. cbn in *. done.
Qed.

(** One run of the loop of [appendStringPiece], from any turn on.  [c'] is
    what the range that was current becomes, [added] the ranges the arena
    handed out, [asked] the sizes asked of it. *)
Lemma appendStringPiece_loop_spec (fuel : nat) (value : list byte) :
  0 < kPageSize →
  Z.of_nat (length value) + kPageSize ≤ 2 ^ 31 →
  ∀ (offset : Z) s c reqs,
    ranges_ s !! current_ s = Some c →
    range_ok c →
    J (arena_ s) reqs →
    0 ≤ offset ≤ Z.of_nat (length value) →
    (Z.of_nat (length value) - offset < Z.of_nat fuel
     ∨ (position c < size c
        ∧ 0 < Z.of_nat (length value) - offset ≤ Z.of_nat fuel)) →
    ∃ s' c' added asked,
      appendStringPiece_loop fuel value (Z.of_nat (length value)) offset s
      = (Returns tt, s')
      ∧ ranges_ s' = <[current_ s := c']> (ranges_ s) ++ added
      ∧ isBits_ s' = isBits_ s
      ∧ J (arena_ s') (reqs ++ asked)
      ∧ length asked = length added
      ∧ Forall (λ b, 0 < b ∧ b mod kPageSize = 0) asked
      ∧ range_ok c'
      ∧ size c' = size c
      ∧ position c'
        = position c + Z.min (Z.of_nat (length value) - offset)
                         (size c - position c)
      ∧ written c' ++ concat (map written added)
        = written c ++ drop (Z.to_nat offset) value
      ∧ Forall range_ok added
      ∧ Forall (λ r, 0 < position r) added
      ∧ full_but_last added
      ∧ (added = [] → current_ s' = current_ s)
      ∧ (added ≠ [] →
         current_ s' = (length (ranges_ s') - 1)%nat ∧ position c' = size c').
Proof.
  intros Hpage Hlen.
  induction fuel as [|fuel IH]; intros offset s c reqs Hc Hok HJ Hoff Hfuel.
  { lia. }
  destruct Hok as (Hpos & Hsize & Hbuf).
  pose proof (lookup_lt_Some _ _ _ Hc) as Hlt.
  set (bytes := Z.of_nat (length value)) in *.
  set (k := Z.min (bytes - offset) (size c - position c)).
  assert (0 ≤ k) as Hk by lia.
  destruct (memcpy_Some (buffer c) (position c) value offset k)
    as [Hcpy Hbs]; try lia.
  set (bs := take (Z.to_nat k) (drop (Z.to_nat offset) value)) in *.
  set (buf1 := take (Z.to_nat (position c)) (buffer c) ++ bs
               ++ drop (Z.to_nat (position c) + length bs) (buffer c)) in *.
  assert (length buf1 = length (buffer c)) as Hlen1.
  { subst buf1. apply length_splice. lia. }
  set (c1 := with_position (position c + k) (with_buffer buf1 c)).
  assert (written c1 = written c ++ bs) as Hw1.
  { unfold written. subst c1 buf1. cbn.
    replace (Z.to_nat (position c + k))
      with (Z.to_nat (position c) + length bs)%nat by lia.
    apply take_splice_end. lia. }
  assert (range_ok c1) as Hok1.
  { unfold range_ok. subst c1. cbn. lia. }
  cbn [appendStringPiece_loop].
  rewrite (bind_Returns _ _ _ _ _ (deref_Some s c Hc)).
  fold bytes. unwrap. fold k. rewrite Hcpy. unfold defined.
  unfold bind at 1. unfold ret at 1.
  unfold bind at 1. rewrite (assign_Some s c _ Hc).
  fold c1.
  destruct (Z.eqb_spec (offset + k) bytes) as [Hdone|Hmore].
  - (* every byte is copied *)
    exists (set_ranges (<[current_ s := c1]> (ranges_ s)) s), c1, [], [].
    rewrite !app_nil_r.
    split_and!; try done.
    rewrite Hw1. f_equal. subst bs.
    apply take_ge. rewrite length_drop. lia.
  - (* the range is full and bytes remain *)
    assert (k = size c - position c) as Hkfree by lia.
    assert (0 < bytes - (offset + k)) as Hrem by lia.
    destruct (roundUp_bounds (bytes - (offset + k)) kPageSize)
      as [Hround Hmod]; try lia.
    set (s1 := set_ranges (<[current_ s := c1]> (ranges_ s)) s).
    destruct (extend_spec (roundUp (bytes - (offset + k)) kPageSize) s1 reqs)
      as (s2 & r & Hext & Hrs2 & Hcur2 & Hbits2 & HJ2 & Hr0 & Hrsize & Hrok);
      [lia|done|].
    unfold bind at 1. rewrite Hext.
    assert (ranges_ s2 !! current_ s2 = Some r) as Hc2.
    { rewrite Hrs2, Hcur2. subst s1. cbn.
      rewrite lookup_app_r by lia. by rewrite Nat.sub_diag. }
    destruct (IH (offset + k) s2 r _ Hc2 Hrok HJ2) as
      (s' & r' & added & asked & Hrun & Hrs' & Hbits' & HJ' & Hasked & Hpos_asked
       & Hok' & Hsize' & Hpos' & Hw' & Hadded & Hprog & Hfull & Hnil & Hcons);
      [lia|lia|].
    exists s', c1, (r' :: added),
      (roundUp (bytes - (offset + k)) kPageSize :: asked).
    assert (length (ranges_ s1) = length (ranges_ s)) as Hlen_s1.
    { subst s1. cbn. by rewrite length_insert. }
    split_and!.
    + done.
    + rewrite Hrs', Hcur2, Hrs2. subst s1. cbn [ranges_ set_ranges].
      rewrite insert_app_last. by rewrite <- app_assoc.
    + by rewrite Hbits', Hbits2.
    + by rewrite <- app_assoc in HJ'.
    + cbn. by rewrite Hasked.
    + constructor; [split; [lia|done]|done].
    + done.
    + done.
    + subst c1. cbn. lia.
    + cbn [map concat]. rewrite Hw'.
      assert (written r = []) as -> by (unfold written; by rewrite Hr0).
      rewrite Hw1, <- !app_assoc. cbn [app]. f_equal. subst bs.
      replace (Z.to_nat (offset + k)) with (Z.to_nat offset + Z.to_nat k)%nat by lia.
      rewrite <- drop_drop. apply take_drop.
    + by constructor.
    + constructor; [lia|done].
    + intros [|i] r0 Hi Hr0'; cbn in *.
      * injection Hr0' as <-. destruct added; [cbn in Hi; lia|].
        by destruct Hcons.
      * apply (Hfull i r0); [lia|done].
    + done.
    + intros _. split; [|subst c1; cbn; lia].
      destruct added as [|r1 added].
      * rewrite Hnil by done. rewrite Hrs', Hcur2, Hrs2, app_nil_r.
        rewrite length_insert, length_app. cbn. lia.
      * by destruct Hcons.
Qed.

Lemma appendStringPiece_effect (value : list byte) s c reqs :
  0 < kPageSize →
  Z.of_nat (length value) + kPageSize ≤ 2 ^ 31 →
  ranges_ s !! current_ s = Some c →
  range_ok c →
  J (arena_ s) reqs →
  ∃ s', appendStringPiece value s = (Returns tt, s')
        ∧ append_effect J value reqs s s'.
Proof.
  intros Hpage Hlen Hc Hok HJ. unfold appendStringPiece.
  rewrite int32_t_id by lia.
  destruct (appendStringPiece_loop_spec (S (length value)) value Hpage Hlen
              0 s c reqs Hc Hok HJ) as
    (s' & c' & added & asked & Hrun & H); [lia|lia|].
  exists s'. split; [done|]. exists c, c', added, asked.
  rewrite Z.sub_0_r in H. cbn [Z.to_nat drop] in H. split; [done|exact H].
Qed.

Lemma append_effect_typed (sizeofT : nat) (values : list Z) s c reqs :
  0 < kPageSize →
  Z.of_nat (length (bytes_of sizeofT values)) + kPageSize ≤ 2 ^ 31 →
  ranges_ s !! current_ s = Some c →
  range_ok c →
  J (arena_ s) reqs →
  ∃ s', append sizeofT values s = (Returns tt, s')
        ∧ append_effect J (bytes_of sizeofT values) reqs s s'.
Proof.
  intros Hpage Hlen Hc Hok HJ.
  destruct (decide (position c + Z.of_nat (length (bytes_of sizeofT values))
                    ≤ size c)) as [Hfit|Hnofit].
  - destruct Hok as (Hpos & Hsize & Hbuf).
    eexists. split; [apply (append_fits sizeofT values s c); try done; lia|].
    eexists c, _, [], []. rewrite !app_nil_r.
    split_and!; try done.
    + unfold range_ok. cbn. rewrite length_splice by lia. lia.
    + cbn. lia.
    + unfold written. cbn.
      replace (Z.to_nat (position c + Z.of_nat (length (bytes_of sizeofT values))))
        with (Z.to_nat (position c) + length (bytes_of sizeofT values))%nat by lia.
      apply take_splice_end. lia.
  - pose proof (length_bytes_of sizeofT values) as Hlen'.
    assert (Z.of_nat sizeofT * Z.of_nat (length values)
            = Z.of_nat (length (bytes_of sizeofT values))) as Hmul
      by (rewrite Hlen', Nat2Z.inj_mul; done).
    destruct Hok as (Hpos & Hsize & Hbuf).
    unfold append. rewrite (bind_Returns _ _ _ _ _ (deref_Some s c Hc)).
    rewrite Hmul. unwrap.
    rewrite (proj2 (Z.ltb_lt _ _)) by lia.
    apply (appendStringPiece_effect _ s c); done.
Qed.

End Output.

(** ** The sizes asked of the arena *)

Section Requests.
Context {A : Type} {arena : StreamArena A} {memory : MappedMemory}
        {growth : VectorGrowth}.
Context (J : A → list Z → Prop) (contract : ArenaContract J).

Lemma recording_contract :
  ArenaContract (arena := recording arena) (recorded J).
Proof.
  intros bytes [a log] reqs Hb [Hlog [reqs0 HJ]]. cbn in Hlog. subst reqs.
  destruct (contract bytes a reqs0 Hb HJ) as (HJ' & Hpos & Hsize & Hok).
  assert (@newRange (A * list Z) (recording arena) bytes (a, log)
          = (fst (newRange bytes a), (snd (newRange bytes a), log ++ [bytes])))
    as -> by (change (@newRange (A * list Z) (recording arena) bytes (a, log))
                with (let '(r, a') := newRange bytes a in (r, (a', log ++ [bytes])));
              by destruct (newRange bytes a)).
  cbn [fst snd].
  split_and!; try done. split; [done|]. by exists (reqs0 ++ [bytes]).
Qed.

(** C9.  On a stream whose current range satisfies its invariant, with an
    arena that honours its contract and records the sizes it is asked
    for, [appendStringPiece] returns normally for every string of fewer
    than 2^31 - kPageSize bytes.  The first turn of its loop copies as
    many bytes as fit into the current range; every size then asked of the
    arena is positive (no extension of size zero), one range is added for
    each, and each added range receives at least one byte, so every
    further turn makes progress; and when the loop returns, the bytes
    written to the current range and to the added ranges are, in order,
    exactly the bytes of the string. *)
Theorem appendStringPiece_progress
    (value : list byte) (s : ByteStream (A * list Z)) (c : ByteRange)
    (reqs0 : list Z) :
  0 < kPageSize →
  Z.of_nat (length value) + kPageSize ≤ 2 ^ 31 →
  ranges_ s !! current_ s = Some c →
  range_ok c →
  J (fst (arena_ s)) reqs0 →
  ∃ s' c' added asked,
    appendStringPiece (arena := recording arena) value s = (Returns tt, s')
    ∧ snd (arena_ s') = snd (arena_ s) ++ asked
    ∧ Forall (λ b, 0 < b) asked
    ∧ length asked = length added
    ∧ ranges_ s' = <[current_ s := c']> (ranges_ s) ++ added
    ∧ position c'
      = position c + Z.min (Z.of_nat (length value)) (size c - position c)
    ∧ Forall (λ r, 0 < position r ≤ size r) added
    ∧ written c' ++ concat (map written added) = written c ++ value.
Proof.
  intros Hpage Hlen Hc Hok HJ.
  destruct (appendStringPiece_effect (arena := recording arena)
              (recorded J) recording_contract value s c (snd (arena_ s))
              Hpage Hlen Hc Hok) as (s' & Hrun & Heff).
  { split; [done|]. by exists reqs0. }
  destruct Heff as (c0 & c' & added & asked & Hc0 & Hrs & _ & [Hlog _] & Hasked
                    & Hpos_asked & _ & _ & Hpos & Hw & Hadded & Hprog & _).
  rewrite Hc in Hc0. injection Hc0 as <-.
  exists s', c', added, asked. split_and!; try done.
  - eapply Forall_impl; [|exact Hpos_asked]. by intros b [? _].
  - apply Forall_forall. intros r Hr.
    rewrite Forall_forall in Hadded, Hprog.
    specialize (Hadded r Hr). specialize (Hprog r Hr).
    destruct Hadded as (? & _). lia.
Qed.

End Requests.

(** ** Output streams between appends *)

Section OutputStreams.
Context {A : Type} {arena : StreamArena A} {memory : MappedMemory}
        {growth : VectorGrowth}.
Context (J : A → list Z → Prop) (contract : ArenaContract J).
Implicit Types (s : ByteStream A) (c r : ByteRange).

Lemma out_ok_last s :
  out_ok s →
  ∃ init c, ranges_ s = init ++ [c] ∧ current_ s = length init
            ∧ ranges_ s !! current_ s = Some c ∧ range_ok c.
Proof.
  intros (Hne & Hcur & Hall & _).
  destruct (ranges_ s) as [|r rs] eqn:Hrs using rev_ind; [cbn in Hne; lia|].
  clear IHrs. exists rs, r. rewrite length_app in Hcur. cbn in Hcur.
  split; [done|]. split; [lia|]. split.
  - rewrite Hcur. replace (length rs + 1 - 1)%nat with (length rs + 0)%nat by lia.
    by rewrite lookup_app_r, Nat.add_0_r, Nat.sub_diag by lia.
  - rewrite Forall_app, Forall_singleton in Hall. by destruct Hall.
Qed.

Lemma full_but_last_app (rs1 rs2 : list ByteRange) :
  Forall (λ r, position r = size r) rs1 →
  full_but_last rs2 →
  full_but_last (rs1 ++ rs2).
Proof.
  intros H1 H2 i r Hi Hr. rewrite length_app in Hi.
  destruct (decide (i < length rs1)%nat) as [Hlt|Hge].
  - rewrite lookup_app_l in Hr by done.
    rewrite Forall_lookup in H1. by apply (H1 i).
  - rewrite lookup_app_r in Hr by lia. apply (H2 (i - length rs1)%nat); [lia|done].
Qed.

Lemma full_but_last_init (rs : list ByteRange) (r : ByteRange) :
  full_but_last (rs ++ [r]) → Forall (λ r, position r = size r) rs.
Proof.
  intros H. apply Forall_lookup. intros i r' Hr'.
  apply (H i r').
  - apply lookup_lt_Some in Hr'. rewrite length_app. cbn. lia.
  - by apply lookup_app_l_Some.
Qed.

Lemma append_effect_out_ok (value : list byte) (reqs : list Z) s s' :
  out_ok s →
  append_effect J value reqs s s' →
  out_ok s'
  ∧ output_bytes s' = output_bytes s ++ value
  ∧ isBits_ s' = isBits_ s
  ∧ ∃ asked, J (arena_ s') (reqs ++ asked).
Proof.
  intros Hok (c0 & c' & added & asked & Hc0 & Hrs & Hbits & HJ & _ & _ & Hok'
              & _ & _ & Hw & Hadded & _ & Hfull & Hnil & Hcons).
  destruct (out_ok_last s Hok) as (init & c & Hinit & Hcur & Hc & _).
  rewrite Hc in Hc0. injection Hc0 as <-.
  destruct Hok as (_ & _ & Hall & Hfull_s).
  rewrite Hinit in Hall, Hfull_s.
  rewrite Forall_app in Hall. destruct Hall as [Hall_init _].
  assert (ranges_ s' = init ++ c' :: added) as Hrs'.
  { rewrite Hrs, Hinit, Hcur, insert_app_last, <- app_assoc. done. }
  split_and!.
  - unfold out_ok. rewrite Hrs', length_app. cbn [length]. split_and!.
    + lia.
    + destruct added as [|r added].
      * rewrite Hnil by done. cbn. lia.
      * destruct Hcons as [-> _]; [done|]. rewrite Hrs', length_app. done.
    + rewrite Forall_app. split; [done|]. by constructor.
    + apply full_but_last_app; [by eapply full_but_last_init|].
      intros [|i] r Hi Hr; cbn in *.
      * injection Hr as <-. destruct added; [cbn in Hi; lia|]. by destruct Hcons.
      * apply (Hfull i r); [lia|done].
  - unfold output_bytes. rewrite Hrs', Hinit, !map_app, !concat_app. cbn.
    rewrite app_nil_r, Hw, <- !app_assoc. done.
  - done.
  - by exists asked.
Qed.

Lemma fold_positions (rs : list ByteRange) (total : Z) :
  Forall range_ok rs →
  0 ≤ total →
  total + Z.of_nat (length (concat (map written rs))) < 2 ^ 64 →
  fold_left (λ total range, size_t (total + position range)) rs total
  = total + Z.of_nat (length (concat (map written rs))).
Proof.
  revert total. induction rs as [|r rs IH]; intros total Hall Htotal Hsum; cbn.
  { lia. }
  apply Forall_cons_1 in Hall as [Hr Hall].
  cbn in Hsum. rewrite length_app in Hsum.
  pose proof (written_length r Hr) as Hlen. destruct Hr as (? & ? & ?).
  rewrite size_t_id by lia. rewrite IH by (try done; lia).
  rewrite length_app. lia.
Qed.

Lemma stream_size_output s :
  Forall range_ok (ranges_ s) →
  Z.of_nat (length (output_bytes s)) < 2 ^ 64 →
  stream_size s = Z.of_nat (length (output_bytes s)).
Proof.
  intros Hall Hlt. unfold stream_size, output_bytes in *.
  rewrite fold_positions by (try done; lia). lia.
Qed.

Lemma startWrite_out_ok (initialSize : Z) (a : A) (isBits isReverse : bool) reqs :
  0 < initialSize < 2 ^ 31 →
  J a reqs →
  ∃ s, startWrite initialSize (output_stream a isBits isReverse) = (Returns tt, s)
       ∧ out_ok s ∧ output_bytes s = [] ∧ isBits_ s = isBits
       ∧ J (arena_ s) (reqs ++ [initialSize]).
Proof.
  intros Hsize HJ.
  destruct (extend_spec J contract initialSize (output_stream a isBits isReverse) reqs)
    as (s & r & Hext & Hrs & Hcur & Hbits & HJ' & Hpos & Hsz & Hok); [done|done|].
  exists s. split; [done|]. cbn in Hrs, Hcur, Hbits. split_and!; try done.
  - unfold out_ok. rewrite Hrs, Hcur. cbn. split_and!; try done; try lia.
    + by constructor.
    + intros i r' Hi. cbn in Hi. lia.
  - unfold output_bytes, written. rewrite Hrs. cbn. by rewrite Hpos.
Qed.

Lemma run_op_effect (op : append_op) s reqs :
  0 < kPageSize →
  Z.of_nat (length (op_bytes op)) + kPageSize ≤ 2 ^ 31 →
  out_ok s →
  J (arena_ s) reqs →
  ∃ s', run_op op s = (Returns tt, s')
        ∧ append_effect J (op_bytes op) reqs s s'.
Proof.
  intros Hpage Hlen Hok HJ.
  destruct (out_ok_last s Hok) as (init & c & _ & _ & Hc & Hokc).
  destruct op as [sizeofT values|sizeofT value|value]; cbn [run_op op_bytes] in *.
  - by apply (append_effect_typed J contract sizeofT values s c).
  - by apply (append_effect_typed J contract sizeofT [value] s c).
  - by apply (appendStringPiece_effect J contract value s c).
Qed.

Lemma run_ops_spec (ops : list append_op) s reqs :
  0 < kPageSize →
  Forall (λ op, Z.of_nat (length (op_bytes op)) + kPageSize ≤ 2 ^ 31) ops →
  out_ok s →
  J (arena_ s) reqs →
  ∃ s' asked,
    run_ops ops s = (Returns tt, s')
    ∧ out_ok s'
    ∧ output_bytes s' = output_bytes s ++ concat (map op_bytes ops)
    ∧ isBits_ s' = isBits_ s
    ∧ J (arena_ s') (reqs ++ asked).
Proof.
  intros Hpage. revert s reqs.
  induction ops as [|op ops IH]; intros s reqs Hops Hok HJ.
  - exists s, []. cbn. rewrite !app_nil_r. done.
  - apply Forall_cons_1 in Hops as [Hop Hops].
    destruct (run_op_effect op s reqs Hpage Hop Hok HJ) as (s1 & Hrun1 & Heff).
    destruct (append_effect_out_ok _ _ _ _ Hok Heff)
      as (Hok1 & Hout1 & Hbits1 & asked1 & HJ1).
    destruct (IH s1 _ Hops Hok1 HJ1) as (s' & asked & Hrun & Hok' & Hout & Hbits & HJ').
    exists s', (asked1 ++ asked). cbn [run_ops].
    rewrite (bind_Returns _ _ _ _ _ Hrun1). split; [done|].
    split; [done|]. split; [|split].
    + rewrite Hout, Hout1. cbn. by rewrite <- !app_assoc.
    + by rewrite Hbits, Hbits1.
    + by rewrite app_assoc.
Qed.

(** [size()] of a byte-addressed output stream is the number of bytes
    appended. *)
Lemma size_of_byte_stream
    (a : A) (reqs : list Z) (initialSize : Z) (ops : list append_op) :
  0 < kPageSize →
  0 < initialSize < 2 ^ 31 →
  J a reqs →
  Forall (λ op, Z.of_nat (length (op_bytes op)) + kPageSize ≤ 2 ^ 31) ops →
  Z.of_nat (length (concat (map op_bytes ops))) < 2 ^ 64 →
  ∃ s',
    (let* _ := startWrite initialSize in run_ops ops)
      (output_stream a false false) = (Returns tt, s')
    ∧ stream_size s' = Z.of_nat (length (concat (map op_bytes ops))).
Proof.
  intros Hpage Hsize HJ Hops Htotal.
  destruct (startWrite_out_ok initialSize a false false reqs Hsize HJ)
    as (s0 & Hstart & Hok0 & Hout0 & _ & HJ0).
  destruct (run_ops_spec ops s0 _ Hpage Hops Hok0 HJ0)
    as (s' & asked & Hrun & Hok' & Hout & _ & _).
  exists s'. rewrite (bind_Returns _ _ _ _ _ Hstart). split; [done|].
  rewrite Hout0 in Hout. cbn in Hout.
  destruct Hok' as (_ & _ & Hall & _).
  rewrite stream_size_output by (try done; rewrite Hout; done).
  by rewrite Hout.
Qed.

End OutputStreams.

(** ** The input path: [readByte] and [read] *)

Section Input.
Context {A : Type}.
Implicit Types (s : ByteStream A) (c r : ByteRange).

Lemma length_readable r :
  readable_ok r → length (readable r) = Z.to_nat (size r).
Proof. intros [? ?]. unfold readable. rewrite length_take. lia. Qed.

Lemma range_ok_readable_ok r : range_ok r → readable_ok r.
Proof. unfold range_ok, readable_ok. lia. Qed.

Lemma input_bytes_current s c :
  ranges_ s !! current_ s = Some c →
  input_bytes s
  = drop (Z.to_nat (position c)) (readable c)
    ++ concat (map readable (drop (S (current_ s)) (ranges_ s))).
Proof. intros Hc. unfold input_bytes. by rewrite Hc. Qed.

(** Moving the cursor of the current range keeps the stream readable and
    leaves the bytes from the new position on. *)
Lemma in_ok_move s c (p : Z) :
  ranges_ s !! current_ s = Some c →
  range_ok c →
  Forall readable_ok (drop (S (current_ s)) (ranges_ s)) →
  0 ≤ p ≤ size c →
  let s' := set_ranges (<[current_ s := with_position p c]> (ranges_ s)) s in
  in_ok s'
  ∧ input_bytes s'
    = drop (Z.to_nat p) (readable c)
      ++ concat (map readable (drop (S (current_ s)) (ranges_ s)))
  ∧ ranges_ s' !! current_ s' = Some (with_position p c).
Proof.
  intros Hc Hok Hlater Hp s'. pose proof (lookup_lt_Some _ _ _ Hc) as Hlt.
  assert (ranges_ s' !! current_ s' = Some (with_position p c)) as Hc'.
  { subst s'. cbn. by apply list_lookup_insert_eq. }
  assert (drop (S (current_ s')) (ranges_ s') = drop (S (current_ s)) (ranges_ s))
    as Hdrop.
  { subst s'. cbn. apply drop_insert_lt. lia. }
  split_and!; [|by rewrite (input_bytes_current s' _ Hc'), Hdrop|done].
  exists (with_position p c). split; [done|]. split; [|by rewrite Hdrop].
  destruct Hok as (? & ? & ?). unfold range_ok. cbn. lia.
Qed.

(** Stepping to the following range leaves the bytes to read as they are
    once the current range is read up to its size. *)
Lemma in_ok_next s c r :
  ranges_ s !! current_ s = Some c →
  range_ok c →
  Forall readable_ok (drop (S (current_ s)) (ranges_ s)) →
  position c = size c →
  ranges_ s !! S (current_ s) = Some r →
  let s' := set_ranges (<[S (current_ s) := with_position 0 r]> (ranges_ s))
              (set_current (S (current_ s)) s) in
  in_ok s' ∧ input_bytes s' = input_bytes s
  ∧ ranges_ s' !! current_ s' = Some (with_position 0 r)
  ∧ readable_ok r.
Proof.
  intros Hc Hok Hlater Hfull Hr s'.
  pose proof (lookup_lt_Some _ _ _ Hr) as Hlt.
  assert (drop (S (current_ s)) (ranges_ s)
          = r :: drop (S (S (current_ s))) (ranges_ s)) as Hsplit
    by (by apply drop_S).
  rewrite Hsplit in Hlater. apply Forall_cons_1 in Hlater as [Hr_ok Hlater].
  assert (ranges_ s' !! current_ s' = Some (with_position 0 r)) as Hc'.
  { subst s'. cbn. by apply list_lookup_insert_eq. }
  assert (drop (S (current_ s')) (ranges_ s')
          = drop (S (S (current_ s))) (ranges_ s)) as Hdrop.
  { subst s'. cbn. apply drop_insert_lt. lia. }
  split_and!; [| |done|done].
  - exists (with_position 0 r). split; [done|]. split; [|by rewrite Hdrop].
    destruct Hr_ok. unfold range_ok. cbn. lia.
  - rewrite (input_bytes_current s' _ Hc'), (input_bytes_current s c Hc), Hdrop.
    rewrite Hsplit. cbn [map concat].
    rewrite (drop_ge (readable c)).
    + done.
    + rewrite length_readable by (by apply range_ok_readable_ok). lia.
Qed.

Lemma readByte_from_Returns (depth : nat) s (b : byte) (rest : list byte) :
  in_ok s →
  input_bytes s = b :: rest →
  (length (ranges_ s) - current_ s ≤ depth)%nat →
  ∃ s', readByte_from depth s = (Returns b, s')
        ∧ in_ok s' ∧ input_bytes s' = rest
        ∧ length (ranges_ s') = length (ranges_ s).
Proof.
  revert s. induction depth as [|depth IH]; intros s (c & Hc & Hok & Hlater) Hin Hdepth.
  { apply lookup_lt_Some in Hc. lia. }
  pose proof (lookup_lt_Some _ _ _ Hc) as Hlt.
  cbn [readByte_from]. rewrite (bind_Returns _ _ _ _ _ (deref_Some s c Hc)).
  pose proof Hok as (Hpos & Hsize & Hbuf).
  destruct (Z.ltb_spec (position c) (size c)) as [Hleft|Hfull].
  - (* a byte is left in the current range *)
    rewrite (input_bytes_current s c Hc) in Hin.
    assert (buffer c !! Z.to_nat (position c) = Some b
            ∧ drop (S (Z.to_nat (position c))) (readable c)
              ++ concat (map readable (drop (S (current_ s)) (ranges_ s))) = rest)
      as [Hb Hrest].
    { destruct (lookup_lt_is_Some_2 (readable c) (Z.to_nat (position c)))
        as [b' Hb'].
      { rewrite length_readable by (by apply range_ok_readable_ok). lia. }
      rewrite (drop_S _ _ _ Hb') in Hin. cbn in Hin. injection Hin as -> Hrest.
      split; [|done]. unfold readable in Hb'.
      rewrite lookup_take_lt in Hb' by lia. done. }
    unfold peek. rewrite (proj2 (Z.leb_le _ _)) by lia. rewrite Hb.
    unfold defined. unfold bind at 1. unfold ret at 1.
    unfold bind. rewrite (assign_Some s c _ Hc). unfold ret.
    unwrap.
    destruct (in_ok_move s c (position c + 1) Hc Hok Hlater) as (Hok' & Hin' & _);
      [lia|].
    eexists. split; [done|]. split; [done|]. split.
    + rewrite Hin'. rewrite <- Hrest.
      by replace (Z.to_nat (position c + 1)) with (S (Z.to_nat (position c))) by lia.
    + cbn. by rewrite length_insert.
  - (* the current range is read up to its size *)
    assert (position c = size c) as Hfull' by lia.
    rewrite (input_bytes_current s c Hc) in Hin.
    rewrite (drop_ge (readable c)) in Hin
      by (rewrite length_readable by (by apply range_ok_readable_ok); lia).
    cbn [app] in Hin.
    destruct (ranges_ s !! S (current_ s)) as [r|] eqn:Hr.
    + destruct (in_ok_next s c r Hc Hok Hlater Hfull' Hr) as (Hok' & Hin' & _ & _).
      unfold bind. rewrite (next_advance true s c r Hc Hr).
      destruct (IH _ Hok') as (s' & Hrun & Hok'' & Hin'' & Hlen).
      * rewrite Hin', (input_bytes_current s c Hc).
        rewrite (drop_ge (readable c))
          by (rewrite length_readable by (by apply range_ok_readable_ok); lia).
        done.
      * cbn. rewrite length_insert. lia.
      * exists s'. split; [done|]. split; [done|]. split; [done|].
        rewrite Hlen. cbn. by rewrite length_insert.
    + apply lookup_ge_None in Hr. rewrite drop_ge in Hin by lia. done.
Qed.

Lemma readByte_Returns s (b : byte) (rest : list byte) :
  in_ok s →
  input_bytes s = b :: rest →
  ∃ s', readByte s = (Returns b, s')
        ∧ in_ok s' ∧ input_bytes s' = rest
        ∧ length (ranges_ s') = length (ranges_ s).
Proof.
  intros Hok Hin. unfold readByte, bind, get.
  apply readByte_from_Returns; [done|done|lia].
Qed.

End Input.

(** ** Reading values: the contiguous and the straddling path of [read] *)

Lemma shiftl_byte_bounds (b : byte) (i : Z) :
  0 ≤ i ≤ 7 → 0 ≤ Z.shiftl (byte.unsigned b) (i * 8) < 2 ^ 64.
Proof.
  intros Hi. pose proof (byte.unsigned_range b) as Hb.
  rewrite Z.shiftl_mul_pow2 by lia.
  assert (i = 0 ∨ i = 1 ∨ i = 2 ∨ i = 3 ∨ i = 4 ∨ i = 5 ∨ i = 6 ∨ i = 7)
    as Hcases by lia.
  destruct Hcases as [->|[->|[->|[->|[->|[->|[->| ->]]]]]]]; cbn; lia.
Qed.

Section Values.
Context {A : Type}.
Implicit Types (s : ByteStream A) (c r : ByteRange).

(** The straddling path assembles the little-endian value of the bytes it
    reads, whatever ranges they come from. *)
Lemma read_straddling_Returns (bs : list byte) :
  ∀ (i value : Z) s (rest : list byte),
    in_ok s →
    input_bytes s = bs ++ rest →
    0 ≤ i → i + Z.of_nat (length bs) ≤ 8 →
    ∃ s', read_straddling (length bs) i value s
          = (Returns (Z.lor value (Z.shiftl (le_combine bs) (i * 8))), s')
          ∧ in_ok s' ∧ input_bytes s' = rest
          ∧ length (ranges_ s') = length (ranges_ s).
Proof.
  induction bs as [|b bs IH]; intros i value s rest Hok Hin Hi Hlen.
  - exists s. cbn. unfold ret. rewrite Z.shiftl_0_l, Z.lor_0_r. done.
  - cbn [length] in Hlen. cbn [length read_straddling].
    destruct (readByte_Returns s b (bs ++ rest) Hok Hin)
      as (s1 & Hrun1 & Hok1 & Hin1 & Hlen1).
    rewrite (bind_Returns _ _ _ _ _ Hrun1).
    pose proof (shiftl_byte_bounds b i) as Hb.
    rewrite (int32_t_id (i + 1)) by lia.
    rewrite (int32_t_id (i * 8)) by lia.
    rewrite size_t_id by lia.
    destruct (IH (i + 1) (Z.lor value (Z.shiftl (byte.unsigned b) (i * 8)))
                s1 rest Hok1 Hin1) as (s' & Hrun & Hok' & Hin' & Hlen');
      [lia|lia|].
    exists s'. rewrite Hrun. split; [|by rewrite Hlen', Hlen1].
    f_equal. f_equal.
    change (le_combine (b :: bs))
      with (Z.lor (byte.unsigned b) (Z.shiftl (le_combine bs) 8)).
    rewrite Z.shiftl_lor, Z.shiftl_shiftl by lia.
    rewrite Z.lor_assoc. f_equal. f_equal. lia.
Qed.

Lemma take_drop_readable r (w : nat) :
  range_ok r →
  position r + Z.of_nat w ≤ size r →
  take w (drop (Z.to_nat (position r)) (readable r))
  = take w (drop (Z.to_nat (position r)) (buffer r)).
Proof.
  intros (? & ? & ?) Hfit. unfold readable.
  rewrite !take_drop_commute, take_take. f_equal. f_equal. lia.
Qed.

(** Both paths of [read<T>] return the little-endian value of the next
    [sizeof(T)] bytes of the stream and consume exactly these. *)
Lemma read_Returns (sizeofT : nat) s (bs rest : list byte) :
  in_ok s →
  input_bytes s = bs ++ rest →
  length bs = sizeofT →
  (sizeofT ≤ 8)%nat →
  ∃ s', read sizeofT s = (Returns (le_combine bs), s')
        ∧ in_ok s' ∧ input_bytes s' = rest
        ∧ length (ranges_ s') = length (ranges_ s).
Proof.
  intros Hok Hin Hlen Hw. pose proof Hok as (c & Hc & Hokc & Hlater).
  pose proof Hokc as (Hpos & Hsize & Hbuf).
  unfold read. rewrite (bind_Returns _ _ _ _ _ (deref_Some s c Hc)).
  unwrap.
  destruct (Z.leb_spec (position c + Z.of_nat sizeofT) (size c)) as [Hfit|Hstraddle].
  - (* the value lies in the current range *)
    destruct (in_ok_move s c (position c + Z.of_nat sizeofT) Hc Hokc Hlater)
      as (Hok' & Hin' & Hc'); [lia|].
    unwrap. rewrite (bind_Returns _ _ _ _ _ (assign_Some s c _ Hc)).
    rewrite (bind_Returns _ _ _ _ _ (deref_Some _ _ Hc')).
    cbn [buffer position with_position].
    replace (position c + Z.of_nat sizeofT - Z.of_nat sizeofT)
      with (position c) by lia.
    unfold load_value. rewrite load_Some by lia. cbn [fmap option_fmap option_map].
    rewrite (input_bytes_current s c Hc) in Hin.
    assert (sizeofT ≤ length (drop (Z.to_nat (position c)) (readable c)))%nat
      as Hhave.
    { rewrite length_drop, length_readable by (by apply range_ok_readable_ok). lia. }
    assert (bs = take sizeofT (drop (Z.to_nat (position c)) (readable c))) as Hbs.
    { apply (f_equal (take sizeofT)) in Hin.
      rewrite take_app_le in Hin by done.
      rewrite take_app_length' in Hin by lia. done. }
    assert (rest = drop (Z.to_nat (position c + Z.of_nat sizeofT)) (readable c)
                   ++ concat (map readable (drop (S (current_ s)) (ranges_ s))))
      as Hrest.
    { apply (f_equal (drop sizeofT)) in Hin.
      rewrite drop_app_le in Hin by done.
      rewrite drop_app_length' in Hin by lia.
      rewrite drop_drop in Hin. rewrite <- Hin. f_equal. f_equal. lia. }
    eexists. unfold defined, ret. rewrite Nat2Z.id.
    rewrite <- take_drop_readable, <- Hbs by (try done; lia).
    split; [done|]. split; [done|]. split; [by rewrite Hin', Hrest|].
    cbn. by rewrite length_insert.
  - (* the value straddles ranges *)
    destruct (read_straddling_Returns bs 0 0 s rest Hok Hin)
      as (s' & Hrun & Hok' & Hin' & Hlen'); [lia|lia|].
    rewrite Hlen in Hrun. unfold bind. rewrite Hrun. unfold ret.
    exists s'. split; [|done].
    rewrite Z.lor_0_l, Z.mul_0_l, Z.shiftl_0_r.
    pose proof (le_combine_bound bs) as Hbound. rewrite Hlen in Hbound.
    rewrite Z.mod_small by lia. done.
Qed.

End Values.

(** ** Round trip: values appended are the values read *)

Lemma le_split_byte (b : byte) : le_split 1 (byte.unsigned b) = [b].
Proof.
  rewrite <- (le_combine_1 b). apply (split_le_combine [b]).
Qed.

Lemma op_bytes_values (op : append_op) :
  op_bytes op = concat (map (λ v, le_split (fst v) (snd v)) (op_values op)).
Proof.
  destruct op as [sizeofT values|sizeofT value|value]; cbn.
  - unfold bytes_of. by rewrite map_map.
  - done.
  - induction value as [|b value IH]; [done|].
    cbn. by rewrite le_split_byte, <- IH.
Qed.

Lemma ops_bytes_values (ops : list append_op) :
  concat (map op_bytes ops)
  = concat (map (λ v, le_split (fst v) (snd v)) (concat (map op_values ops))).
Proof.
  induction ops as [|op ops IH]; [done|].
  cbn. by rewrite map_app, concat_app, IH, op_bytes_values.
Qed.

Section RoundTrip.
Context {A : Type} {arena : StreamArena A} {memory : MappedMemory}
        {growth : VectorGrowth}.
Context (J : A → list Z → Prop) (contract : ArenaContract J).
Implicit Types (s : ByteStream A) (c r : ByteRange).

Lemma read_all_Returns (values : list (nat * Z)) :
  ∀ s (rest : list byte),
    in_ok s →
    input_bytes s
    = concat (map (λ v, le_split (fst v) (snd v)) values) ++ rest →
    Forall fits_type values →
    ∃ s', read_all (map fst values) s = (Returns (map snd values), s')
          ∧ in_ok s' ∧ input_bytes s' = rest.
Proof.
  induction values as [|[sizeofT v] values IH]; intros s rest Hok Hin Hfits.
  - exists s. done.
  - apply Forall_cons_1 in Hfits as [[Hw Hv] Hfits]. cbn [fst snd] in *.
    cbn [map concat fst snd] in Hin. rewrite <- app_assoc in Hin.
    destruct (read_Returns sizeofT s _ _ Hok Hin) as (s1 & Hrun1 & Hok1 & Hin1 & _);
      [apply length_le_split|done|].
    destruct (IH s1 rest Hok1 Hin1 Hfits) as (s' & Hrun & Hok' & Hin').
    exists s'. cbn [map read_all fst snd].
    rewrite (bind_Returns _ _ _ _ _ Hrun1), (bind_Returns _ _ _ _ _ Hrun).
    unfold ret. rewrite le_combine_split, Z.mod_small by done. done.
Qed.

Lemma seek_start s r :
  ranges_ s !! 0%nat = Some r →
  seek 0 0 s
  = (Returns tt,
     set_ranges (<[0%nat := with_position 0 r]> (ranges_ s)) (set_current 0 s)).
Proof.
  intros Hr. destruct s as [a isBits isReverse isReversed rs cur].
  cbn in Hr. destruct rs as [|r0 rs]; [done|]. injection Hr as ->.
  unfold seek, bind, get, put, deref, assign, ret. cbn.
  change (Z.to_nat 0) with 0%nat. cbn.
  by destruct (decide _) as [?|?]; [|lia].
Qed.

(** A stream rewound to the start of its first range reads the readable
    bytes of all its ranges. *)
Lemma input_bytes_start s r (rs : list ByteRange) :
  ranges_ s = r :: rs →
  current_ s = 0%nat →
  position r = 0 →
  Forall readable_ok (r :: rs) →
  in_ok s ∧ input_bytes s = concat (map readable (r :: rs)).
Proof.
  intros Hrs Hcur Hpos Hall. apply Forall_cons_1 in Hall as [[? ?] Hall].
  assert (ranges_ s !! current_ s = Some r) as Hc by (by rewrite Hrs, Hcur).
  split.
  - exists r. split; [done|]. split; [unfold range_ok; lia|].
    by rewrite Hrs, Hcur.
  - rewrite (input_bytes_current s r Hc), Hrs, Hcur, Hpos. done.
Qed.

Lemma readable_written r :
  range_ok r →
  readable r = written r ++ drop (Z.to_nat (position r)) (readable r).
Proof.
  intros (? & ? & ?). unfold readable, written.
  rewrite <- (take_drop (Z.to_nat (position r))
                (take (Z.to_nat (size r)) (buffer r))) at 1.
  rewrite take_take. f_equal. f_equal. lia.
Qed.

Lemma readable_full r :
  range_ok r → position r = size r → readable r = written r.
Proof. intros _ Hfull. unfold readable, written. by rewrite Hfull. Qed.

(** The readable bytes of an output stream are the bytes written, followed
    by the part of the last range that has not been written. *)
Lemma out_ok_readable s :
  out_ok s →
  ∃ tail, concat (map readable (ranges_ s)) = output_bytes s ++ tail.
Proof.
  intros Hok. destruct (out_ok_last s Hok) as (init & c & Hinit & _ & _ & Hokc).
  destruct Hok as (_ & _ & Hall & Hfull). rewrite Hinit in Hall, Hfull.
  apply Forall_app in Hall as [Hall _].
  apply full_but_last_init in Hfull.
  exists (drop (Z.to_nat (position c)) (readable c)).
  unfold output_bytes. rewrite Hinit, !map_app, !concat_app. cbn.
  rewrite !app_nil_r, <- app_assoc, <- (readable_written c Hokc).
  f_equal. f_equal. apply Forall_fmap_ext_1.
  rewrite Forall_lookup in Hall, Hfull. apply Forall_lookup. intros i r Hr.
  apply readable_full; [by apply (Hall i)|by apply (Hfull i)].
Qed.

Lemma as_input_bytes (rs : list ByteRange) :
  Forall range_ok rs →
  Forall readable_ok (map as_input rs)
  ∧ concat (map readable (map as_input rs)) = concat (map written rs).
Proof.
  induction rs as [|r rs IH]; intros Hall; [done|].
  apply Forall_cons_1 in Hall as [(? & ? & ?) Hall].
  destruct (IH Hall) as [IH1 IH2]. split.
  - constructor; [|done]. unfold readable_ok. cbn. lia.
  - cbn. by rewrite IH2.
Qed.

(** C1.  A byte-addressed output stream is opened with [startWrite] on an
    arena that honours its contract, and values of primitive types of at
    most eight bytes are appended by any sequence of [append] and
    [appendOne] calls (and [appendStringPiece] calls, whose bytes count as
    one-byte values); the ranges may be as small as the arena likes, so
    that values straddle them.  Every call returns normally.  Reading with
    [read<T>], once for each value in order and with the size of its type,
    then returns exactly the values appended: on the stream itself after
    [seek(0, 0)], and on an input stream that is given the written part of
    every range, which the reads consume entirely.  The value a read
    assembles byte by byte across ranges is the value the contiguous path
    reads ([read_Returns]). *)
Theorem append_read_roundtrip
    (a : A) (reqs : list Z) (initialSize : Z) (ops : list append_op) :
  0 < kPageSize →
  0 < initialSize < 2 ^ 31 →
  J a reqs →
  Forall (λ op, Z.of_nat (length (op_bytes op)) + kPageSize ≤ 2 ^ 31) ops →
  Forall fits_type (concat (map op_values ops)) →
  ∃ s,
    (let* _ := startWrite initialSize in run_ops ops)
      (output_stream a false false) = (Returns tt, s)
    ∧ (∃ s',
         (let* _ := seek 0 0 in
          read_all (map fst (concat (map op_values ops)))) s
         = (Returns (map snd (concat (map op_values ops))), s'))
    ∧ (∃ s',
         (let* _ := resetInput (map as_input (ranges_ s)) in
          read_all (map fst (concat (map op_values ops)))) (input_stream a)
         = (Returns (map snd (concat (map op_values ops))), s')
         ∧ input_bytes s' = []).
Proof.
  intros Hpage Hsize HJ Hops Hfits.
  destruct (startWrite_out_ok J contract initialSize a false false reqs Hsize HJ)
    as (s0 & Hstart & Hok0 & Hout0 & _ & HJ0).
  destruct (run_ops_spec J contract ops s0 _ Hpage Hops Hok0 HJ0)
    as (s & asked & Hrun & Hok & Hout & _ & _).
  rewrite Hout0, ops_bytes_values in Hout. cbn [app] in Hout.
  exists s. rewrite (bind_Returns _ _ _ _ _ Hstart). split; [done|].
  destruct (out_ok_readable s Hok) as [tail Htail].
  pose proof Hok as (Hne & _ & Hall & _).
  destruct (ranges_ s) as [|r rs] eqn:Hrs; [cbn in Hne; lia|].
  pose proof Hall as Hall'. apply Forall_cons_1 in Hall' as [Hr Hrs_ok].
  split.
  - (* the stream itself, rewound *)
    set (s1 := set_ranges (<[0%nat := with_position 0 r]> (ranges_ s))
                 (set_current 0 s)).
    assert (seek 0 0 s = (Returns tt, s1)) as Hseek.
    { apply seek_start. by rewrite Hrs. }
    destruct (input_bytes_start s1 (with_position 0 r) rs) as [Hin_ok Hin].
    { subst s1. cbn. by rewrite Hrs. }
    { done. }
    { done. }
    { constructor.
      - apply range_ok_readable_ok in Hr. exact Hr.
      - eapply Forall_impl; [|exact Hrs_ok]. apply range_ok_readable_ok. }
    change (readable (with_position 0 r)) with (readable r) in Hin.
    change (concat (map readable (with_position 0 r :: rs)))
      with (concat (map readable (r :: rs))) in Hin.
    rewrite Htail, Hout in Hin.
    destruct (read_all_Returns _ s1 tail Hin_ok Hin Hfits) as (s' & Hread & _).
    exists s'. by rewrite (bind_Returns _ _ _ _ _ Hseek).
  - (* an input stream over the written parts *)
    set (s2 := set_current 0
                 (set_ranges (map as_input (r :: rs))
                    (set_storage 1 (length (map as_input (r :: rs)))
                       (input_stream a)))).
    destruct (as_input_bytes (r :: rs) Hall) as [Hin_all Hbytes].
    destruct (input_bytes_start s2 (as_input r) (map as_input rs)) as [Hin_ok Hin];
      [done|done|done|done|].
    change (as_input r :: map as_input rs) with (map as_input (r :: rs)) in Hin.
    rewrite Hbytes in Hin. unfold output_bytes in Hout. rewrite Hrs in Hout.
    rewrite Hout in Hin. rewrite <- (app_nil_r (concat _)) in Hin.
    destruct (read_all_Returns _ s2 [] Hin_ok Hin Hfits) as (s' & Hread & _ & Hrest).
    exists s'. split; [|done].
    by rewrite (bind_Returns _ _ _ _ _ (eq_refl : resetInput _ (input_stream a) = (Returns tt, s2))).
Qed.

End RoundTrip.

(** ** Reading past the end: [readBytes] *)

Section ReadBytes.
Context {A : Type}.
Implicit Types (s : ByteStream A) (c r : ByteRange).

Lemma on_stream_run {T} (m : M (ByteStream A) T) s (bytes : list byte) o s' :
  m s = (o, s') → on_stream m (s, bytes) = (o, (s', bytes)).
Proof. intros H. unfold on_stream. by rewrite H. Qed.

Lemma on_bytes_Some (f : list byte → option (list byte)) s bytes bytes' :
  f bytes = Some bytes' →
  on_bytes f (s, bytes) = (Returns tt, (s, bytes')).
Proof. intros H. unfold on_bytes. by rewrite H. Qed.

Lemma atEnd_last_full s c :
  ranges_ s !! current_ s = Some c →
  position c = size c →
  current_ s = (length (ranges_ s) - 1)%nat →
  atEnd s = (Returns true, s).
Proof.
  intros Hc Hfull Hlast. pose proof (lookup_lt_Some _ _ _ Hc).
  unfold atEnd. rewrite (bind_Returns _ _ _ _ _ (deref_Some s c Hc)).
  rewrite (proj2 (Z.ltb_ge _ _)) by lia.
  unfold bind, get, VELOX_CHECK. rewrite bool_decide_eq_true_2 by done. cbn.
  by rewrite bool_decide_eq_true_2.
Qed.

Lemma map_insert_same {T U} (f : T → U) (l : list T) (i : nat) (x y : T) :
  l !! i = Some y → f x = f y → map f (<[i := x]> l) = map f l.
Proof.
  revert i. induction l as [|z l IH]; intros [|i] Hy Hf; cbn in *; try done.
  - injection Hy as ->. by rewrite Hf.
  - by rewrite IH.
Qed.

Lemma unread_is_block r :
  range_ok r →
  drop (Z.to_nat (position r)) (readable r)
  = take (Z.to_nat (size r - position r))
      (drop (Z.to_nat (position r)) (buffer r)).
Proof.
  intros (? & ? & ?). unfold readable. rewrite take_drop_commute.
  f_equal. f_equal. lia.
Qed.

(** When fewer bytes are left than are asked for, every turn of the loop
    copies the rest of its range and moves on, and the turn on the last
    range ends in the failure of [next()]. *)
Lemma readBytes_loop_past_end (fuel : nat) :
  ∀ s (dest : list byte) (offset size' : Z),
    in_ok s →
    (length (ranges_ s) - current_ s ≤ fuel)%nat →
    0 ≤ offset →
    Z.of_nat (length (input_bytes s)) < size' →
    offset + size' ≤ Z.of_nat (length dest) →
    offset + size' < 2 ^ 31 →
    ∃ s',
      readBytes_loop fuel offset size' (s, dest)
      = (Raises EndOfStream,
         (s', take (Z.to_nat offset) dest ++ input_bytes s
              ++ drop (Z.to_nat offset + length (input_bytes s)) dest))
      ∧ (∃ c', ranges_ s' !! current_ s' = Some c' ∧ position c' = size c')
      ∧ current_ s' = (length (ranges_ s') - 1)%nat
      ∧ input_bytes s' = []
      ∧ map buffer (ranges_ s') = map buffer (ranges_ s)
      ∧ map size (ranges_ s') = map size (ranges_ s).
Proof.
  induction fuel as [|fuel IH];
    intros s dest offset size' (c & Hc & Hokc & Hlater) Hfuel Hoff Hshort Hdest Hint.
  { apply lookup_lt_Some in Hc. lia. }
  pose proof (lookup_lt_Some _ _ _ Hc) as Hlt.
  pose proof Hokc as (Hpos & Hsize & Hbuf).
  pose proof (input_bytes_current s c Hc) as Hin.
  set (later := concat (map readable (drop (S (current_ s)) (ranges_ s)))) in *.
  set (unread := drop (Z.to_nat (position c)) (readable c)) in *.
  assert (Z.of_nat (length unread) = size c - position c) as Hunread.
  { subst unread. rewrite length_drop, length_readable
      by (by apply range_ok_readable_ok). lia. }
  rewrite Hin, length_app in Hshort.
  destruct (memcpy_Some dest offset (buffer c) (position c) (size c - position c))
    as [Hcpy _]; try lia.
  rewrite <- (unread_is_block c Hokc) in Hcpy. fold unread in Hcpy.
  set (dest1 := take (Z.to_nat offset) dest ++ unread
                ++ drop (Z.to_nat offset + length unread) dest) in *.
  destruct (in_ok_move s c (size c) Hc Hokc Hlater) as (Hok1 & Hin1 & Hc1); [lia|].
  set (s1 := set_ranges (<[current_ s := with_position (size c) c]> (ranges_ s)) s)
    in *.
  rewrite (drop_ge (readable c)) in Hin1
    by (rewrite length_readable by (by apply range_ok_readable_ok); lia).
  cbn [app] in Hin1. fold later in Hin1.
  cbn [readBytes_loop].
  rewrite (bind_Returns _ _ _ _ _ (on_stream_run _ _ _ _ _ (deref_Some s c Hc))).
  unwrap. rewrite Z.min_l by lia.
  rewrite (bind_Returns _ _ _ _ _ (on_bytes_Some _ _ _ _ Hcpy)).
  unwrap.
  replace (position c + (size c - position c)) with (size c) by lia.
  rewrite (bind_Returns _ _ _ _ _
             (on_stream_run _ _ _ _ _ (assign_Some s c _ Hc))).
  fold s1. rewrite (proj2 (Z.eqb_neq _ _)) by lia.
  destruct (ranges_ s !! S (current_ s)) as [r|] eqn:Hr.
  - (* a range follows *)
    assert (ranges_ s1 !! S (current_ s1) = Some r) as Hr1.
    { subst s1. cbn. rewrite list_lookup_insert_ne by lia. done. }
    pose proof Hok1 as (c1 & Hc1' & Hokc1 & Hlater1).
    rewrite Hc1 in Hc1'. injection Hc1' as <-.
    destruct (in_ok_next s1 _ r Hc1 Hokc1 Hlater1 eq_refl Hr1)
      as (Hok2 & Hin2 & _ & _).
    rewrite (bind_Returns _ _ _ _ _
               (on_stream_run _ _ _ _ _ (next_advance true s1 _ r Hc1 Hr1))).
    set (s2 := set_ranges _ (set_current _ s1)) in *.
    assert (length dest1 = length dest) as Hlen1.
    { subst dest1. apply length_splice. lia. }
    destruct (IH s2 dest1 (offset + (size c - position c))
                (size' - (size c - position c)) Hok2)
      as (s' & Hrun & Hend & Hlast & Hempty & Hbufs & Hsizes).
    + subst s2 s1. cbn. rewrite !length_insert. lia.
    + lia.
    + rewrite Hin2, Hin1. lia.
    + lia.
    + lia.
    + exists s'. rewrite Hrun. split_and!; try done.
      * f_equal. f_equal. rewrite Hin2, Hin1, Hin.
        replace (Z.to_nat (offset + (size c - position c)))
          with (Z.to_nat offset + length unread)%nat by lia.
        subst dest1. apply splice_splice. lia.
      * rewrite Hbufs. subst s2 s1. cbn.
        rewrite (map_insert_same buffer _ _ _ r) by done.
        by rewrite (map_insert_same buffer _ _ _ c).
      * rewrite Hsizes. subst s2 s1. cbn.
        rewrite (map_insert_same size _ _ _ r) by done.
        by rewrite (map_insert_same size _ _ _ c).
  - (* the last range: [next()] throws *)
    apply lookup_ge_None in Hr.
    assert (current_ s1 = (length (ranges_ s1) - 1)%nat) as Hlast1.
    { subst s1. cbn. rewrite length_insert. lia. }
    rewrite (bind_Raises _ _ _ _ _
               (on_stream_run _ _ _ _ _ (next_last true s1 _ Hc1 Hlast1))).
    assert (later = []) as Hnone.
    { subst later. by rewrite drop_ge by lia. }
    exists s1. split_and!; try done.
    + rewrite Hin, Hnone, !app_nil_r. done.
    + eexists. split; [exact Hc1|done].
    + by rewrite Hin1.
    + subst s1. cbn. by rewrite (map_insert_same buffer _ _ _ c).
    + subst s1. cbn. by rewrite (map_insert_same size _ _ _ c).
Qed.

(** C10.  [readBytes(bytes, size)] is called on a readable stream that has
    fewer than [size] bytes left, with a block of at least [size] bytes.  It
    raises the end-of-stream failure, and by then it has copied every byte
    that was left to the start of the block (the rest of the block is as
    it was) and has moved the stream to its end: the current range is the
    last one, read up to its size, [atEnd()] is true and no byte is left
    to read.  The buffers and sizes of the ranges are unchanged. *)
Theorem readBytes_past_end s (dest : list byte) (size' : Z) :
  in_ok s →
  Z.of_nat (length (input_bytes s)) < size' →
  size' < 2 ^ 31 →
  size' ≤ Z.of_nat (length dest) →
  ∃ s',
    readBytes size' (s, dest)
    = (Raises EndOfStream,
       (s', input_bytes s ++ drop (length (input_bytes s)) dest))
    ∧ atEnd s' = (Returns true, s')
    ∧ input_bytes s' = []
    ∧ map buffer (ranges_ s') = map buffer (ranges_ s)
    ∧ map size (ranges_ s') = map size (ranges_ s).
Proof.
  intros Hok Hshort Hint Hdest.
  destruct (readBytes_loop_past_end (S (length (ranges_ s))) s dest 0 size' Hok)
    as (s' & Hrun & (c' & Hc' & Hfull) & Hlast & Hempty & Hbufs & Hsizes);
    try lia.
  exists s'. unfold readBytes.
  rewrite (bind_Returns _ _ _ _ _ (on_stream_run get s dest _ _ eq_refl)).
  rewrite Hrun. split_and!; try done.
  by apply (atEnd_last_full s' c').
Qed.

End ReadBytes.

(** ** Bit-addressed streams: [appendBool] *)

Lemma setBit_Some (buf : list byte) (idx : Z) (value : bool) :
  0 ≤ idx < Z.of_nat (length buf) * 8 →
  ∃ buf', setBit buf idx value = Some buf' ∧ length buf' = length buf.
Proof.
  intros Hidx. unfold setBit, peek.
  assert (0 ≤ idx / 8 < Z.of_nat (length buf)) as Hbyte.
  { split; [apply Z.div_pos; lia|apply Z.div_lt_upper_bound; lia]. }
  rewrite (proj2 (Z.leb_le _ _)) by lia.
  destruct (lookup_lt_is_Some_2 buf (Z.to_nat (idx / 8))) as [b Hb]; [lia|].
  rewrite Hb. eexists. split; [done|]. by rewrite length_insert.
Qed.

Lemma fillBits_from_Some (n : nat) :
  ∀ (buf : list byte) (begin_ : Z) (value : bool),
    0 ≤ begin_ →
    begin_ + Z.of_nat n ≤ Z.of_nat (length buf) * 8 →
    ∃ buf', fillBits_from n buf begin_ value = Some buf'
            ∧ length buf' = length buf.
Proof.
  induction n as [|n IH]; intros buf begin_ value Hb Hfit.
  - by exists buf.
  - cbn [fillBits_from].
    destruct (setBit_Some buf begin_ value) as (buf1 & -> & Hlen1); [lia|].
    destruct (IH buf1 (begin_ + 1) value) as (buf' & Hfill & Hlen'); [lia|lia|].
    exists buf'. split; [done|]. by rewrite Hlen', Hlen1.
Qed.

Lemma fillBits_Some (buf : list byte) (begin_ end_ : Z) (value : bool) :
  0 ≤ begin_ ≤ end_ →
  end_ ≤ Z.of_nat (length buf) * 8 →
  ∃ buf', fillBits buf begin_ end_ value = Some buf'
          ∧ length buf' = length buf.
Proof.
  intros Hb He. unfold fillBits. apply fillBits_from_Some; lia.
Qed.

Lemma nbytes_bounds (bits : Z) :
  0 < bits → bits + 7 < 2 ^ 31 →
  0 < nbytes bits < 2 ^ 31 ∧ nbytes bits * 8 < 2 ^ 31.
Proof.
  intros Hb Hlt. unfold nbytes.
  rewrite (int32_t_id (bits + 7)) by lia.
  rewrite Z.quot_div_nonneg by lia.
  assert (1 ≤ (bits + 7) / 8) by (apply Z.div_le_lower_bound; lia).
  assert ((bits + 7) / 8 < 2 ^ 31) by (apply Z.div_lt_upper_bound; lia).
  pose proof (Z.mul_div_le (bits + 7) 8).
  rewrite int32_t_id by lia. lia.
Qed.

Lemma available_bool_ok (r : ByteRange) :
  bit_range_ok r →
  available_bool r = size r * 8 - position r ∧ 0 ≤ available_bool r.
Proof.
  intros (? & ? & ?). unfold available_bool. unwrap. lia.
Qed.

Lemma bits_in_app (rs1 rs2 : list ByteRange) :
  bits_in (rs1 ++ rs2) = bits_in rs1 + bits_in rs2.
Proof.
  unfold bits_in. induction rs1 as [|r rs1 IH]; cbn; [done|]. rewrite IH. lia.
Qed.

Lemma bits_in_insert (rs : list ByteRange) (i : nat) (r r' : ByteRange) :
  rs !! i = Some r →
  bits_in (<[i := r']> rs) = bits_in rs - position r + position r'.
Proof.
  unfold bits_in. revert i.
  induction rs as [|r0 rs IH]; intros [|i] Hr; cbn in Hr; try done.
  - injection Hr as ->. cbn. lia.
  - change (<[S i := r']> (r0 :: rs)) with (r0 :: <[i := r']> rs).
    cbn [foldr]. rewrite (IH i Hr). lia.
Qed.

Section Bits.
Context {A : Type} {arena : StreamArena A} {memory : MappedMemory}
        {growth : VectorGrowth}.
Context (J : A → list Z → Prop) (contract : ArenaContract J).
Context (small : ∀ bytes a,
           0 < bytes → bytes * 8 < 2 ^ 31 →
           size (fst (newRange bytes a)) * 8 < 2 ^ 31).
Implicit Types (s : ByteStream A) (c r : ByteRange).

Lemma appendBool_loop_spec (fuel : nat) (value : bool) (count : Z) :
  0 ≤ count → count + 7 < 2 ^ 31 →
  ∀ (offset : Z) s c reqs,
    ranges_ s !! current_ s = Some c →
    Forall bit_range_ok (ranges_ s) →
    J (arena_ s) reqs →
    0 ≤ offset ≤ count →
    (count - offset < Z.of_nat fuel
     ∨ (position c < size c * 8 ∧ 0 < count - offset ≤ Z.of_nat fuel)) →
    ∃ s' c' added asked,
      appendBool_loop fuel value count offset s = (Returns tt, s')
      ∧ ranges_ s' = <[current_ s := c']> (ranges_ s) ++ added
      ∧ isBits_ s' = isBits_ s
      ∧ J (arena_ s') (reqs ++ asked)
      ∧ Forall bit_range_ok (ranges_ s')
      ∧ size c' = size c
      ∧ position c'
        = position c + Z.min (count - offset) (size c * 8 - position c)
      ∧ position c' + bits_in added = position c + (count - offset)
      ∧ is_Some (ranges_ s' !! current_ s').
Proof.
  intros Hcount Hint.
  induction fuel as [|fuel IH]; intros offset s c reqs Hc Hall HJ Hoff Hfuel.
  { lia. }
  pose proof (lookup_lt_Some _ _ _ Hc) as Hlt.
  assert (bit_range_ok c) as (Hpos & Hsize & Hbuf).
  { rewrite Forall_lookup in Hall. by apply (Hall (current_ s)). }
  set (k := Z.min (count - offset) (size c * 8 - position c)).
  assert (0 ≤ k) as Hk by lia.
  destruct (fillBits_Some (buffer c) (position c) (position c + k) value)
    as (buf1 & Hfill & Hlen1); [lia|lia|].
  set (c1 := with_position (position c + k) (with_buffer buf1 c)).
  assert (bit_range_ok c1) as Hok1.
  { unfold bit_range_ok. subst c1. cbn. lia. }
  set (s1 := set_ranges (<[current_ s := c1]> (ranges_ s)) s).
  assert (Forall bit_range_ok (ranges_ s1)) as Hall1.
  { subst s1. cbn. apply Forall_insert; done. }
  cbn [appendBool_loop].
  rewrite (bind_Returns _ _ _ _ _ (deref_Some s c Hc)).
  unwrap. fold k. rewrite Hfill. unfold defined.
  unfold bind at 1. unfold ret at 1.
  unfold bind at 1. rewrite (assign_Some s c _ Hc).
  fold c1. fold s1.
  destruct (Z.eqb_spec (offset + k) count) as [Hdone|Hmore].
  - exists s1, c1, [], []. rewrite !app_nil_r.
    split_and!; try done.
    + subst c1. cbn. lia.
    + subst s1. cbn. rewrite list_lookup_insert_eq by done. by eexists.
  - assert (k = size c * 8 - position c) as Hkfree by lia.
    assert (0 < count - (offset + k)) as Hrem by lia.
    pose proof (nbytes_bounds (count - (offset + k))) as Hreq.
    destruct (extend_spec J contract (nbytes (count - (offset + k))) s1 reqs)
      as (s2 & r & Hext & Hrs2 & Hcur2 & Hbits2 & HJ2 & Hr0 & Hrsize & Hrok);
      [lia|done|].
    unfold bind at 1. rewrite Hext.
    assert (ranges_ s2 !! current_ s2 = Some r) as Hc2.
    { rewrite Hrs2, Hcur2. rewrite lookup_app_r by lia. by rewrite Nat.sub_diag. }
    assert (bit_range_ok r) as Hbit_r.
    { destruct Hrok as (? & ? & ?). unfold bit_range_ok.
      assert (size r * 8 < 2 ^ 31) as Hsmall.
      { assert (r = fst (newRange (nbytes (count - (offset + k))) (arena_ s1)))
          as ->; [|apply small; lia].
        unfold extend in Hext.
        destruct (newRange (nbytes (count - (offset + k))) (arena_ s1))
          as [r' a'] eqn:Hnew.
        injection Hext as <-. cbn in Hrs2.
        apply app_inj_tail in Hrs2 as [_ ->]. done. }
      lia. }
    assert (Forall bit_range_ok (ranges_ s2)) as Hall2.
    { rewrite Hrs2. apply Forall_app. split; [done|]. by constructor. }
    destruct (IH (offset + k) s2 r _ Hc2 Hall2 HJ2) as
      (s' & r' & added & asked & Hrun & Hrs' & Hbits' & HJ' & Hall' & Hsize'
       & Hpos' & Hsum & Hcur'); [lia|lia|].
    exists s', c1, (r' :: added), (nbytes (count - (offset + k)) :: asked).
    split_and!; try done.
    + rewrite Hrs', Hcur2, Hrs2. subst s1. cbn [ranges_ set_ranges].
      rewrite insert_app_last. by rewrite <- app_assoc.
    + by rewrite Hbits', Hbits2.
    + by rewrite <- app_assoc in HJ'.
    + unfold bits_in in *. subst c1. cbn. lia.
Qed.

(** C2, amended.  In a bit-addressed stream [position] counts bits and
    [size] counts the bytes of the block, which holds at least [size]
    bytes: the invariant of a range is [0 <= position <= 8 * size] (with
    [8 * size] an [int32_t]).  [appendBool(value, count)] with
    [0 <= count], on a stream all of whose ranges satisfy it and with an
    arena that honours its contract and whose ranges have fewer than 2^28
    bytes, returns normally and leaves a stream all of whose ranges
    satisfy it, so that [available<bool>()] is the number of bits left and
    never negative; the ranges then hold [count] more bits. *)
Theorem appendBool_keeps_bit_invariant (value : bool) (count : Z) s reqs :
  isBits_ s = true →
  is_Some (ranges_ s !! current_ s) →
  Forall bit_range_ok (ranges_ s) →
  J (arena_ s) reqs →
  0 ≤ count → count + 7 < 2 ^ 31 →
  ∃ s',
    appendBool value count s = (Returns tt, s')
    ∧ Forall bit_range_ok (ranges_ s')
    ∧ Forall (λ r, available_bool r = size r * 8 - position r
                   ∧ 0 ≤ available_bool r) (ranges_ s')
    ∧ isBits_ s' = true
    ∧ is_Some (ranges_ s' !! current_ s')
    ∧ bits_in (ranges_ s') = bits_in (ranges_ s) + count.
Proof.
  intros Hbits [c Hc] Hall HJ Hcount Hint.
  pose proof (lookup_lt_Some _ _ _ Hc) as Hlt.
  assert (bit_range_ok c) as (Hpos & Hsize & Hbuf).
  { rewrite Forall_lookup in Hall. by apply (Hall (current_ s)). }
  assert (∀ rs, Forall bit_range_ok rs →
                Forall (λ r, available_bool r = size r * 8 - position r
                             ∧ 0 ≤ available_bool r) rs) as Havail.
  { intros rs H. eapply Forall_impl; [|exact H]. apply available_bool_ok. }
  unfold appendBool.
  destruct (Z.eqb_spec count 1) as [->|Hmany].
  - rewrite (bind_Returns _ _ _ _ _
               (bind_Returns _ _ _ _ _ (deref_Some s c Hc))).
    unwrap.
    destruct (Z.eqb_spec (size c * 8 - position c) 0) as [Hfull|Hfree];
      cbn [negb]; unwrap.
    + (* no bit is free: the loop extends the stream *)
      unfold bind at 1, get at 1. rewrite Hbits. cbn [VELOX_DCHECK VELOX_CHECK].
      unfold bind at 1, ret at 1.
      destruct (appendBool_loop_spec (S (Z.to_nat 1)) value 1 Hcount Hint
                  0 s c reqs Hc Hall HJ) as
        (s' & c' & added & asked & Hrun & Hrs & Hbits' & _ & Hall' & _ & _
         & Hsum & Hcur'); [lia|lia|].
      exists s'. split_and!; try done; [by apply Havail|congruence|].
      rewrite Hrs, bits_in_app, (bits_in_insert _ _ c) by done. lia.
    + (* the single bit fits *)
      destruct (setBit_Some (buffer c) (position c) value) as (buf1 & Hset & Hlen1);
        [lia|].
      rewrite (bind_Returns _ _ _ _ _ (deref_Some s c Hc)).
      rewrite Hset. unfold defined. unfold bind at 1, ret at 1.
      rewrite (assign_Some s c _ Hc). unwrap.
      assert (Forall bit_range_ok
                (<[current_ s := with_position (position c + 1) (with_buffer buf1 c)]>
                   (ranges_ s))) as Hall'.
      { apply Forall_insert; [done|]. unfold bit_range_ok. cbn. lia. }
      eexists. split; [done|]. cbn [ranges_ set_ranges isBits_ current_].
      split_and!; try done.
      * by apply Havail.
      * rewrite list_lookup_insert_eq by done. by eexists.
      * rewrite (bits_in_insert _ _ c) by done. cbn. lia.
  - unfold bind at 1, ret at 1.
    unfold bind at 1, get at 1. rewrite Hbits. cbn [VELOX_DCHECK VELOX_CHECK].
    unfold bind at 1, ret at 1.
    destruct (appendBool_loop_spec (S (Z.to_nat count)) value count Hcount Hint
                0 s c reqs Hc Hall HJ) as
      (s' & c' & added & asked & Hrun & Hrs & Hbits' & _ & Hall' & _ & _
       & Hsum & Hcur'); [lia|lia|].
    exists s'. split_and!; try done; [by apply Havail|congruence|].
    rewrite Hrs, bits_in_app, (bits_in_insert _ _ c) by done. lia.
Qed.

(** What one [appendBool] does to a bit-addressed stream and to its
    arena. *)
Lemma appendBool_step (value : bool) (count : Z) s reqs :
  isBits_ s = true →
  is_Some (ranges_ s !! current_ s) →
  Forall bit_range_ok (ranges_ s) →
  J (arena_ s) reqs →
  0 ≤ count → count + 7 < 2 ^ 31 →
  ∃ s' asked,
    appendBool value count s = (Returns tt, s')
    ∧ Forall bit_range_ok (ranges_ s')
    ∧ isBits_ s' = true
    ∧ is_Some (ranges_ s' !! current_ s')
    ∧ bits_in (ranges_ s') = bits_in (ranges_ s) + count
    ∧ J (arena_ s') (reqs ++ asked).
Proof.
  intros Hbits [c Hc] Hall HJ Hcount Hint.
  pose proof (lookup_lt_Some _ _ _ Hc) as Hlt.
  assert (bit_range_ok c) as (Hpos & Hsize & Hbuf).
  { rewrite Forall_lookup in Hall. by apply (Hall (current_ s)). }
  unfold appendBool.
  destruct (Z.eqb_spec count 1) as [->|Hmany].
  - rewrite (bind_Returns _ _ _ _ _
               (bind_Returns _ _ _ _ _ (deref_Some s c Hc))).
    unwrap.
    destruct (Z.eqb_spec (size c * 8 - position c) 0) as [Hfull|Hfree];
      cbn [negb]; unwrap.
    + unfold bind at 1, get at 1. rewrite Hbits. cbn [VELOX_DCHECK VELOX_CHECK].
      unfold bind at 1, ret at 1.
      destruct (appendBool_loop_spec (S (Z.to_nat 1)) value 1 Hcount Hint
                  0 s c reqs Hc Hall HJ) as
        (s' & c' & added & asked & Hrun & Hrs & Hbits' & HJ' & Hall' & _ & _
         & Hsum & Hcur'); [lia|lia|].
      exists s', asked. split_and!; try done; [congruence|].
      rewrite Hrs, bits_in_app, (bits_in_insert _ _ c) by done. lia.
    + destruct (setBit_Some (buffer c) (position c) value) as (buf1 & Hset & Hlen1);
        [lia|].
      rewrite (bind_Returns _ _ _ _ _ (deref_Some s c Hc)).
      rewrite Hset. unfold defined. unfold bind at 1, ret at 1.
      rewrite (assign_Some s c _ Hc). unwrap.
      assert (Forall bit_range_ok
                (<[current_ s := with_position (position c + 1) (with_buffer buf1 c)]>
                   (ranges_ s))) as Hall'.
      { apply Forall_insert; [done|]. unfold bit_range_ok. cbn. lia. }
      eexists _, []. split; [done|].
      cbn [ranges_ set_ranges isBits_ current_ arena_].
      split_and!; try done.
      * rewrite list_lookup_insert_eq by done. by eexists.
      * rewrite (bits_in_insert _ _ c) by done. cbn. lia.
      * by rewrite app_nil_r.
  - unfold bind at 1, ret at 1.
    unfold bind at 1, get at 1. rewrite Hbits. cbn [VELOX_DCHECK VELOX_CHECK].
    unfold bind at 1, ret at 1.
    destruct (appendBool_loop_spec (S (Z.to_nat count)) value count Hcount Hint
                0 s c reqs Hc Hall HJ) as
      (s' & c' & added & asked & Hrun & Hrs & Hbits' & HJ' & Hall' & _ & _
       & Hsum & Hcur'); [lia|lia|].
    exists s', asked. split_and!; try done; [congruence|].
    rewrite Hrs, bits_in_app, (bits_in_insert _ _ c) by done. lia.
Qed.

(** The check of [appendBool] is on the path of the loop only: it fires
    on a stream that is not bit-addressed when [count] is not 1 or the
    current range has no free bit. *)
Lemma appendBool_check_fires (value : bool) (count : Z) s c :
  isBits_ s = false →
  ranges_ s !! current_ s = Some c →
  count ≠ 1 ∨ int32_t (int32_t (size c * 8) - position c) = 0 →
  appendBool value count s = (Raises CheckFailure, s).
Proof.
  intros Hbits Hc Hpath. unfold appendBool.
  destruct (Z.eqb_spec count 1) as [->|Hmany].
  - destruct Hpath as [?|Hfull]; [done|].
    rewrite (bind_Returns _ _ _ _ _
               (bind_Returns _ _ _ _ _ (deref_Some s c Hc))).
    rewrite Hfull. cbn [Z.eqb negb].
    unfold bind, get. by rewrite Hbits.
  - unfold bind, get, ret. by rewrite Hbits.
Qed.

(** With [count = 1] and a free bit in the current range, the bit is set
    and the call returns before the check, bit-addressed stream or not. *)
Lemma appendBool_single_unchecked (value : bool) s c :
  ranges_ s !! current_ s = Some c →
  bit_range_ok c →
  position c < size c * 8 →
  ∃ buffer',
    appendBool value 1 s
    = (Returns tt,
       set_ranges (<[current_ s := with_position (position c + 1)
                                     (with_buffer buffer' c)]> (ranges_ s)) s).
Proof.
  intros Hc (Hpos & Hsize & Hbuf) Hfree. unfold appendBool. cbn [Z.eqb Pos.eqb].
  rewrite (bind_Returns _ _ _ _ _
             (bind_Returns _ _ _ _ _ (deref_Some s c Hc))).
  unwrap.
  rewrite (proj2 (Z.eqb_neq _ _)) by lia. cbn [negb].
  destruct (setBit_Some (buffer c) (position c) value) as (buf1 & Hset & Hlen1);
    [lia|].
  rewrite (bind_Returns _ _ _ _ _ (deref_Some s c Hc)).
  rewrite Hset. unfold defined. unfold bind at 1, ret at 1.
  rewrite (assign_Some s c _ Hc). unwrap. by exists buf1.
Qed.

Lemma bits_in_nonneg (rs : list ByteRange) :
  Forall bit_range_ok rs → 0 ≤ bits_in rs.
Proof.
  induction rs as [|r rs IH]; intros Hall; [done|].
  apply Forall_cons_1 in Hall as [(Hpos & _ & _) Hall].
  specialize (IH Hall). change (bits_in (r :: rs)) with (position r + bits_in rs).
  lia.
Qed.

(** [size()] adds up the positions, which count bits here. *)
Lemma stream_size_bits s :
  Forall bit_range_ok (ranges_ s) →
  bits_in (ranges_ s) < 2 ^ 64 →
  stream_size s = bits_in (ranges_ s).
Proof.
  unfold stream_size.
  assert (∀ rs total,
            Forall bit_range_ok rs → 0 ≤ total →
            total + bits_in rs < 2 ^ 64 →
            fold_left (λ total range, size_t (total + position range)) rs total
            = total + bits_in rs) as Hfold.
  { induction rs as [|r rs IH]; intros total Hall Htotal Hsum.
    { cbn. lia. }
    pose proof (bits_in_nonneg _ Hall) as Hnonneg.
    apply Forall_cons_1 in Hall as [(Hpos & _ & _) Hall].
    pose proof (bits_in_nonneg _ Hall) as Hrest.
    change (bits_in (r :: rs)) with (position r + bits_in rs) in *.
    cbn [fold_left]. rewrite size_t_id by lia. rewrite IH by (try done; lia). lia. }
  intros Hall Hsum. pose proof (bits_in_nonneg _ Hall).
  rewrite Hfold by (try done; lia). lia.
Qed.

Lemma append_bools_spec (bools : list (bool * Z)) :
  Forall (λ op, 0 ≤ snd op ∧ snd op + 7 < 2 ^ 31) bools →
  ∀ s reqs,
    isBits_ s = true →
    is_Some (ranges_ s !! current_ s) →
    Forall bit_range_ok (ranges_ s) →
    J (arena_ s) reqs →
    ∃ s' asked,
      append_bools bools s = (Returns tt, s')
      ∧ Forall bit_range_ok (ranges_ s')
      ∧ bits_in (ranges_ s') = bits_in (ranges_ s) + bits_appended bools
      ∧ J (arena_ s') (reqs ++ asked).
Proof.
  induction bools as [|[value count] bools IH];
    intros Hcounts s reqs Hbits Hcur Hall HJ.
  - exists s, []. rewrite app_nil_r. split_and!; try done.
    change (bits_appended []) with 0. lia.
  - apply Forall_cons_1 in Hcounts as [[Hcount Hint] Hcounts]. cbn [snd] in *.
    destruct (appendBool_step value count s reqs Hbits Hcur Hall HJ Hcount Hint)
      as (s1 & asked1 & Hrun1 & Hall1 & Hbits1 & Hcur1 & Hsum1 & HJ1).
    destruct (IH Hcounts s1 _ Hbits1 Hcur1 Hall1 HJ1)
      as (s' & asked & Hrun & Hall' & Hsum & HJ').
    exists s', (asked1 ++ asked). cbn [append_bools].
    rewrite (bind_Returns _ _ _ _ _ Hrun1). split; [done|]. split; [done|].
    split.
    + change (bits_appended ((value, count) :: bools))
        with (count + bits_appended bools). lia.
    + by rewrite app_assoc.
Qed.

End Bits.

(** ** The size of an output stream *)

Section StreamSize.
Context {A : Type} {arena : StreamArena A} {memory : MappedMemory}
        {growth : VectorGrowth}.
Context (J : A → list Z → Prop) (contract : ArenaContract J).
Implicit Types (s : ByteStream A) (c r : ByteRange).

(** C7, amended.  [size()] counts what [position] counts.  A byte-addressed
    output stream is opened with [startWrite] on an arena that honours its
    contract, and any sequence of [append], [appendOne] and
    [appendStringPiece] calls follows: every call returns normally, and
    [size()] of the stream they leave is the total number of bytes
    appended, however many ranges the arena had to hand out.  When the
    stream is bit-addressed instead, and any sequence of [appendBool]
    calls with counts that are not negative follows (on an arena whose
    ranges have fewer than 2^28 bytes), every call returns normally and
    [size()] is the total number of bits appended, not of bytes. *)
Theorem size_is_bytes_or_bits_appended
    (a : A) (reqs : list Z) (initialSize : Z) :
  0 < kPageSize →
  0 < initialSize < 2 ^ 31 →
  J a reqs →
  (∀ ops : list append_op,
     Forall (λ op, Z.of_nat (length (op_bytes op)) + kPageSize ≤ 2 ^ 31) ops →
     Z.of_nat (length (concat (map op_bytes ops))) < 2 ^ 64 →
     ∃ s',
       (let* _ := startWrite initialSize in run_ops ops)
         (output_stream a false false) = (Returns tt, s')
       ∧ stream_size s' = Z.of_nat (length (concat (map op_bytes ops))))
  ∧ (∀ (isReverseBitOrder : bool) (bools : list (bool * Z)),
       (∀ bytes a',
          0 < bytes → bytes * 8 < 2 ^ 31 →
          size (fst (newRange bytes a')) * 8 < 2 ^ 31) →
       initialSize * 8 < 2 ^ 31 →
       Forall (λ op, 0 ≤ snd op ∧ snd op + 7 < 2 ^ 31) bools →
       bits_appended bools < 2 ^ 64 →
       ∃ s',
         (let* _ := startWrite initialSize in append_bools bools)
           (output_stream a true isReverseBitOrder) = (Returns tt, s')
         ∧ stream_size s' = bits_appended bools).
Proof.
  intros Hpage Hsize HJ. split.
  - intros ops Hops Htotal.
    by apply (size_of_byte_stream J contract a reqs initialSize ops).
  - intros isReverseBitOrder bools small Hinit Hcounts Htotal.
    destruct (contract initialSize a reqs Hsize HJ) as (HJ0 & Hpos0 & _ & Hok0).
    specialize (small initialSize a ltac:(lia) Hinit) as Hsmall0.
    set (s := output_stream a true isReverseBitOrder).
    assert (∃ s0 r, startWrite initialSize s = (Returns tt, s0)
                    ∧ ranges_ s0 = [r] ∧ current_ s0 = 0%nat
                    ∧ isBits_ s0 = true ∧ J (arena_ s0) (reqs ++ [initialSize])
                    ∧ position r = 0 ∧ bit_range_ok r) as Hstart.
    { unfold startWrite, extend. subst s. cbn [arena_ output_stream mkByteStream].
      destruct (newRange initialSize a) as [r a'] eqn:Hnew. cbn [fst snd] in *.
      eexists _, r. split; [done|]. cbn. split_and!; try done.
      destruct Hok0 as (? & ? & ?). unfold bit_range_ok. lia. }
    destruct Hstart as (s0 & r & Hstart & Hrs0 & Hcur0 & Hbits0 & HJ0' & Hpos & Hokr).
    destruct (append_bools_spec J contract small bools Hcounts s0
                (reqs ++ [initialSize]) Hbits0)
      as (s' & asked & Hrun & Hall' & Hsum & _).
    + rewrite Hrs0, Hcur0. by eexists.
    + rewrite Hrs0. by constructor.
    + done.
    + exists s'. rewrite (bind_Returns _ _ _ _ _ Hstart). split; [done|].
      rewrite Hrs0 in Hsum. change (bits_in [r]) with (position r + 0) in Hsum.
      rewrite stream_size_bits by (try done; lia). lia.
Qed.

End StreamSize.

(** ** The loops of the input path terminate *)

(** [readByte], [readBytes] and [skip] never run out of the turns the
    embedding gives them, whatever the stream: each turn that goes on has
    moved [current_] one range further. *)

Section InputTerminates.
Context {A : Type}.
Implicit Types (s : ByteStream A) (c r : ByteRange).

Lemma next_true_cases s c :
  ranges_ s !! current_ s = Some c →
  next true s = (Raises EndOfStream, s)
  ∨ ∃ s', next true s = (Returns tt, s')
          ∧ length (ranges_ s') = length (ranges_ s)
          ∧ current_ s' = S (current_ s)
          ∧ (S (current_ s) < length (ranges_ s))%nat.
Proof.
  intros Hc. destruct (ranges_ s !! S (current_ s)) as [r|] eqn:Hr.
  - right. pose proof (lookup_lt_Some _ _ _ Hr).
    eexists. split; [by apply (next_advance true s c r)|].
    cbn. by rewrite length_insert.
  - left. apply lookup_ge_None in Hr. pose proof (lookup_lt_Some _ _ _ Hc).
    apply (next_last true s c Hc). lia.
Qed.

Lemma readByte_from_terminates (depth : nat) s :
  (length (ranges_ s) - current_ s < depth)%nat →
  fst (readByte_from depth s) ≠ Raises Diverges.
Proof.
  revert s. induction depth as [|depth IH]; intros s Hdepth; [lia|].
  cbn [readByte_from]. unfold bind at 1.
  destruct (ranges_ s !! current_ s) as [c|] eqn:Hc.
  - rewrite (deref_Some s c Hc).
    destruct (position c <? size c).
    + unfold bind, defined, ret, raise.
      destruct (peek (buffer c) (position c)); [|done].
      by rewrite (assign_Some s c _ Hc).
    + unfold bind.
      destruct (next_true_cases s c Hc) as [->|(s' & -> & Hlen & Hcur & Hlt)];
        [done|].
      apply IH. rewrite Hlen, Hcur. lia.
  - by rewrite (deref_None s Hc).
Qed.

Lemma readByte_terminates s : fst (readByte s) ≠ Raises Diverges.
Proof.
  unfold readByte, bind, get. apply readByte_from_terminates. lia.
Qed.

Lemma readBytes_loop_terminates (fuel : nat) :
  ∀ s (dest : list byte) (offset size' : Z),
    (length (ranges_ s) - current_ s < fuel)%nat →
    fst (readBytes_loop fuel offset size' (s, dest)) ≠ Raises Diverges.
Proof.
  induction fuel as [|fuel IH]; intros s dest offset size' Hfuel; [lia|].
  cbn [readBytes_loop]. unfold bind at 1.
  destruct (ranges_ s !! current_ s) as [c|] eqn:Hc.
  - rewrite (on_stream_run _ _ _ _ _ (deref_Some s c Hc)).
    unfold bind at 1, on_bytes.
    destruct (memcpy dest offset (buffer c) (position c)
                (Z.min (int32_t (size c - position c)) size')) as [dest1|];
      [|done].
    unfold bind at 1.
    rewrite (on_stream_run _ _ _ _ _ (assign_Some s c _ Hc)).
    destruct (_ =? 0); [done|].
    set (s1 := set_ranges _ s).
    assert (ranges_ s1 !! current_ s1 = Some
              (with_position
                 (int32_t (position c
                           + Z.min (int32_t (size c - position c)) size')) c))
      as Hc1.
    { subst s1. cbn. apply list_lookup_insert_eq. by eapply lookup_lt_Some. }
    unfold bind.
    destruct (next_true_cases s1 _ Hc1) as [Hnext|(s' & Hnext & Hlen & Hcur & Hlt)];
      rewrite (on_stream_run _ _ _ _ _ Hnext); [done|].
    apply IH. rewrite Hlen, Hcur. subst s1. cbn in Hlt |- *.
    rewrite length_insert in Hlt |- *. lia.
  - by rewrite (on_stream_run _ _ _ _ _ (deref_None s Hc)).
Qed.

Lemma readBytes_terminates (size' : Z) s (dest : list byte) :
  fst (readBytes size' (s, dest)) ≠ Raises Diverges.
Proof.
  unfold readBytes, bind. rewrite (on_stream_run get s dest _ _ eq_refl).
  apply readBytes_loop_terminates. lia.
Qed.

Lemma skip_loop_terminates (fuel : nat) :
  ∀ s (size' : Z),
    (length (ranges_ s) - current_ s < fuel)%nat →
    fst (skip_loop fuel size' s) ≠ Raises Diverges.
Proof.
  induction fuel as [|fuel IH]; intros s size' Hfuel; [lia|].
  cbn [skip_loop]. unfold bind at 1.
  destruct (ranges_ s !! current_ s) as [c|] eqn:Hc.
  - rewrite (deref_Some s c Hc).
    unfold bind at 1. rewrite (assign_Some s c _ Hc).
    destruct (_ =? 0); [done|].
    set (s1 := set_ranges _ s).
    assert (ranges_ s1 !! current_ s1 = Some
              (with_position
                 (int32_t (position c
                           + Z.min (int32_t (size c - position c)) size')) c))
      as Hc1.
    { subst s1. cbn. apply list_lookup_insert_eq. by eapply lookup_lt_Some. }
    unfold bind.
    destruct (next_true_cases s1 _ Hc1) as [->|(s' & -> & Hlen & Hcur & Hlt)];
      [done|].
    apply IH. rewrite Hlen, Hcur. subst s1. cbn in Hlt |- *.
    rewrite length_insert in Hlt |- *. lia.
  - by rewrite (deref_None s Hc).
Qed.

Lemma skip_terminates (size' : Z) s : fst (skip size' s) ≠ Raises Diverges.
Proof.
  unfold skip, bind, get. apply skip_loop_terminates. lia.
Qed.

End InputTerminates.

(** * The properties on concrete streams *)

Lemma exactArena_contract : ArenaContract (arena := exactArena) any_history.
Proof.
  intros bytes a reqs Hb _. unfold newRange, exactArena, range_ok. cbn.
  rewrite length_replicate. split_and!; try done; lia.
Qed.

Lemma exactArena_small (bytes : Z) (a : nat) :
  0 < bytes → bytes * 8 < 2 ^ 31 →
  size (fst (newRange (StreamArena := exactArena) bytes a)) * 8 < 2 ^ 31.
Proof. intros _ Hb. exact Hb. Qed.

Lemma chunkArena_contract (chunk : nat) :
  (0 < chunk)%nat → Z.of_nat chunk < 2 ^ 31 →
  ArenaContract (arena := chunkArena chunk) any_history.
Proof.
  intros Hpos Hlt bytes a reqs Hb _. unfold newRange, chunkArena, range_ok. cbn.
  rewrite length_replicate. split_and!; try done; lia.
Qed.

(** Closes a comparison of numerals. *)
Ltac by_computation :=
  vm_compute; first [reflexivity | discriminate].

Lemma page4096_positive : 0 < kPageSize (MappedMemory := page4096).
Proof. reflexivity. Qed.

Lemma two_ranges_input_ok : in_ok two_ranges_input.
Proof.
  exists first_range. split; [done|]. split.
  - unfold range_ok. cbn. lia.
  - repeat constructor; cbn; lia.
Qed.

Section OnChunks.
Local Existing Instance page4096.
Local Existing Instance doubling.
Local Existing Instance chunks_of_three.

(** The appends of [mixed_appends] on ranges of three bytes: the first
    value straddles the first two ranges, the eight-byte value lies in
    four. *)
Example mixed_appends_straddle :
  ∃ s, (let* _ := startWrite 2 in run_ops mixed_appends) fresh_output
       = (Returns tt, s)
       ∧ map written (ranges_ s)
         = [[Byte.x44; Byte.x33; Byte.x22];
            [Byte.x11; Byte.xef; Byte.xbe];
            [Byte.x02; Byte.x01; Byte.x08];
            [Byte.x07; Byte.x06; Byte.x05];
            [Byte.x04; Byte.x03; Byte.x02];
            [Byte.x01; Byte.xff]].
Proof. eexists. split; vm_compute; reflexivity. Qed.

Lemma append_read_roundtrip_witness :
  ∃ s,
    (let* _ := startWrite 2 in run_ops mixed_appends) fresh_output
    = (Returns tt, s)
    ∧ (∃ s', (let* _ := seek 0 0 in read_all [4; 2; 2; 8; 1]%nat) s
             = (Returns [0x11223344; 0xBEEF; 0x0102; 0x0102030405060708; 0xFF],
                s'))
    ∧ (∃ s', (let* _ := resetInput (map as_input (ranges_ s)) in
              read_all [4; 2; 2; 8; 1]%nat) (input_stream 0%nat)
             = (Returns [0x11223344; 0xBEEF; 0x0102; 0x0102030405060708; 0xFF],
                s')
             ∧ input_bytes s' = []).
Proof.
  apply (append_read_roundtrip any_history
           (chunkArena_contract 3 ltac:(lia) ltac:(lia)) 0%nat [] 2 mixed_appends).
  - exact page4096_positive.
  - lia.
  - exact I.
  - repeat constructor; vm_compute; discriminate.
  - repeat constructor; cbn; lia.
Defined.

Lemma size_is_bytes_or_bits_appended_witness :
  (∃ s', (let* _ := startWrite 2 in run_ops mixed_appends) fresh_output
         = (Returns tt, s')
         ∧ stream_size s' = 17)
  ∧ (∃ s', (let* _ := startWrite 2 in
            append_bools [(true, 10); (false, 1); (true, 20)]) fresh_bit_output
           = (Returns tt, s')
           ∧ stream_size s' = 31).
Proof.
  destruct (size_is_bytes_or_bits_appended any_history
              (chunkArena_contract 3 ltac:(lia) ltac:(lia)) 0%nat [] 2)
    as [Hbytes Hbits].
  - exact page4096_positive.
  - lia.
  - exact I.
  - split.
    + apply (Hbytes mixed_appends).
      * repeat constructor; vm_compute; discriminate.
      * vm_compute. reflexivity.
    + apply (Hbits false [(true, 10); (false, 1); (true, 20)]).
      * intros bytes a' _ _. vm_compute. reflexivity.
      * lia.
      * repeat constructor; cbn; lia.
      * vm_compute. reflexivity.
Defined.

End OnChunks.

Section OnChunksOfTwo.
Local Existing Instance page4096.
Local Existing Instance doubling.

Lemma appendStringPiece_progress_witness :
  ∃ s' asked,
    appendStringPiece (arena := recording (chunkArena 2))
      [Byte.x61; Byte.x62; Byte.x63; Byte.x64; Byte.x65] two_byte_recorded
    = (Returns tt, s')
    ∧ snd (arena_ s') = asked
    ∧ Forall (λ b, 0 < b) asked
    ∧ length (ranges_ s') = S (length asked).
Proof.
  destruct (appendStringPiece_progress (arena := chunkArena 2) any_history
              (chunkArena_contract 2 ltac:(lia) ltac:(lia))
              [Byte.x61; Byte.x62; Byte.x63; Byte.x64; Byte.x65]
              two_byte_recorded two_byte_range [])
    as (s' & c' & added & asked & Hrun & Hlog & Hpos & Hlen & Hrs & _).
  - exact page4096_positive.
  - vm_compute. discriminate.
  - reflexivity.
  - unfold range_ok. cbn. lia.
  - exact I.
  - exists s', asked. split; [exact Hrun|]. split; [exact Hlog|].
    split; [exact Hpos|]. rewrite Hrs, length_app, length_insert, Hlen.
    cbn. lia.
Defined.

(** The sizes this run asks of the arena: a page for the three bytes that
    do not fit, and a page again for the last byte. *)
Example appendStringPiece_asks_pages :
  ∃ s', appendStringPiece (arena := recording (chunkArena 2))
          [Byte.x61; Byte.x62; Byte.x63; Byte.x64; Byte.x65] two_byte_recorded
        = (Returns tt, s')
        ∧ snd (arena_ s') = [4096; 4096]
        ∧ map written (ranges_ s')
          = [[Byte.x61; Byte.x62]; [Byte.x63; Byte.x64]; [Byte.x65]].
Proof.
  eexists. split; [vm_compute; reflexivity|]. split; vm_compute; reflexivity.
Qed.

End OnChunksOfTwo.

Section OnExactRanges.
Local Existing Instance page4096.
Local Existing Instance doubling.
Local Existing Instance exactArena.

Lemma appendBool_keeps_bit_invariant_witness :
  ∃ s', appendBool true 10 one_byte_bits = (Returns tt, s')
        ∧ Forall bit_range_ok (ranges_ s')
        ∧ bits_in (ranges_ s') = 10.
Proof.
  destruct (appendBool_keeps_bit_invariant any_history exactArena_contract
              exactArena_small true 10 one_byte_bits [])
    as (s' & Hrun & Hall & _ & _ & _ & Hbits).
  - reflexivity.
  - by exists one_byte_range.
  - repeat constructor; cbn; lia.
  - exact I.
  - lia.
  - lia.
  - exists s'. split; [exact Hrun|]. split; [exact Hall|]. exact Hbits.
Defined.

(** C2 as stated fails: the only range of [one_byte_bits] has size 1 and
    position 0, so [0 <= position <= size] holds; after
    [appendBool(true, 8)] its position is 8 and its size is still 1. *)
Lemma bit_position_exceeds_size :
  isBits_ one_byte_bits = true
  ∧ ranges_ one_byte_bits = [one_byte_range]
  ∧ 0 ≤ position one_byte_range ≤ size one_byte_range
  ∧ ∃ s r, appendBool true 8 one_byte_bits = (Returns tt, s)
           ∧ ranges_ s = [r]
           ∧ size r = 1 ∧ position r = 8
           ∧ ¬ (0 ≤ position r ≤ size r).
Proof.
  split; [done|]. split; [done|]. split; [cbn; lia|].
  eexists _, _. split; [vm_compute; reflexivity|].
  split; [reflexivity|]. cbn. split; [done|]. split; [done|]. lia.
Qed.

(** C7 as stated fails on a bit-addressed stream, where [position] counts
    bits.  Ten bits are appended to a stream opened with a range of one
    byte: they fill the byte and two bits of a second one, and [size()] is
    10, the number of bits, while two bytes have been written to. *)
Lemma size_of_bit_stream_counts_bits :
  ∃ s', (let* _ := startWrite 1 in appendBool true 10) fresh_bit_output
        = (Returns tt, s')
        ∧ map buffer (ranges_ s') = [[Byte.xff]; [Byte.x03]]
        ∧ map position (ranges_ s') = [8; 2]
        ∧ stream_size s' = 10
        ∧ stream_size s' ≠ 2.
Proof.
  eexists. split; [vm_compute; reflexivity|].
  split; [reflexivity|]. split; [reflexivity|]. split; [reflexivity|].
  vm_compute. discriminate.
Qed.

(** C3.  On a stream that is not bit-addressed, [appendBool(true, 1)] with
    a free bit in the current range sets the bit, advances the position and
    returns normally: no check fires.  With a count of 2 the same stream
    fails the check and is left unchanged. *)
Theorem appendBool_single_bit_skips_check :
  isBits_ one_byte_bytes = false
  ∧ appendBool true 1 one_byte_bytes
    = (Returns tt,
       mkByteStream 1%nat false false false
         [{| buffer := [Byte.x01]; size := 1; position := 1 |}] 0)
  ∧ appendBool true 2 one_byte_bytes = (Raises CheckFailure, one_byte_bytes).
Proof. split; [done|]. split; vm_compute; reflexivity. Qed.

(** C8 as stated fails when the bytes written at the restored position do
    not fit into the restored range.  The placeholder of
    [straddling_placeholder] lies in two ranges.  Back at its start, the
    position is captured and restored at once, with no call in between,
    and [tellp] returns it again.  [appendOne] then overwrites the first
    two bytes of the placeholder and puts the other two into a new, third
    range: the two bytes of the placeholder in the second range are still
    there, and the position of the second range has not moved. *)
Lemma backpatch_straddling_appends_range :
  ∃ s2 pos s3 s4,
    straddling_placeholder fresh_output = (Returns tt, s2)
    ∧ map written (ranges_ s2)
      = [[Byte.x00; Byte.x00];
         [Byte.x00; Byte.x00; Byte.x88; Byte.x77; Byte.x66; Byte.x55]]
    ∧ back_to_placeholder s2 = (Returns pos, s3)
    ∧ pos = (element s2 0, 0)
    ∧ tellp s3 = (Returns pos, s3)
    ∧ appendOne 4 0x11223344 s3 = (Returns tt, s4)
    ∧ map written (ranges_ s4)
      = [[Byte.x44; Byte.x33];
         [Byte.x00; Byte.x00; Byte.x88; Byte.x77; Byte.x66; Byte.x55];
         [Byte.x22; Byte.x11]].
Proof.
  eexists _, _, _, _. split; [vm_compute; reflexivity|].
  split; [vm_compute; reflexivity|]. split; [vm_compute; reflexivity|].
  split; [vm_compute; reflexivity|]. split; [vm_compute; reflexivity|].
  split; vm_compute; reflexivity.
Qed.

(** A position that is captured before the placeholder is written does
    not survive it.  Writing the placeholder adds a range to a vector that
    is full, the vector moves to a new block, and the pointer in the
    position dangles: [seekp] writes through it. *)
Example backpatch_across_growth_dangles :
  ∃ pos s1 s2,
    (let* _ := startWrite 2 in tellp) fresh_output = (Returns pos, s1)
    ∧ (let* _ := appendOne 4 0 in appendOne 4 0x55667788) s1 = (Returns tt, s2)
    ∧ ranges_data_ s2 ≠ ptr_block (fst pos)
    ∧ seekp pos s2 = (Raises UndefinedBehavior, s2)
    ∧ fst (straddling_backpatch fresh_output) = Raises UndefinedBehavior.
Proof.
  eexists _, _, _. split; [vm_compute; reflexivity|].
  split; [vm_compute; reflexivity|]. split; [vm_compute; discriminate|].
  split; vm_compute; reflexivity.
Qed.

Lemma seekp_tellp_overwrite_witness :
  ∃ s3 s4 r4,
    tellp two_byte_output = (Returns (mkPtr 0 0, 0), two_byte_output)
    ∧ seekp (mkPtr 0 0, 0) two_byte_output = (Returns tt, two_byte_output)
    ∧ seekp (mkPtr 0 0, 0) two_byte_output = (Returns tt, s3)
    ∧ append 2 [0xABCD] s3 = (Returns tt, s4)
    ∧ ranges_ s4 = [r4]
    ∧ position r4 = 2
    ∧ take 2 (buffer r4) = [Byte.xcd; Byte.xab].
Proof.
  destruct (seekp_tellp_overwrite two_byte_output two_byte_range eq_refl)
    as (pos & -> & Htell & Hseek & _ & Hlater).
  destruct (Hlater two_byte_output two_byte_range eq_refl eq_refl)
    as (s3 & Hseek3 & _ & _ & _ & Hwrite).
  destruct (Hwrite 2%nat [0xABCD])
    as (s4 & r4 & Hrun & _ & Hrs & _ & Hpos & _ & _ & Hbytes & _);
    [by_computation|by_computation|by_computation|by_computation|].
  exists s3, s4, r4. split; [exact Htell|]. split; [exact Hseek|].
  split; [exact Hseek3|]. split; [exact Hrun|]. split; [exact Hrs|].
  split; [exact Hpos|exact Hbytes].
Defined.

End OnExactRanges.

(** ** Input streams *)

Lemma next_spec_witness :
  next true on_second_range = (Raises EndOfStream, on_second_range)
  ∧ next false on_second_range = (Returns tt, on_second_range)
  ∧ ∃ s', next true two_ranges_input = (Returns tt, s')
          ∧ current_ s' = 1%nat
          ∧ ranges_ s' !! current_ s' = Some (with_position 0 second_range).
Proof.
  destruct (next_spec on_second_range second_range eq_refl) as [Hlast _].
  destruct (Hlast eq_refl) as [Hthrow Hquiet].
  destruct (next_spec two_ranges_input first_range eq_refl) as [_ Hadvance].
  destruct (Hadvance second_range true eq_refl) as (s' & Hrun & Hcur & Hr & _).
  split; [exact Hthrow|]. split; [exact Hquiet|].
  exists s'. split; [exact Hrun|]. split; [exact Hcur|exact Hr].
Defined.

Lemma atEnd_spec_witness :
  atEnd read_to_end = (Returns true, read_to_end)
  ∧ atEnd two_ranges_input = (Returns false, two_ranges_input).
Proof.
  destruct (atEnd_spec read_to_end (with_position 2 second_range) eq_refl)
    as (b & Hrun & Hiff); [cbn; lia|].
  destruct (atEnd_spec two_ranges_input first_range eq_refl)
    as (b' & Hrun' & Hiff'); [cbn; lia|].
  split.
  - rewrite Hrun. f_equal. f_equal. apply Hiff. split; reflexivity.
  - rewrite Hrun'. f_equal. f_equal. destruct b'; [|reflexivity].
    destruct Hiff' as [Hfull _]. destruct (Hfull eq_refl) as [Hpos _].
    cbn in Hpos. lia.
Defined.

Lemma nextView_spec_witness :
  ∃ v s', nextView 2 two_ranges_input = (Returns v, s')
          ∧ view_size v ≤ 2
          ∧ view_size v ≠ 0.
Proof.
  destruct (nextView_spec 2 two_ranges_input first_range eq_refl)
    as (v & s' & Hrun & Hle & Hzero & _).
  - cbn. lia.
  - cbn. lia.
  - intros r Hr. injection Hr as <-. cbn. lia.
  - lia.
  - exists v, s'. split; [exact Hrun|]. split; [exact Hle|].
    intros Hv. apply Hzero in Hv as [Hfull _]. cbn in Hfull. lia.
Defined.

(** C6 as stated fails for [k = 0] and before an empty range.
    [nextView(0)] returns a view of length 0 although four bytes are left
    to read, the current range is not read up to its size and a range
    follows it; and when the range that follows the exhausted current range
    is empty, [nextView(1)] fails the check on its size instead of
    returning a view. *)
Lemma nextView_zero_length_before_end :
  nextView 0 two_ranges_input
  = (Returns (mkView (Some (0%nat, 1)) 0), two_ranges_input)
  ∧ input_bytes two_ranges_input = [Byte.x02; Byte.x03; Byte.x04; Byte.x05]
  ∧ fst (nextView 1 before_empty_range) = Raises CheckFailure.
Proof. split; [|split]; vm_compute; reflexivity. Qed.

Lemma readBytes_past_end_witness :
  ∃ s', readBytes 10 (two_ranges_input, replicate 12 Byte.x00)
        = (Raises EndOfStream,
           (s', [Byte.x02; Byte.x03; Byte.x04; Byte.x05]
                ++ replicate 8 Byte.x00))
        ∧ atEnd s' = (Returns true, s')
        ∧ input_bytes s' = [].
Proof.
  destruct (readBytes_past_end two_ranges_input (replicate 12 Byte.x00) 10
              two_ranges_input_ok)
    as (s' & Hrun & Hend & Hempty & _).
  - by_computation.
  - by_computation.
  - by_computation.
  - exists s'. split; [exact Hrun|]. split; [exact Hend|exact Hempty].
Defined.

(** * Further properties of the input path *)

Section InputEnd.
Context {A : Type}.
Implicit Types (s : ByteStream A) (c r : ByteRange).

(** With no byte left, [readByte] walks to the last range and fails
    there. *)
Lemma readByte_from_EndOfStream (depth : nat) s :
  in_ok s →
  input_bytes s = [] →
  (length (ranges_ s) - current_ s < depth)%nat →
  ∃ s', readByte_from depth s = (Raises EndOfStream, s')
        ∧ in_ok s' ∧ input_bytes s' = []
        ∧ current_ s' = (length (ranges_ s') - 1)%nat
        ∧ map buffer (ranges_ s') = map buffer (ranges_ s)
        ∧ map size (ranges_ s') = map size (ranges_ s).
Proof.
  revert s. induction depth as [|depth IH];
    intros s Hok Hin Hdepth; [lia|].
  pose proof Hok as (c & Hc & Hokc & Hlater).
  pose proof (lookup_lt_Some _ _ _ Hc) as Hlt.
  pose proof Hokc as (Hpos & Hsize & Hbuf).
  pose proof Hin as Hin0.
  rewrite (input_bytes_current s c Hc) in Hin.
  apply app_eq_nil in Hin as [Hunread Hnone].
  assert (position c = size c) as Hfull.
  { apply (f_equal length) in Hunread.
    rewrite length_drop, length_readable in Hunread
      by (by apply range_ok_readable_ok). cbn in Hunread. lia. }
  cbn [readByte_from]. rewrite (bind_Returns _ _ _ _ _ (deref_Some s c Hc)).
  rewrite (proj2 (Z.ltb_ge _ _)) by lia.
  destruct (ranges_ s !! S (current_ s)) as [r|] eqn:Hr.
  - destruct (in_ok_next s c r Hc Hokc Hlater Hfull Hr) as (Hok' & Hin' & _ & _).
    rewrite (bind_Returns _ _ _ _ _ (next_advance true s c r Hc Hr)).
    destruct (IH _ Hok') as (s' & Hrun & Hok'' & Hin'' & Hlast & Hbufs & Hsizes).
    + by rewrite Hin'.
    + cbn. rewrite length_insert. pose proof (lookup_lt_Some _ _ _ Hr). lia.
    + exists s'. split; [done|]. split; [done|]. split; [done|]. split; [done|].
      split.
      * rewrite Hbufs. cbn. by rewrite (map_insert_same buffer _ _ _ r).
      * rewrite Hsizes. cbn. by rewrite (map_insert_same size _ _ _ r).
  - apply lookup_ge_None in Hr.
    rewrite (bind_Raises _ _ _ _ _ (next_last true s c Hc ltac:(lia))).
    exists s. split; [done|]. split; [done|]. split; [done|]. split; [lia|done].
Qed.

Lemma readByte_EndOfStream s :
  in_ok s →
  input_bytes s = [] →
  ∃ s', readByte s = (Raises EndOfStream, s')
        ∧ in_ok s' ∧ input_bytes s' = []
        ∧ current_ s' = (length (ranges_ s') - 1)%nat
        ∧ map buffer (ranges_ s') = map buffer (ranges_ s)
        ∧ map size (ranges_ s') = map size (ranges_ s).
Proof.
  intros Hok Hin. unfold readByte, bind, get.
  apply readByte_from_EndOfStream; [done|done|lia].
Qed.

(** Asked for more bytes than are left, the straddling loop reads what is
    left and fails. *)
Lemma read_straddling_EndOfStream (bs : list byte) :
  ∀ (n : nat) (i value : Z) s,
    in_ok s →
    input_bytes s = bs →
    (length bs < n)%nat →
    ∃ s', read_straddling n i value s = (Raises EndOfStream, s')
          ∧ in_ok s' ∧ input_bytes s' = []
          ∧ current_ s' = (length (ranges_ s') - 1)%nat.
Proof.
  induction bs as [|b bs IH]; intros n i value s Hok Hin Hn.
  - destruct n as [|n]; [cbn in Hn; lia|]. cbn [read_straddling].
    destruct (readByte_EndOfStream s Hok Hin) as (s' & Hrun & Hok' & Hin' & Hlast & _).
    rewrite (bind_Raises _ _ _ _ _ Hrun). by exists s'.
  - destruct n as [|n]; [cbn in Hn; lia|]. cbn [read_straddling length] in *.
    destruct (readByte_Returns s b bs Hok Hin) as (s1 & Hrun1 & Hok1 & Hin1 & _).
    rewrite (bind_Returns _ _ _ _ _ Hrun1).
    apply IH; [done|done|lia].
Qed.

Lemma read_EndOfStream (sizeofT : nat) s :
  in_ok s →
  (length (input_bytes s) < sizeofT)%nat →
  Z.of_nat sizeofT < 2 ^ 31 →
  ∃ s', read sizeofT s = (Raises EndOfStream, s')
        ∧ in_ok s' ∧ input_bytes s' = []
        ∧ current_ s' = (length (ranges_ s') - 1)%nat.
Proof.
  intros Hok Hshort Hsmall. pose proof Hok as (c & Hc & Hokc & Hlater).
  pose proof Hokc as (Hpos & Hsize & Hbuf).
  assert (size c - position c < Z.of_nat sizeofT) as Hstraddle.
  { rewrite (input_bytes_current s c Hc), length_app, length_drop,
      length_readable in Hshort by (by apply range_ok_readable_ok). lia. }
  unfold read. rewrite (bind_Returns _ _ _ _ _ (deref_Some s c Hc)).
  unwrap. rewrite (proj2 (Z.leb_gt _ _)) by lia.
  destruct (read_straddling_EndOfStream (input_bytes s) sizeofT 0 0 s Hok eq_refl Hshort)
    as (s' & Hrun & H).
  rewrite (bind_Raises _ _ _ _ _ Hrun). by exists s'.
Qed.

End InputEnd.

(** * Block reads and skips *)

Section BlockReads.
Context {A : Type}.
Implicit Types (s : ByteStream A) (c r : ByteRange).

(** With enough bytes left, the loop of [readBytes] copies them to the
    block and stops in the range that holds the last of them. *)
Lemma readBytes_loop_Returns (fuel : nat) :
  ∀ s (dest : list byte) (offset size' : Z),
    in_ok s →
    (length (ranges_ s) - current_ s ≤ fuel)%nat →
    0 ≤ offset →
    0 ≤ size' ≤ Z.of_nat (length (input_bytes s)) →
    offset + size' ≤ Z.of_nat (length dest) →
    offset + size' < 2 ^ 31 →
    ∃ s',
      readBytes_loop fuel offset size' (s, dest)
      = (Returns tt,
         (s', take (Z.to_nat offset) dest
              ++ take (Z.to_nat size') (input_bytes s)
              ++ drop (Z.to_nat offset + Z.to_nat size') dest))
      ∧ in_ok s'
      ∧ input_bytes s' = drop (Z.to_nat size') (input_bytes s)
      ∧ map buffer (ranges_ s') = map buffer (ranges_ s)
      ∧ map size (ranges_ s') = map size (ranges_ s).
Proof.
  induction fuel as [|fuel IH];
    intros s dest offset size' (c & Hc & Hokc & Hlater) Hfuel Hoff Hsize Hdest Hint.
  { apply lookup_lt_Some in Hc. lia. }
  pose proof (lookup_lt_Some _ _ _ Hc) as Hlt.
  pose proof Hokc as (Hpos & Hsz & Hbuf).
  pose proof (input_bytes_current s c Hc) as Hin.
  set (later := concat (map readable (drop (S (current_ s)) (ranges_ s)))) in *.
  set (unread := drop (Z.to_nat (position c)) (readable c)) in *.
  assert (Z.of_nat (length unread) = size c - position c) as Hunread.
  { subst unread. rewrite length_drop, length_readable
      by (by apply range_ok_readable_ok). lia. }
  cbn [readBytes_loop].
  rewrite (bind_Returns _ _ _ _ _ (on_stream_run _ _ _ _ _ (deref_Some s c Hc))).
  unwrap.
  destruct (decide (size' ≤ size c - position c)) as [Hfits|Hmore].
  - (* the rest of the request lies in the current range *)
    rewrite Z.min_r by lia.
    destruct (memcpy_Some dest offset (buffer c) (position c) size')
      as [Hcpy Hlen]; try lia.
    rewrite <- (take_drop_readable c (Z.to_nat size') Hokc) in Hcpy, Hlen by lia.
    fold unread in Hcpy, Hlen.
    rewrite (bind_Returns _ _ _ _ _ (on_bytes_Some _ _ _ _ Hcpy)).
    unwrap.
    rewrite (bind_Returns _ _ _ _ _
               (on_stream_run _ _ _ _ _ (assign_Some s c _ Hc))).
    rewrite Z.sub_diag. cbn [Z.eqb].
    destruct (in_ok_move s c (position c + size') Hc Hokc Hlater)
      as (Hok1 & Hin1 & Hc1); [lia|].
    eexists. split_and!; try done.
    + unfold ret. f_equal. f_equal. rewrite Hin, Hlen.
      rewrite take_app_le by lia. done.
    + rewrite Hin1, Hin. fold unread later.
      rewrite drop_app_le by lia. f_equal. subst unread.
      rewrite drop_drop. f_equal. lia.
    + cbn. by rewrite (map_insert_same buffer _ _ _ c).
    + cbn. by rewrite (map_insert_same size _ _ _ c).
  - (* the current range is used up and the next one entered *)
    rewrite Hin, length_app in Hsize.
    destruct (memcpy_Some dest offset (buffer c) (position c) (size c - position c))
      as [Hcpy _]; try lia.
    rewrite <- (unread_is_block c Hokc) in Hcpy. fold unread in Hcpy.
    set (dest1 := take (Z.to_nat offset) dest ++ unread
                  ++ drop (Z.to_nat offset + length unread) dest) in *.
    destruct (in_ok_move s c (size c) Hc Hokc Hlater) as (Hok1 & Hin1 & Hc1); [lia|].
    set (s1 := set_ranges (<[current_ s := with_position (size c) c]> (ranges_ s)) s)
      in *.
    rewrite (drop_ge (readable c)) in Hin1
      by (rewrite length_readable by (by apply range_ok_readable_ok); lia).
    cbn [app] in Hin1. fold later in Hin1.
    rewrite Z.min_l by lia.
    rewrite (bind_Returns _ _ _ _ _ (on_bytes_Some _ _ _ _ Hcpy)).
    unwrap.
    replace (position c + (size c - position c)) with (size c) by lia.
    rewrite (bind_Returns _ _ _ _ _
               (on_stream_run _ _ _ _ _ (assign_Some s c _ Hc))).
    fold s1. rewrite (proj2 (Z.eqb_neq _ _)) by lia.
    destruct (ranges_ s !! S (current_ s)) as [r|] eqn:Hr.
    + assert (ranges_ s1 !! S (current_ s1) = Some r) as Hr1.
      { subst s1. cbn. rewrite list_lookup_insert_ne by lia. done. }
      pose proof Hok1 as (c1 & Hc1' & Hokc1 & Hlater1).
      rewrite Hc1 in Hc1'. injection Hc1' as <-.
      destruct (in_ok_next s1 _ r Hc1 Hokc1 Hlater1 eq_refl Hr1)
        as (Hok2 & Hin2 & _ & _).
      rewrite (bind_Returns _ _ _ _ _
                 (on_stream_run _ _ _ _ _ (next_advance true s1 _ r Hc1 Hr1))).
      set (s2 := set_ranges _ (set_current _ s1)) in *.
      assert (length dest1 = length dest) as Hlen1.
      { subst dest1. apply length_splice. lia. }
      destruct (IH s2 dest1 (offset + (size c - position c))
                  (size' - (size c - position c)) Hok2)
        as (s' & Hrun & Hok' & Hin' & Hbufs & Hsizes).
      * subst s2 s1. cbn. rewrite !length_insert. lia.
      * lia.
      * rewrite Hin2, Hin1. lia.
      * lia.
      * lia.
      * exists s'. rewrite Hrun. split_and!; try done.
        -- f_equal. f_equal. rewrite Hin2, Hin1, Hin.
           replace (Z.to_nat (offset + (size c - position c)))
             with (Z.to_nat offset + length unread)%nat by lia.
           replace (Z.to_nat size')
             with (length unread + Z.to_nat (size' - (size c - position c)))%nat
             by lia.
           rewrite take_app_add'  by done.
           set (k2 := take _ later).
           assert (length k2 = Z.to_nat (size' - (size c - position c))) as Hk2.
           { subst k2. rewrite length_take. lia. }
           rewrite <- Hk2.
           replace (Z.to_nat offset + (length unread + length k2))%nat
             with (Z.to_nat offset + length (unread ++ k2))%nat
             by (rewrite length_app; lia).
           subst dest1.
           rewrite <- (splice_splice (Z.to_nat offset) unread k2 dest) by lia.
           done.
        -- rewrite Hin', Hin2, Hin1, Hin.
           replace (Z.to_nat size')
             with (length unread + Z.to_nat (size' - (size c - position c)))%nat
             by lia.
           by rewrite drop_app_add' by done.
        -- rewrite Hbufs. subst s2 s1. cbn.
           rewrite (map_insert_same buffer _ _ _ r) by done.
           by rewrite (map_insert_same buffer _ _ _ c).
        -- rewrite Hsizes. subst s2 s1. cbn.
           rewrite (map_insert_same size _ _ _ r) by done.
           by rewrite (map_insert_same size _ _ _ c).
    + apply lookup_ge_None in Hr.
      assert (later = []) as Hnone.
      { subst later. by rewrite drop_ge by lia. }
      rewrite Hnone in Hsize. cbn in Hsize. lia.
Qed.

Lemma readBytes_Returns s (dest : list byte) (size' : Z) :
  in_ok s →
  0 ≤ size' ≤ Z.of_nat (length (input_bytes s)) →
  size' ≤ Z.of_nat (length dest) →
  size' < 2 ^ 31 →
  ∃ s',
    readBytes size' (s, dest)
    = (Returns tt,
       (s', take (Z.to_nat size') (input_bytes s) ++ drop (Z.to_nat size') dest))
    ∧ in_ok s'
    ∧ input_bytes s' = drop (Z.to_nat size') (input_bytes s)
    ∧ map buffer (ranges_ s') = map buffer (ranges_ s)
    ∧ map size (ranges_ s') = map size (ranges_ s).
Proof.
  intros Hok Hsize Hdest Hint.
  destruct (readBytes_loop_Returns (S (length (ranges_ s))) s dest 0 size' Hok)
    as (s' & Hrun & H); try lia.
  exists s'. split; [|done].
  unfold readBytes. unfold bind at 1. cbn. exact Hrun.
Qed.

(** [skip] moves through the ranges as [readBytes] does; it only leaves
    out the copy. *)
Lemma skip_loop_as_readBytes_loop (fuel : nat) :
  ∀ s (dest : list byte) (offset size' : Z) o s' dest',
    readBytes_loop fuel offset size' (s, dest) = (o, (s', dest')) →
    o ≠ Raises UndefinedBehavior → o ≠ Raises Diverges →
    skip_loop fuel size' s = (o, s').
Proof.
  induction fuel as [|fuel IH]; intros s dest offset size' o s' dest' Hrun Hub Hdiv.
  { cbn in Hrun. unfold raise in Hrun. congruence. }
  cbn [readBytes_loop skip_loop] in *.
  unfold bind at 1. unfold bind at 1 in Hrun.
  unfold on_stream at 1 in Hrun. unfold deref at 1. unfold deref at 1 in Hrun.
  destruct (ranges_ s !! current_ s) as [c|] eqn:Hc; cbn in Hrun |- *;
    [|unfold raise in Hrun; congruence].
  unfold bind at 1 in Hrun. unfold on_bytes at 1 in Hrun.
  destruct (memcpy dest offset (buffer c) (position c)
              (Z.min (int32_t (size c - position c)) size')) as [dest1|];
    [|congruence].
  unfold bind at 1 in Hrun. unfold on_stream at 1 in Hrun.
  rewrite (assign_Some s c _ Hc) in Hrun.
  rewrite (bind_Returns _ _ _ _ _ (assign_Some s c _ Hc)).
  destruct (_ =? 0).
  { unfold ret in *. congruence. }
  unfold bind at 1 in Hrun. unfold on_stream at 1 in Hrun.
  unfold bind at 1.
  destruct (next true _) as [[[]|e] s2].
  - eapply IH; [exact Hrun|done|done].
  - congruence.
Qed.

End BlockReads.

(** * Views, the end of the stream and seeking *)

Section Cursor.
Context {A : Type}.
Implicit Types (s : ByteStream A) (c r : ByteRange).

(** X6.  On a readable stream whose following range, if any, is not empty,
    [nextView(k)] returns a view of at most [k] bytes whose bytes, read in
    the buffer of its range, are the next bytes of the stream, and the
    stream has consumed exactly them.  The views of successive calls are
    therefore the bytes of the stream in order. *)
Theorem nextView_next_bytes k s :
  in_ok s →
  (∀ r, ranges_ s !! S (current_ s) = Some r → 0 < size r) →
  0 ≤ k < 2 ^ 31 →
  ∃ v s',
    nextView k s = (Returns v, s')
    ∧ in_ok s'
    ∧ 0 ≤ view_size v ≤ k
    ∧ view_bytes (ranges_ s') v = take (Z.to_nat (view_size v)) (input_bytes s)
    ∧ length (view_bytes (ranges_ s') v) = Z.to_nat (view_size v)
    ∧ input_bytes s' = drop (Z.to_nat (view_size v)) (input_bytes s).
Proof.
  intros Hok Hnext Hk. pose proof Hok as (c & Hc & Hokc & Hlater).
  pose proof (lookup_lt_Some _ _ _ Hc) as Hlt.
  pose proof Hokc as (Hpos & Hsz & Hbuf).
  pose proof (input_bytes_current s c Hc) as Hin.
  set (later := concat (map readable (drop (S (current_ s)) (ranges_ s)))) in *.
  set (unread := drop (Z.to_nat (position c)) (readable c)) in *.
  assert (Z.of_nat (length unread) = size c - position c) as Hunread.
  { subst unread. rewrite length_drop, length_readable
      by (by apply range_ok_readable_ok). lia. }
  destruct (decide (position c = size c)) as [Hfull|Hleft].
  - destruct (ranges_ s !! S (current_ s)) as [r|] eqn:Hr.
    + (* the view starts the following range *)
      specialize (Hnext r eq_refl).
      destruct (in_ok_next s c r Hc Hokc Hlater Hfull Hr)
        as (Hok1 & Hin1 & Hc1 & Hokr).
      set (s1 := set_ranges (<[S (current_ s) := with_position 0 r]> (ranges_ s))
                   (set_current (S (current_ s)) s)) in *.
      pose proof Hok1 as (c1 & Hc1' & Hokc1 & Hlater1).
      rewrite Hc1 in Hc1'. injection Hc1' as <-.
      destruct Hokr as [Hsr Hbr].
      set (m := Z.min (size r) k).
      destruct (in_ok_move s1 _ m Hc1 Hokc1 Hlater1) as (Hok2 & Hin2 & Hc2);
        [cbn; lia|].
      assert (set_ranges (<[current_ s1 := with_position m (with_position 0 r)]>
                            (ranges_ s1)) s1
              = set_ranges (<[S (current_ s) := with_position m r]> (ranges_ s))
                  (set_current (S (current_ s)) s)) as Hs2.
      { subst s1. cbn. unfold set_ranges. cbn. by rewrite list_insert_insert_eq. }
      rewrite Hs2 in Hok2, Hin2, Hc2.
      eexists _, _. split; [apply (nextView_advance k s c r); try done; lia|].
      fold m. cbn [view_size]. split; [done|]. split; [lia|].
      assert (input_bytes s1
              = readable r
                ++ concat (map readable (drop (S (current_ s1)) (ranges_ s1))))
        as Hin1'.
      { rewrite (input_bytes_current s1 _ Hc1). done. }
      rewrite <- Hin1, Hin1'.
      assert (length (readable r) = Z.to_nat (size r)) as Hlenr
        by (by apply length_readable).
      unfold view_bytes. cbn [view_data view_size].
      cbn [ranges_ set_ranges set_current].
      rewrite list_lookup_insert_eq by (apply lookup_lt_Some in Hr; done).
      cbn [buffer with_position]. change (Z.to_nat 0) with 0%nat. rewrite drop_0.
      assert (take (Z.to_nat m) (buffer r) = take (Z.to_nat m) (readable r)) as Htake.
      { unfold readable. rewrite take_take. f_equal. lia. }
      split_and!.
      * rewrite Htake. by rewrite take_app_le by lia.
      * rewrite length_take. lia.
      * rewrite Hin2. cbn [readable with_position buffer size].
        fold (readable r). rewrite drop_app_le by lia. done.
    + (* the end of the stream: the null view *)
      apply lookup_ge_None in Hr.
      eexists _, _. split; [apply (nextView_at_end k s c); [done|done|lia]|].
      cbn. split_and!; try done; lia.
  - (* the view lies in the current range *)
    set (m := Z.min (size c - position c) k).
    destruct (in_ok_move s c (position c + m) Hc Hokc Hlater) as (Hok1 & Hin1 & Hc1);
      [lia|].
    eexists _, _. split; [apply (nextView_within k s c); try done; lia|].
    fold m. cbn [view_size]. split; [done|]. split; [lia|].
    unfold view_bytes. cbn [view_data view_size].
    cbn [ranges_ set_ranges].
    rewrite list_lookup_insert_eq by done. cbn [buffer with_position].
    rewrite <- (take_drop_readable c (Z.to_nat m) Hokc) by lia. fold unread.
    split_and!.
    + rewrite Hin. by rewrite take_app_le by lia.
    + rewrite length_take. lia.
    + rewrite Hin1, Hin. fold unread later.
      rewrite drop_app_le by lia. f_equal. subst unread.
      rewrite drop_drop. f_equal. lia.
Qed.

(** [atEnd] answers for the current range only. *)
Lemma atEnd_no_bytes s :
  in_ok s →
  ∃ b : bool,
    atEnd s = (Returns b, s)
    ∧ (b = true → input_bytes s = [])
    ∧ (Forall (λ r, 0 < size r) (drop (S (current_ s)) (ranges_ s)) →
       input_bytes s = [] → b = true).
Proof.
  intros (c & Hc & Hokc & Hlater).
  pose proof (lookup_lt_Some _ _ _ Hc) as Hlt.
  pose proof Hokc as (Hpos & Hsz & Hbuf).
  pose proof (input_bytes_current s c Hc) as Hin.
  assert (length (drop (Z.to_nat (position c)) (readable c))
          = Z.to_nat (size c - position c)) as Hunread.
  { rewrite length_drop, length_readable by (by apply range_ok_readable_ok). lia. }
  unfold atEnd. rewrite (bind_Returns _ _ _ _ _ (deref_Some s c Hc)).
  destruct (decide (position c < size c)) as [Hleft|Hfull].
  - rewrite (proj2 (Z.ltb_lt _ _)) by done.
    exists false. split; [done|]. split; [done|].
    intros _ Hnone. rewrite Hin in Hnone.
    apply (f_equal length) in Hnone. rewrite length_app, Hunread in Hnone.
    cbn in Hnone. lia.
  - rewrite (proj2 (Z.ltb_ge _ _)) by lia.
    unfold bind at 1. unfold get at 1.
    rewrite bool_decide_eq_true_2 by done. cbn [VELOX_CHECK].
    unfold bind at 1. unfold ret at 1.
    destruct (decide (current_ s = (length (ranges_ s) - 1)%nat)) as [Hlast|Hmore].
    + rewrite bool_decide_eq_true_2 by done.
      exists true. split; [done|]. split; [|done]. intros _.
      rewrite Hin, (drop_ge (ranges_ s)) by lia.
      rewrite drop_ge; [done|].
      rewrite length_readable by (by apply range_ok_readable_ok). lia.
    + rewrite bool_decide_eq_false_2 by done.
      exists false. split; [done|]. split; [done|].
      intros Hnonempty Hnone.
      destruct (ranges_ s !! S (current_ s)) as [r|] eqn:Hr;
        [|apply lookup_ge_None in Hr; lia].
      rewrite (drop_S _ _ _ Hr) in Hin, Hnonempty, Hlater.
      apply Forall_cons_1 in Hnonempty as [Hr0 _].
      apply Forall_cons_1 in Hlater as [Hokr _].
      rewrite Hin in Hnone. cbn in Hnone.
      apply (f_equal length) in Hnone.
      rewrite !length_app, length_readable in Hnone by done.
      cbn in Hnone. lia.
Qed.

(** [seek] moves to a range and sets its position; the positions of the
    other ranges are as they were. *)
Lemma seek_Some (range : nat) (position' : Z) s r :
  ranges_ s !! range = Some r →
  seek (Z.of_nat range) position' s
  = (Returns tt,
     set_ranges (<[range := with_position position' r]> (ranges_ s))
       (set_current range s)).
Proof.
  intros Hr. unfold seek.
  rewrite (proj2 (Z.ltb_ge _ _)) by lia.
  unfold bind at 1. unfold ret at 1.
  unfold bind at 1. unfold get at 1.
  unfold bind at 1. unfold put at 1. rewrite Nat2Z.id.
  assert (ranges_ (set_current range s) !! current_ (set_current range s) = Some r)
    as Hc by done.
  rewrite (bind_Returns _ _ _ _ _ (deref_Some _ r Hc)).
  by rewrite (assign_Some _ r _ Hc).
Qed.

End Cursor.

(** * Properties of reading *)

Section Reading.
Context {A : Type}.
Implicit Types (s : ByteStream A) (c r : ByteRange).

(** X1.  On a readable stream [readByte] returns the next byte that is
    left, in the current range or, past ranges that are used up or empty,
    in a later one, and leaves the bytes after it to read.  When no byte
    is left it raises the end-of-stream failure, and the stream is then on
    its last range with nothing to read. *)
Theorem readByte_next_byte s :
  in_ok s →
  match input_bytes s with
  | b :: rest =>
      ∃ s', readByte s = (Returns b, s') ∧ in_ok s' ∧ input_bytes s' = rest
  | [] =>
      ∃ s', readByte s = (Raises EndOfStream, s')
            ∧ input_bytes s' = []
            ∧ current_ s' = (length (ranges_ s') - 1)%nat
  end.
Proof.
  intros Hok. destruct (input_bytes s) as [|b rest] eqn:Hin.
  - destruct (readByte_EndOfStream s Hok Hin) as (s' & Hrun & _ & Hin' & Hlast & _).
    by exists s'.
  - destruct (readByte_Returns s b rest Hok Hin) as (s' & Hrun & Hok' & Hin' & _).
    by exists s'.
Qed.

(** X2.  [read<T>] for a type of at most eight bytes, on a readable
    stream: when that many bytes are left, on either path (the value within
    the current range, or assembled byte by byte across ranges) it returns
    the little-endian value of the next [sizeof(T)] bytes and consumes
    exactly them.  When fewer are left it raises the end-of-stream failure,
    and by then it has consumed the bytes that were left. *)
Theorem read_next_value (sizeofT : nat) s :
  in_ok s →
  (sizeofT ≤ 8)%nat →
  ((sizeofT ≤ length (input_bytes s))%nat →
   ∃ s', read sizeofT s
         = (Returns (le_combine (take sizeofT (input_bytes s))), s')
         ∧ in_ok s'
         ∧ input_bytes s' = drop sizeofT (input_bytes s))
  ∧ ((length (input_bytes s) < sizeofT)%nat →
     ∃ s', read sizeofT s = (Raises EndOfStream, s') ∧ input_bytes s' = []).
Proof.
  intros Hok Hw. split; intros Hlen.
  - destruct (read_Returns sizeofT s (take sizeofT (input_bytes s))
                (drop sizeofT (input_bytes s)) Hok)
      as (s' & Hrun & Hok' & Hin' & _).
    + by rewrite take_drop.
    + rewrite length_take. lia.
    + done.
    + by exists s'.
  - destruct (read_EndOfStream sizeofT s Hok Hlen) as (s' & Hrun & _ & Hin' & _);
      [lia|].
    by exists s'.
Qed.

(** X3.  [readBytes(bytes, size)] on a readable stream with at least
    [size] bytes left and a block of at least [size] bytes returns
    normally.  It has copied the next [size] bytes of the stream, across as
    many ranges as they span, to the start of the block, the rest of which
    is as it was; the bytes after them are left to read, and no buffer or
    size of a range has changed. *)
Theorem readBytes_copies_next_bytes s (dest : list byte) (size' : Z) :
  in_ok s →
  0 ≤ size' ≤ Z.of_nat (length (input_bytes s)) →
  size' ≤ Z.of_nat (length dest) →
  size' < 2 ^ 31 →
  ∃ s',
    readBytes size' (s, dest)
    = (Returns tt,
       (s', take (Z.to_nat size') (input_bytes s) ++ drop (Z.to_nat size') dest))
    ∧ in_ok s'
    ∧ input_bytes s' = drop (Z.to_nat size') (input_bytes s)
    ∧ map buffer (ranges_ s') = map buffer (ranges_ s)
    ∧ map size (ranges_ s') = map size (ranges_ s).
Proof. apply readBytes_Returns. Qed.

(** X4.  [skip(size)] leaves the stream exactly as [readBytes] of the same
    size does, and fails when it fails.  So on a readable stream it
    returns normally and has consumed [size] bytes when that many are
    left, and otherwise raises the end-of-stream failure with nothing left
    to read. *)
Theorem skip_as_readBytes s (dest : list byte) (size' : Z) :
  in_ok s →
  0 ≤ size' < 2 ^ 31 →
  size' ≤ Z.of_nat (length dest) →
  ∃ o s' dest',
    readBytes size' (s, dest) = (o, (s', dest'))
    ∧ skip size' s = (o, s')
    ∧ (o = Returns tt
       ∧ size' ≤ Z.of_nat (length (input_bytes s))
       ∧ input_bytes s' = drop (Z.to_nat size') (input_bytes s)
       ∨ o = Raises EndOfStream
         ∧ Z.of_nat (length (input_bytes s)) < size'
         ∧ input_bytes s' = []).
Proof.
  intros Hok Hsize Hdest.
  assert (∀ o s' dest',
            readBytes size' (s, dest) = (o, (s', dest')) →
            o ≠ Raises UndefinedBehavior → o ≠ Raises Diverges →
            skip size' s = (o, s')) as Hsame.
  { intros o s' dest' Hrun Hub Hdiv. unfold skip. unfold bind at 1. unfold get at 1.
    by apply (skip_loop_as_readBytes_loop _ s dest 0 size' o s' dest'). }
  destruct (decide (size' ≤ Z.of_nat (length (input_bytes s)))) as [Hleft|Hshort].
  - destruct (readBytes_Returns s dest size' Hok) as (s' & Hrun & _ & Hin' & _);
      try lia.
    eexists _, s', _. split; [exact Hrun|]. split; [by eapply Hsame|].
    left. done.
  - destruct (readBytes_loop_past_end (S (length (ranges_ s))) s dest 0 size' Hok)
      as (s' & Hrun & _ & _ & Hin' & _); try lia.
    eexists _, s', _. split; [exact Hrun|]. split; [by eapply Hsame|].
    right. split; [done|]. split; [lia|done].
Qed.

(** X5.  [skip] does not check the sign of its argument: with a negative
    size it returns normally and moves the position of the current range
    backwards by that many bytes, below 0 when the size exceeds the
    position. *)
Theorem skip_negative_rewinds (size' : Z) s c :
  ranges_ s !! current_ s = Some c →
  0 ≤ position c ≤ size c →
  size c < 2 ^ 31 →
  - 2 ^ 31 ≤ size' < 0 →
  skip size' s
  = (Returns tt,
     set_ranges (<[current_ s := with_position (position c + size') c]> (ranges_ s))
       s).
Proof.
  intros Hc Hpos Hsize Hneg. unfold skip. unfold bind at 1. unfold get at 1.
  cbn [skip_loop]. rewrite (bind_Returns _ _ _ _ _ (deref_Some s c Hc)).
  unwrap. rewrite Z.min_r by lia. rewrite Z.sub_diag. unwrap.
  rewrite (bind_Returns _ _ _ _ _ (assign_Some s c _ Hc)). done.
Qed.

(** X7.  On a readable stream [atEnd()] changes nothing, and when it is
    true no byte is left to read.  When every range after the current one
    holds at least one byte the converse holds too, so that [atEnd()] is
    true exactly when nothing is left. *)
Theorem atEnd_iff_nothing_left s :
  in_ok s →
  ∃ b : bool,
    atEnd s = (Returns b, s)
    ∧ (b = true → input_bytes s = [])
    ∧ (Forall (λ r, 0 < size r) (drop (S (current_ s)) (ranges_ s)) →
       (b = true ↔ input_bytes s = [])).
Proof.
  intros Hok. destruct (atEnd_no_bytes s Hok) as (b & Hrun & Hsound & Hcomplete).
  exists b. split; [done|]. split; [done|]. intros Hnonempty.
  split; [done|by apply Hcomplete].
Qed.

(** X8.  [seek(range, position)] on a range of the stream returns
    normally and makes it the current range at that position, so that
    [tellp()] returns the pointer to that range and the position; the
    other ranges are untouched.  What is then left to read is the range
    from that position on, followed by the ranges after it. *)
Theorem seek_then_read (range : nat) (position' : Z) s r :
  ranges_ s !! range = Some r →
  readable_ok r →
  0 ≤ position' ≤ size r →
  Forall readable_ok (drop (S range) (ranges_ s)) →
  ∃ s',
    seek (Z.of_nat range) position' s = (Returns tt, s')
    ∧ tellp s' = (Returns (element s range, position'), s')
    ∧ in_ok s'
    ∧ input_bytes s'
      = drop (Z.to_nat position') (readable r)
        ++ concat (map readable (drop (S range) (ranges_ s)))
    ∧ (∀ i, i ≠ range → ranges_ s' !! i = ranges_ s !! i).
Proof.
  intros Hr [Hsize Hbuf] Hpos Hlater.
  pose proof (lookup_lt_Some _ _ _ Hr) as Hlt.
  eexists. split; [by apply seek_Some|].
  set (s' := set_ranges _ _).
  assert (ranges_ s' !! current_ s' = Some (with_position position' r)) as Hc.
  { subst s'. cbn. by apply list_lookup_insert_eq. }
  assert (drop (S (current_ s')) (ranges_ s') = drop (S range) (ranges_ s)) as Hdrop.
  { subst s'. cbn. apply drop_insert_lt. lia. }
  split_and!.
  - by rewrite (tellp_Some s' _ Hc).
  - exists (with_position position' r). split; [done|]. split.
    + unfold range_ok. cbn. lia.
    + by rewrite Hdrop.
  - by rewrite (input_bytes_current s' _ Hc), Hdrop.
  - intros i Hi. subst s'. cbn. by rewrite list_lookup_insert_ne.
Qed.

(** X9.  [resetInput] keeps the position of the first range it is given:
    a [readBytes] that follows returns the bytes of the first range from
    its position on, then every byte of the later ranges, whatever their
    positions were. *)
Theorem resetInput_readBytes (r : ByteRange) (rs : list ByteRange) s
    (dest : list byte) :
  range_ok r →
  Forall readable_ok rs →
  let bytes := drop (Z.to_nat (position r)) (readable r)
               ++ concat (map readable rs) in
  Z.of_nat (length bytes) < 2 ^ 31 →
  (length bytes ≤ length dest)%nat →
  ∃ s',
    (let* _ := on_stream (resetInput (r :: rs)) in
     readBytes (Z.of_nat (length bytes))) (s, dest)
    = (Returns tt, (s', bytes ++ drop (length bytes) dest))
    ∧ input_bytes s' = [].
Proof.
  intros Hokr Hall bytes Hint Hdest.
  set (s0 := set_current 0
               (set_ranges (r :: rs)
                  (set_storage (S (ranges_data_ s)) (length (r :: rs)) s))).
  assert (in_ok s0) as Hok0 by (by exists r).
  assert (input_bytes s0 = bytes) as Hin0 by done.
  destruct (readBytes_Returns s0 dest (Z.of_nat (length bytes)) Hok0)
    as (s' & Hrun & _ & Hin' & _); try (rewrite ?Hin0; lia).
  exists s'. split.
  - rewrite (bind_Returns _ _ _ _ _
               (on_stream_run _ _ _ _ _
                  (eq_refl : resetInput (r :: rs) s = (Returns tt, s0)))).
    rewrite Hrun, Hin0, Nat2Z.id. by rewrite firstn_all.
  - rewrite Hin', Hin0, Nat2Z.id. by apply drop_all.
Qed.

(** X10.  The specialisations [read<Timestamp>] and [read<Date>] fill an
    object of the type with [readBytes].  On a readable stream with at
    least [sizeof(T)] bytes left the bytes of the object returned are the
    next [sizeof(T)] bytes of the stream, whatever the object held before,
    and exactly they are consumed; for a size of at most eight bytes the
    primitive [read<T>] returns their little-endian value and leaves the
    same bytes to read.  With fewer bytes left the failure is the
    end-of-stream failure and nothing is left to read. *)
Theorem read_struct_next_bytes (sizeofT : nat) (value : list byte) s :
  in_ok s →
  length value = sizeofT →
  Z.of_nat sizeofT < 2 ^ 31 →
  ((sizeofT ≤ length (input_bytes s))%nat →
   ∃ s', read_struct sizeofT value s
         = (Returns (take sizeofT (input_bytes s)), s')
         ∧ in_ok s'
         ∧ input_bytes s' = drop sizeofT (input_bytes s)
         ∧ ((sizeofT ≤ 8)%nat →
            ∃ s'', read sizeofT s
                   = (Returns (le_combine (take sizeofT (input_bytes s))), s'')
                   ∧ input_bytes s'' = input_bytes s'))
  ∧ ((length (input_bytes s) < sizeofT)%nat →
     ∃ s', read_struct sizeofT value s = (Raises EndOfStream, s')
           ∧ input_bytes s' = []).
Proof.
  intros Hok Hvalue Hint. split; intros Hlen.
  - destruct (readBytes_Returns s value (Z.of_nat sizeofT) Hok)
      as (s' & Hrun & Hok' & Hin' & _); try lia.
    rewrite Nat2Z.id in Hrun, Hin'.
    exists s'. unfold read_struct. rewrite Hrun.
    rewrite drop_ge, app_nil_r by lia. split_and!; try done.
    intros Hw.
    destruct (read_Returns sizeofT s (take sizeofT (input_bytes s))
                (drop sizeofT (input_bytes s)) Hok)
      as (s'' & Hread & _ & Hin'' & _).
    + by rewrite take_drop.
    + rewrite length_take. lia.
    + done.
    + exists s''. by rewrite Hin'.
  - destruct (readBytes_loop_past_end (S (length (ranges_ s))) s value 0
                (Z.of_nat sizeofT) Hok)
      as (s' & Hrun & _ & _ & Hin' & _); try lia.
    exists s'. unfold read_struct, readBytes.
    unfold bind at 1. cbn [on_stream get]. rewrite Hrun. done.
Qed.

End Reading.

(** * Appends that fit and appends that do not *)

Section Room.
Context {A : Type} {arena : StreamArena A} {memory : MappedMemory}
        {growth : VectorGrowth}.
Implicit Types (s : ByteStream A) (c r : ByteRange).

(** A string that fits the current range is copied to it by the first turn
    of the loop, and the arena is not asked for anything. *)
Lemma appendStringPiece_fits (value : list byte) s c :
  ranges_ s !! current_ s = Some c →
  0 ≤ position c →
  position c + Z.of_nat (length value) ≤ size c →
  size c < 2 ^ 31 →
  size c ≤ Z.of_nat (length (buffer c)) →
  appendStringPiece value s
  = (Returns tt,
     set_ranges
       (<[current_ s :=
            {| buffer := take (Z.to_nat (position c)) (buffer c)
                         ++ value
                         ++ drop (Z.to_nat (position c) + length value) (buffer c);
               size := size c;
               position := position c + Z.of_nat (length value) |}]>
          (ranges_ s)) s).
Proof.
  intros Hc Hpos Hfit Hsize Hbuf.
  unfold appendStringPiece. cbn [appendStringPiece_loop].
  rewrite (bind_Returns _ _ _ _ _ (deref_Some s c Hc)).
  unwrap. rewrite Z.sub_0_r. unwrap. rewrite Z.min_l by lia.
  destruct (memcpy_Some (buffer c) (position c) value 0 (Z.of_nat (length value)))
    as [Hcpy _]; try lia.
  change (Z.to_nat 0) with 0%nat in Hcpy. rewrite drop_0, Nat2Z.id in Hcpy.
  rewrite firstn_all in Hcpy.
  rewrite Hcpy. unfold defined.
  unfold bind at 1. unfold ret at 1.
  rewrite (bind_Returns _ _ _ _ _ (assign_Some s c _ Hc)).
  cbn [Z.add]. unwrap. rewrite Z.eqb_refl. done.
Qed.

(** X11.  [append<T>] of a span of values does to the stream exactly what
    [appendStringPiece] of their bytes does, whether the values fit the
    current range (where [append] copies them one by one) or not: same
    outcome, same ranges, same requests to the arena. *)
Theorem append_as_appendStringPiece (sizeofT : nat) (values : list Z) s c :
  ranges_ s !! current_ s = Some c →
  range_ok c →
  Z.of_nat (length (bytes_of sizeofT values)) + 2 ^ 31 ≤ 2 ^ 64 →
  append sizeofT values s = appendStringPiece (bytes_of sizeofT values) s.
Proof.
  intros Hc (Hpos & Hsize & Hbuf) Hlen.
  destruct (decide (position c + Z.of_nat (length (bytes_of sizeofT values))
                    ≤ size c)) as [Hfits|Hmore].
  - rewrite (append_fits sizeofT values s c) by (done || lia).
    rewrite (appendStringPiece_fits _ s c) by (done || lia). done.
  - pose proof (length_bytes_of sizeofT values) as Hbytes.
    assert (Z.of_nat sizeofT * Z.of_nat (length values)
            = Z.of_nat (length (bytes_of sizeofT values))) as Hmul
      by (rewrite Hbytes, Nat2Z.inj_mul; done).
    unfold append. rewrite (bind_Returns _ _ _ _ _ (deref_Some s c Hc)).
    rewrite Hmul. unwrap.
    by rewrite (proj2 (Z.ltb_lt _ _)) by lia.
Qed.

Lemma appendStringPiece_nothing s c :
  ranges_ s !! current_ s = Some c →
  range_ok c →
  appendStringPiece [] s = (Returns tt, s).
Proof.
  intros Hc (Hpos & Hsize & Hbuf).
  rewrite (appendStringPiece_fits [] s c) by (done || cbn; lia).
  f_equal. cbn [length app]. rewrite Nat.add_0_r, take_drop, Z.add_0_r.
  destruct s as [a isBits isReverse isReversed rs cur]. unfold set_ranges. cbn.
  f_equal. cbn in Hc. destruct c. by apply list_insert_id.
Qed.

Lemma appendBool_nothing (value : bool) s c :
  ranges_ s !! current_ s = Some c →
  isBits_ s = true →
  bit_range_ok c →
  appendBool value 0 s = (Returns tt, s).
Proof.
  intros Hc Hbits (Hpos & Hsize & Hbuf).
  unfold appendBool. cbn [Z.eqb].
  unfold bind at 1. unfold ret at 1.
  unfold bind at 1. unfold get at 1. rewrite Hbits. cbn [VELOX_DCHECK VELOX_CHECK].
  unfold bind at 1. unfold ret at 1.
  cbn [Z.to_nat appendBool_loop].
  rewrite (bind_Returns _ _ _ _ _ (deref_Some s c Hc)).
  cbn [Z.sub Z.opp]. unwrap. rewrite Z.min_l by lia. rewrite Z.add_0_r.
  unfold fillBits. rewrite Z.sub_diag.
  change (Z.to_nat 0) with 0%nat. cbn [fillBits_from defined].
  unfold bind at 1. unfold ret at 1.
  rewrite (bind_Returns _ _ _ _ _ (assign_Some s c _ Hc)).
  cbn [Z.add Z.sub Z.opp Z.eqb]. unfold ret. f_equal.
  destruct s as [a isBits isReverse isReversed rs cur]. unfold set_ranges. cbn.
  f_equal. cbn in Hc. destruct c. by apply list_insert_id.
Qed.

(** [available<T>()] counts the values that still fit the range. *)
Lemma available_room (w : nat) c (n : nat) :
  range_ok c →
  (0 < w)%nat →
  Z.of_nat n ≤ available w c
  ↔ position c + Z.of_nat w * Z.of_nat n ≤ size c.
Proof.
  intros (Hpos & Hsize & Hbuf) Hw. unfold available.
  assert (0 ≤ (size c - position c) / Z.of_nat w ≤ size c - position c) as Hq.
  { split; [apply Z.div_pos; lia|]. apply Z.div_le_upper_bound; nia. }
  unwrap. split; intros H.
  - pose proof (Z.mul_div_le (size c - position c) (Z.of_nat w)). nia.
  - apply Z.div_le_lower_bound; lia.
Qed.

(** X12.  Appending nothing changes nothing: [appendStringPiece] of the
    empty string returns normally and leaves the stream, arena and
    storage of the ranges included, exactly as it was, even when the
    current range is full; so does [appendBool] with a count of 0 on a
    bit-addressed stream. *)
Theorem appending_nothing s c :
  ranges_ s !! current_ s = Some c →
  (range_ok c → appendStringPiece [] s = (Returns tt, s))
  ∧ (isBits_ s = true → bit_range_ok c →
     ∀ value, appendBool value 0 s = (Returns tt, s)).
Proof.
  intros Hc. split.
  - intros Hokc. by apply (appendStringPiece_nothing s c).
  - intros Hbits Hokc value. by apply (appendBool_nothing value s c).
Qed.

End Room.

Section RoomAndArena.
Context {A : Type} {arena : StreamArena A} {memory : MappedMemory}
        {growth : VectorGrowth}.
Context (J : A → list Z → Prop) (contract : ArenaContract J).
Implicit Types (s : ByteStream A) (c r : ByteRange).

(** An append of more bytes than the current range has room for adds a
    range. *)
Lemma append_effect_extends (value : list byte) (reqs : list Z) s s' c :
  ranges_ s !! current_ s = Some c →
  range_ok c →
  size c < position c + Z.of_nat (length value) →
  append_effect J value reqs s s' →
  (length (ranges_ s) < length (ranges_ s'))%nat.
Proof.
  intros Hc Hokc Hmore
    (c0 & c' & added & asked & Hc0 & Hrs & _ & _ & _ & _ & Hokc' & Hsz & Hp
     & Hbytes & _).
  rewrite Hc in Hc0. injection Hc0 as <-.
  rewrite Hrs, length_app, length_insert.
  destruct added as [|r added]; [|cbn; lia].
  cbn in Hbytes. rewrite app_nil_r in Hbytes.
  assert (Z.of_nat (length (written c'))
          = Z.of_nat (length (written c ++ value))) as Hlen
    by (by rewrite Hbytes).
  rewrite length_app, Nat2Z.inj_add, !written_length in Hlen by done.
  destruct Hokc as (? & ? & ?). lia.
Qed.

(** X13.  [available<T>()] of the current range is the number of values
    of [T] that an [append<T>] still writes in place: an append, which
    always returns normally with an arena that honours its contract, keeps
    the ranges and the arena as they are exactly when the span has at most
    that many values, and adds a range when it has more. *)
Theorem available_is_room (w : nat) (values : list Z) s c (reqs : list Z) :
  0 < kPageSize →
  (0 < w)%nat →
  Z.of_nat (length (bytes_of w values)) + kPageSize ≤ 2 ^ 31 →
  ranges_ s !! current_ s = Some c →
  range_ok c →
  J (arena_ s) reqs →
  ∃ s',
    append w values s = (Returns tt, s')
    ∧ (Z.of_nat (length values) ≤ available w c
       → length (ranges_ s') = length (ranges_ s) ∧ arena_ s' = arena_ s)
    ∧ (available w c < Z.of_nat (length values)
       → (length (ranges_ s) < length (ranges_ s'))%nat).
Proof.
  intros Hpage Hw Hlen Hc Hokc HJ.
  pose proof (length_bytes_of w values) as Hbytes.
  pose proof (available_room w c (length values) Hokc Hw) as Hroom.
  rewrite <- Nat2Z.inj_mul, <- Hbytes in Hroom.
  destruct (append_effect_typed J contract w values s c reqs Hpage Hlen Hc Hokc HJ)
    as (s' & Hrun & Heffect).
  exists s'. split; [done|]. split.
  - intros Hfits. apply Hroom in Hfits. pose proof Hokc as (Hpos & Hsize & Hbuf).
    rewrite (append_fits w values s c) in Hrun by (done || lia).
    injection Hrun as <-. cbn. by rewrite length_insert.
  - intros Hmore. apply (append_effect_extends (bytes_of w values) reqs s s' c);
      try done.
    destruct (decide (position c + Z.of_nat (length (bytes_of w values)) ≤ size c))
      as [Hfits|?]; [|lia].
    apply Hroom in Hfits. lia.
Qed.

(** X14.  A byte-addressed output stream is opened with [startWrite] on an
    arena that honours its contract, and any sequence of [append],
    [appendOne] and [appendStringPiece] calls follows.  After [seek(0, 0)]
    one [readBytes] of the total size returns the bytes appended, in the
    order of the appends, however they were spread over the ranges; and
    [skip] of a prefix followed by [readBytes] returns the rest. *)
Theorem append_readBytes_roundtrip
    (a : A) (reqs : list Z) (initialSize : Z) (ops : list append_op)
    (dest : list byte) (k : nat) :
  0 < kPageSize →
  0 < initialSize < 2 ^ 31 →
  J a reqs →
  Forall (λ op, Z.of_nat (length (op_bytes op)) + kPageSize ≤ 2 ^ 31) ops →
  let bytes := concat (map op_bytes ops) in
  Z.of_nat (length bytes) < 2 ^ 31 →
  length dest = length bytes →
  (k ≤ length bytes)%nat →
  ∃ s,
    (let* _ := startWrite initialSize in run_ops ops)
      (output_stream a false false) = (Returns tt, s)
    ∧ (∃ s', (let* _ := on_stream (seek 0 0) in
              readBytes (Z.of_nat (length bytes))) (s, dest)
             = (Returns tt, (s', bytes)))
    ∧ (∃ s', (let* _ := on_stream (seek 0 0) in
              let* _ := on_stream (skip (Z.of_nat k)) in
              readBytes (Z.of_nat (length bytes - k))) (s, dest)
             = (Returns tt,
                (s', drop k bytes ++ drop (length bytes - k) dest))).
Proof.
  intros Hpage Hsize HJ Hops bytes Hint Hdest Hk.
  destruct (startWrite_out_ok J contract initialSize a false false reqs Hsize HJ)
    as (s0 & Hstart & Hok0 & Hout0 & _ & HJ0).
  destruct (run_ops_spec J contract ops s0 _ Hpage Hops Hok0 HJ0)
    as (s & asked & Hrun & Hok & Hout & _ & _).
  rewrite Hout0 in Hout. cbn [app] in Hout. fold bytes in Hout.
  exists s. rewrite (bind_Returns _ _ _ _ _ Hstart). split; [done|].
  destruct (out_ok_readable s Hok) as [tail Htail].
  pose proof Hok as (Hne & _ & Hall & _).
  destruct (ranges_ s) as [|r rs] eqn:Hrs; [cbn in Hne; lia|].
  pose proof Hall as Hall'. apply Forall_cons_1 in Hall' as [Hr Hrs_ok].
  set (s1 := set_ranges (<[0%nat := with_position 0 r]> (ranges_ s))
               (set_current 0 s)).
  assert (seek 0 0 s = (Returns tt, s1)) as Hseek.
  { apply seek_start. by rewrite Hrs. }
  destruct (input_bytes_start s1 (with_position 0 r) rs) as [Hin_ok Hin].
  { subst s1. cbn. by rewrite Hrs. }
  { done. }
  { done. }
  { constructor.
    - apply range_ok_readable_ok in Hr. exact Hr.
    - eapply Forall_impl; [|exact Hrs_ok]. apply range_ok_readable_ok. }
  change (concat (map readable (with_position 0 r :: rs)))
    with (concat (map readable (r :: rs))) in Hin.
  rewrite Htail, Hout in Hin.
  split.
  - destruct (readBytes_Returns s1 dest (Z.of_nat (length bytes)) Hin_ok)
      as (s' & Hread & _); try (rewrite ?Hin, ?length_app; lia).
    exists s'.
    rewrite (bind_Returns _ _ _ _ _ (on_stream_run _ _ _ _ _ Hseek)).
    rewrite Hread, Hin, Nat2Z.id.
    rewrite take_app_length, drop_ge, app_nil_r by lia. done.
  - destruct (readBytes_Returns s1 dest (Z.of_nat k) Hin_ok)
      as (s2 & Hread2 & Hok2 & Hin2 & _); try (rewrite ?Hin, ?length_app; lia).
    assert (skip (Z.of_nat k) s1 = (Returns tt, s2)) as Hskip.
    { unfold skip. unfold bind at 1. unfold get at 1.
      by apply (skip_loop_as_readBytes_loop _ s1 dest 0 (Z.of_nat k) _ s2 _ Hread2). }
    rewrite Hin, Nat2Z.id in Hin2.
    rewrite drop_app_le in Hin2 by lia.
    destruct (readBytes_Returns s2 dest (Z.of_nat (length bytes - k)) Hok2)
      as (s' & Hread & _);
      try (rewrite ?Hin2, ?length_app, ?length_drop; lia).
    exists s'.
    rewrite (bind_Returns _ _ _ _ _ (on_stream_run _ _ _ _ _ Hseek)).
    rewrite (bind_Returns _ _ _ _ _ (on_stream_run _ _ _ _ _ Hskip)).
    rewrite Hread, Hin2, Nat2Z.id.
    rewrite take_app_le by (rewrite length_drop; lia).
    rewrite take_ge by (rewrite length_drop; lia). done.
Qed.

End RoomAndArena.

(** * S3 paths *)

Section S3Paths.
Import S3Util.
Implicit Types (s path bucket key rest : list Ascii.ascii).

Lemma substr_Ok s (pos n : Z) :
  0 ≤ pos ≤ Z.of_nat (length s) →
  Z.of_nat (length s) - pos ≤ n →
  substr s pos n = Ok (drop (Z.to_nat pos) s).
Proof.
  intros Hpos Hn. unfold substr.
  rewrite (proj2 (Z.ltb_ge _ _)) by lia.
  rewrite Z.min_r by lia. rewrite take_ge; [done|].
  rewrite length_drop. lia.
Qed.

Lemma substr_prefix s (n : Z) :
  0 ≤ n ≤ Z.of_nat (length s) →
  substr s 0 n = Ok (take (Z.to_nat n) s).
Proof.
  intros Hn. unfold substr.
  rewrite (proj2 (Z.ltb_ge _ _)) by lia.
  rewrite Z.sub_0_r, Z.min_l by lia. done.
Qed.

Lemma find_first_of_from_none s (chars : list Ascii.ascii) (i : Z) :
  Forall (λ c, c ∉ chars) s → find_first_of_from s chars i = npos.
Proof.
  revert i. induction s as [|c s IH]; intros i Hall; [done|].
  apply Forall_cons_1 in Hall as [Hc Hall]. cbn.
  rewrite bool_decide_eq_false_2 by done. by apply IH.
Qed.

Lemma find_first_of_from_found s (chars : list Ascii.ascii) (i : Z)
    (c : Ascii.ascii) rest :
  Forall (λ c, c ∉ chars) s → c ∈ chars →
  0 ≤ i → i + Z.of_nat (length s) < 2 ^ 64 →
  find_first_of_from (s ++ c :: rest) chars i = i + Z.of_nat (length s).
Proof.
  revert i. induction s as [|c0 s IH]; intros i Hall Hc Hi Hlt; cbn.
  - rewrite bool_decide_eq_true_2 by done. lia.
  - apply Forall_cons_1 in Hall as [Hc0 Hall].
    rewrite bool_decide_eq_false_2 by done.
    cbn [length] in Hlt. rewrite size_t_id by lia.
    rewrite IH by (try done; lia). lia.
Qed.

Lemma kSep_char : kSep = [Ascii.ascii_of_nat 47].
Proof. reflexivity. Qed.

Lemma length_kS3Scheme : length kS3Scheme = 5%nat.
Proof. reflexivity. Qed.

Lemma bucketAndKey_split bucket key :
  Forall (λ c, c ∉ kSep) bucket →
  Z.of_nat (length (bucket ++ kSep ++ key)) < 2 ^ 64 - 1 →
  bucketAndKeyFromS3Path (bucket ++ kSep ++ key) = Ok (bucket, key).
Proof.
  intros Hbucket Hlen. unfold bucketAndKeyFromS3Path, find_first_of.
  rewrite kSep_char in *. cbn [app] in *.
  rewrite length_app in Hlen. cbn [length] in Hlen.
  rewrite find_first_of_from_found; [|done|apply list_elem_of_here|lia|lia].
  rewrite Z.add_0_l.
  rewrite substr_prefix by (rewrite length_app; lia).
  rewrite Nat2Z.id, take_app_length.
  rewrite size_t_id by lia.
  rewrite substr_Ok.
  - replace (Z.to_nat (Z.of_nat (length bucket) + 1))
      with (length (bucket ++ [Ascii.ascii_of_nat 47])) by (rewrite length_app; cbn; lia).
    rewrite (cons_middle _ bucket key), app_assoc, drop_app_length. done.
  - rewrite length_app. cbn [length]. lia.
  - unfold npos. rewrite length_app. cbn [length]. lia.
Qed.

Lemma bucketAndKey_no_separator path :
  Forall (λ c, c ∉ kSep) path →
  Z.of_nat (length path) < 2 ^ 64 - 1 →
  bucketAndKeyFromS3Path path = Ok (path, path).
Proof.
  intros Hpath Hlen. unfold bucketAndKeyFromS3Path, find_first_of.
  rewrite find_first_of_from_none by done.
  assert (size_t (npos + 1) = 0) as -> by reflexivity.
  unfold substr. rewrite !(proj2 (Z.ltb_ge _ _)) by (unfold npos; lia).
  rewrite Z.sub_0_r, Z.min_r by (unfold npos; lia).
  rewrite Nat2Z.id. cbn [Z.to_nat drop]. by rewrite take_ge.
Qed.

Lemma s3Path_drops path :
  Z.of_nat (length kS3Scheme) ≤ Z.of_nat (length path) →
  Z.of_nat (length path) < 2 ^ 64 - 1 →
  s3Path path = Ok (drop (length kS3Scheme) path).
Proof.
  intros Hlen Hmax. unfold s3Path. rewrite substr_Ok.
  - by rewrite Nat2Z.id.
  - lia.
  - unfold npos. lia.
Qed.

Lemma s3Path_short path :
  (length path < length kS3Scheme)%nat → s3Path path = OutOfRange.
Proof.
  intros Hlen. unfold s3Path, substr.
  by rewrite (proj2 (Z.ltb_lt _ _)) by lia.
Qed.

Lemma isS3File_take filename :
  isS3File filename
  = Ok (bool_decide (take (length kS3Scheme) filename = kS3Scheme)).
Proof.
  unfold isS3File, substr.
  rewrite (proj2 (Z.ltb_ge _ _)) by lia. rewrite Z.sub_0_r.
  change (Z.to_nat 0) with 0%nat. rewrite drop_0.
  f_equal. f_equal. f_equal.
  destruct (decide (length kS3Scheme ≤ length filename)%nat).
  - rewrite Z.min_l by lia. by rewrite Nat2Z.id.
  - rewrite Z.min_r by lia. rewrite Nat2Z.id.
    rewrite !take_ge by lia. done.
Qed.

(** X15.  [isS3File] never throws, and it is true exactly for the names
    that start with the scheme [s3://]; a name shorter than the scheme is
    not an S3 file. *)
Theorem isS3File_iff_scheme (filename : list Ascii.ascii) :
  ∃ b : bool,
    isS3File filename = Ok b
    ∧ (b = true ↔ ∃ rest, filename = kS3Scheme ++ rest)
    ∧ ((length filename < length kS3Scheme)%nat → b = false).
Proof.
  eexists. split; [apply isS3File_take|]. split.
  - rewrite bool_decide_eq_true. split.
    + intros Htake. exists (drop (length kS3Scheme) filename).
      by rewrite <- Htake at 1; rewrite take_drop.
    + intros [rest ->]. by rewrite take_app_length.
  - intros Hshort. apply bool_decide_eq_false. intros Htake.
    apply (f_equal length) in Htake. rewrite length_take in Htake. lia.
Qed.

(** X16.  [s3Path] does not look at the scheme: it throws
    [std::out_of_range] for a path shorter than the scheme, and otherwise
    returns the path without its first five characters, whatever they
    are.  For a path that starts with [s3://] that is what follows the
    scheme. *)
Theorem s3Path_drops_scheme path :
  Z.of_nat (length path) < 2 ^ 64 - 1 →
  ((length path < length kS3Scheme)%nat → s3Path path = OutOfRange)
  ∧ ((length kS3Scheme ≤ length path)%nat →
     s3Path path = Ok (drop (length kS3Scheme) path))
  ∧ (∀ rest, path = kS3Scheme ++ rest → s3Path path = Ok rest).
Proof.
  intros Hmax. split; [apply s3Path_short|]. split.
  - intros Hlen. apply s3Path_drops; lia.
  - intros rest ->. rewrite s3Path_drops; [|rewrite length_app; lia|done].
    by rewrite drop_app_length.
Qed.

(** X17.  [bucketAndKeyFromS3Path] splits a path at its first [/]: the
    bucket is what precedes it and the key all that follows, further
    separators included.  For a path without a separator it does not
    throw: [npos + 1] wraps around to 0, and the bucket and the key are
    both the whole path. *)
Theorem bucketAndKey_at_first_separator bucket key :
  Forall (λ c, c ∉ kSep) bucket →
  Z.of_nat (length (bucket ++ kSep ++ key)) < 2 ^ 64 - 1 →
  bucketAndKeyFromS3Path (bucket ++ kSep ++ key) = Ok (bucket, key)
  ∧ bucketAndKeyFromS3Path bucket = Ok (bucket, bucket).
Proof.
  intros Hbucket Hmax. split; [by apply bucketAndKey_split|].
  apply bucketAndKey_no_separator; [done|].
  rewrite length_app in Hmax. lia.
Qed.

(** X18.  The three functions together: a file name made of the scheme, a
    bucket without [/], a [/] and a key is an S3 file, [s3Path] returns it
    without the scheme, and [bucketAndKeyFromS3Path] of that path returns
    the bucket and the key. *)
Theorem s3_file_parts bucket key :
  Forall (λ c, c ∉ kSep) bucket →
  Z.of_nat (length (kS3Scheme ++ bucket ++ kSep ++ key)) < 2 ^ 64 - 1 →
  isS3File (kS3Scheme ++ bucket ++ kSep ++ key) = Ok true
  ∧ ∃ path,
      s3Path (kS3Scheme ++ bucket ++ kSep ++ key) = Ok path
      ∧ bucketAndKeyFromS3Path path = Ok (bucket, key).
Proof.
  intros Hbucket Hmax. split.
  - rewrite isS3File_take, take_app_length. by rewrite bool_decide_eq_true_2.
  - exists (bucket ++ kSep ++ key). split.
    + rewrite s3Path_drops; [|rewrite length_app; lia|done].
      by rewrite drop_app_length.
    + apply bucketAndKey_split; [done|]. rewrite length_app in Hmax. lia.
Qed.

End S3Paths.

(** * The further properties on concrete inputs *)

(** Closes a bound that evaluates to a comparison of numerals. *)
Ltac by_evaluation :=
  vm_compute;
  first [reflexivity | discriminate | lia
        | split; first [reflexivity | discriminate | lia]].

Lemma read_to_end_ok : in_ok read_to_end.
Proof.
  exists (with_position 2 second_range). split; [done|]. split.
  - unfold range_ok. cbn. lia.
  - constructor.
Qed.

Lemma readByte_next_byte_witness :
  ∃ s', readByte two_ranges_input = (Returns Byte.x02, s')
        ∧ in_ok s'
        ∧ input_bytes s' = [Byte.x03; Byte.x04; Byte.x05].
Proof. exact (readByte_next_byte two_ranges_input two_ranges_input_ok). Defined.

Lemma read_next_value_witness :
  (∃ s', read 4 two_ranges_input = (Returns 0x05040302, s')
         ∧ in_ok s' ∧ input_bytes s' = [])
  ∧ (∃ s', read 8 two_ranges_input = (Raises EndOfStream, s')
           ∧ input_bytes s' = []).
Proof.
  destruct (read_next_value 4 two_ranges_input two_ranges_input_ok) as [Hyes _];
    [lia|].
  destruct (read_next_value 8 two_ranges_input two_ranges_input_ok) as [_ Hno];
    [lia|].
  split; [apply Hyes|apply Hno]; by_evaluation.
Defined.

Lemma readBytes_copies_next_bytes_witness :
  ∃ s', readBytes 3 (two_ranges_input, replicate 4 Byte.xff)
        = (Returns tt, (s', [Byte.x02; Byte.x03; Byte.x04; Byte.xff]))
        ∧ in_ok s'
        ∧ input_bytes s' = [Byte.x05].
Proof.
  destruct (readBytes_copies_next_bytes two_ranges_input (replicate 4 Byte.xff) 3
              two_ranges_input_ok)
    as (s' & Hrun & Hok & Hin & _).
  - by_evaluation.
  - by_evaluation.
  - by_evaluation.
  - exists s'. split; [exact Hrun|]. split; [exact Hok|exact Hin].
Defined.

Lemma skip_as_readBytes_witness :
  ∃ o s' dest',
    readBytes 3 (two_ranges_input, replicate 4 Byte.xff) = (o, (s', dest'))
    ∧ skip 3 two_ranges_input = (o, s')
    ∧ (o = Returns tt
       ∧ 3 ≤ Z.of_nat (length (input_bytes two_ranges_input))
       ∧ input_bytes s' = [Byte.x05]
       ∨ o = Raises EndOfStream
         ∧ Z.of_nat (length (input_bytes two_ranges_input)) < 3
         ∧ input_bytes s' = []).
Proof.
  apply (skip_as_readBytes two_ranges_input (replicate 4 Byte.xff) 3
           two_ranges_input_ok); by_evaluation.
Defined.

Lemma skip_negative_rewinds_witness :
  skip (-3) two_ranges_input
  = (Returns tt,
     mkByteStream tt false false false
       [with_position (-2) first_range; second_range] 0).
Proof.
  apply (skip_negative_rewinds (-3) two_ranges_input first_range eq_refl);
    by_evaluation.
Defined.

Lemma nextView_next_bytes_witness :
  ∃ v s', nextView 5 two_ranges_input = (Returns v, s')
          ∧ in_ok s'
          ∧ 0 ≤ view_size v ≤ 5
          ∧ view_bytes (ranges_ s') v
            = take (Z.to_nat (view_size v)) [Byte.x02; Byte.x03; Byte.x04; Byte.x05]
          ∧ length (view_bytes (ranges_ s') v) = Z.to_nat (view_size v)
          ∧ input_bytes s'
            = drop (Z.to_nat (view_size v)) [Byte.x02; Byte.x03; Byte.x04; Byte.x05].
Proof.
  apply (nextView_next_bytes 5 two_ranges_input two_ranges_input_ok).
  - intros r Hr. injection Hr as <-. by_evaluation.
  - by_evaluation.
Defined.

Lemma atEnd_iff_nothing_left_witness :
  atEnd read_to_end = (Returns true, read_to_end)
  ∧ input_bytes read_to_end = [].
Proof.
  destruct (atEnd_iff_nothing_left read_to_end read_to_end_ok)
    as (b & Hrun & _ & Hiff).
  split; [|reflexivity].
  rewrite Hrun. f_equal. f_equal. apply Hiff; [constructor|reflexivity].
Defined.

Lemma seek_then_read_witness :
  ∃ s', seek 1 1 two_ranges_input = (Returns tt, s')
        ∧ tellp s' = (Returns (mkPtr 0 1, 1), s')
        ∧ in_ok s'
        ∧ input_bytes s' = [Byte.x05]
        ∧ ranges_ s' !! 0%nat = Some first_range.
Proof.
  destruct (seek_then_read 1 1 two_ranges_input second_range eq_refl)
    as (s' & Hrun & Htell & Hok & Hin & Hother).
  - unfold readable_ok. cbn. lia.
  - by_evaluation.
  - constructor.
  - exists s'. split; [exact Hrun|]. split; [exact Htell|]. split; [exact Hok|].
    split; [exact Hin|]. by apply (Hother 0%nat).
Defined.

Lemma resetInput_readBytes_witness :
  ∃ s', (let* _ := on_stream (resetInput
                                [first_range; with_position 1 second_range]) in
         readBytes 4) (input_stream tt, replicate 4 Byte.x00)
        = (Returns tt, (s', [Byte.x02; Byte.x03; Byte.x04; Byte.x05]))
        ∧ input_bytes s' = [].
Proof.
  apply (resetInput_readBytes first_range [with_position 1 second_range]
           (input_stream tt) (replicate 4 Byte.x00)).
  - unfold range_ok. cbn. lia.
  - repeat constructor; cbn; lia.
  - by_evaluation.
  - by_evaluation.
Defined.

Lemma read_struct_next_bytes_witness :
  (∃ s', read_struct 4 (replicate 4 Byte.xff) two_ranges_input
         = (Returns [Byte.x02; Byte.x03; Byte.x04; Byte.x05], s')
         ∧ input_bytes s' = [])
  ∧ (∃ s', read 4 two_ranges_input = (Returns 0x05040302, s'))
  ∧ (∃ s', read_struct 8 (replicate 8 Byte.xff) two_ranges_input
           = (Raises EndOfStream, s')
           ∧ input_bytes s' = []).
Proof.
  destruct (read_struct_next_bytes 4 (replicate 4 Byte.xff) two_ranges_input
              two_ranges_input_ok eq_refl) as [Hyes _]; [by_evaluation|].
  destruct Hyes as (s' & Hrun & _ & Hin & Hsame); [by_evaluation|].
  destruct Hsame as (s'' & Hread & _); [lia|].
  destruct (read_struct_next_bytes 8 (replicate 8 Byte.xff) two_ranges_input
              two_ranges_input_ok eq_refl) as [_ Hno]; [by_evaluation|].
  split; [by exists s'|]. split; [by exists s''|]. apply Hno. by_evaluation.
Defined.

Section FurtherOnExactRanges.
Local Existing Instance page4096.
Local Existing Instance doubling.
Local Existing Instance exactArena.

Lemma append_as_appendStringPiece_witness :
  append 2 [0xABCD] two_byte_output
  = appendStringPiece [Byte.xcd; Byte.xab] two_byte_output
  ∧ append 2 [0xABCD; 0x0102] two_byte_output
    = appendStringPiece [Byte.xcd; Byte.xab; Byte.x02; Byte.x01] two_byte_output.
Proof.
  split.
  - apply (append_as_appendStringPiece 2 [0xABCD] two_byte_output two_byte_range
             eq_refl); [unfold range_ok; cbn; lia|by_evaluation].
  - apply (append_as_appendStringPiece 2 [0xABCD; 0x0102] two_byte_output
             two_byte_range eq_refl); [unfold range_ok; cbn; lia|by_evaluation].
Defined.

Lemma appending_nothing_witness :
  appendStringPiece [] two_byte_output = (Returns tt, two_byte_output)
  ∧ appendBool true 0 one_byte_bits = (Returns tt, one_byte_bits).
Proof.
  destruct (appending_nothing two_byte_output two_byte_range eq_refl)
    as [Hstring _].
  destruct (appending_nothing one_byte_bits one_byte_range eq_refl)
    as [_ Hbits].
  split.
  - apply Hstring. unfold range_ok. cbn. lia.
  - apply Hbits; [reflexivity|unfold bit_range_ok; cbn; lia].
Defined.

End FurtherOnExactRanges.

Section FurtherOnChunks.
Local Existing Instance page4096.
Local Existing Instance doubling.
Local Existing Instance chunks_of_three.

Lemma available_is_room_witness :
  available 2 two_byte_range = 1
  ∧ (∃ s', append 2 [0xABCD] two_byte_output = (Returns tt, s')
           ∧ length (ranges_ s') = 1%nat ∧ arena_ s' = 1%nat)
  ∧ (∃ s', append 2 [0xABCD; 0x0102] two_byte_output = (Returns tt, s')
           ∧ (1 < length (ranges_ s'))%nat).
Proof.
  split; [reflexivity|]. split.
  - destruct (available_is_room any_history
                (chunkArena_contract 3 ltac:(lia) ltac:(lia))
                2 [0xABCD] two_byte_output two_byte_range [])
      as (s' & Hrun & Hfits & _).
    + exact page4096_positive.
    + lia.
    + by_evaluation.
    + reflexivity.
    + unfold range_ok. cbn. lia.
    + exact I.
    + exists s'. split; [exact Hrun|]. apply Hfits. by_evaluation.
  - destruct (available_is_room any_history
                (chunkArena_contract 3 ltac:(lia) ltac:(lia))
                2 [0xABCD; 0x0102] two_byte_output two_byte_range [])
      as (s' & Hrun & _ & Hmore).
    + exact page4096_positive.
    + lia.
    + by_evaluation.
    + reflexivity.
    + unfold range_ok. cbn. lia.
    + exact I.
    + exists s'. split; [exact Hrun|]. apply Hmore. by_evaluation.
Defined.

Lemma append_readBytes_roundtrip_witness :
  ∃ s,
    (let* _ := startWrite 2 in run_ops mixed_appends) fresh_output
    = (Returns tt, s)
    ∧ (∃ s', (let* _ := on_stream (seek 0 0) in readBytes 17)
               (s, replicate 17 Byte.x00)
             = (Returns tt, (s', concat (map op_bytes mixed_appends))))
    ∧ (∃ s', (let* _ := on_stream (seek 0 0) in
              let* _ := on_stream (skip 4) in
              readBytes 13) (s, replicate 17 Byte.x00)
             = (Returns tt,
                (s', drop 4 (concat (map op_bytes mixed_appends))
                     ++ replicate 4 Byte.x00))).
Proof.
  apply (append_readBytes_roundtrip any_history
           (chunkArena_contract 3 ltac:(lia) ltac:(lia)) 0%nat [] 2 mixed_appends
           (replicate 17 Byte.x00) 4).
  - exact page4096_positive.
  - lia.
  - exact I.
  - repeat constructor; vm_compute; discriminate.
  - by_evaluation.
  - reflexivity.
  - by_evaluation.
Defined.

End FurtherOnChunks.

Section S3Names.
Import S3Util.

Lemma warehouse_no_separator : Forall (λ c, c ∉ kSep) warehouse.
Proof. apply (bool_decide_unpack _). vm_compute. exact I. Qed.

Lemma s3Path_drops_scheme_witness :
  s3Path local_name = OutOfRange
  ∧ s3Path part_key = Ok (drop 5 part_key)
  ∧ s3Path (kS3Scheme ++ warehouse) = Ok warehouse.
Proof.
  destruct (s3Path_drops_scheme local_name) as (Hshort & _ & _); [by_evaluation|].
  destruct (s3Path_drops_scheme part_key) as (_ & Hlong & _); [by_evaluation|].
  destruct (s3Path_drops_scheme (kS3Scheme ++ warehouse)) as (_ & _ & Hscheme);
    [by_evaluation|].
  split; [apply Hshort; cbn; lia|]. split; [apply Hlong; cbn; lia|].
  by apply Hscheme.
Defined.

Lemma bucketAndKey_at_first_separator_witness :
  bucketAndKeyFromS3Path (warehouse ++ kSep ++ part_key) = Ok (warehouse, part_key)
  ∧ bucketAndKeyFromS3Path warehouse = Ok (warehouse, warehouse).
Proof.
  apply (bucketAndKey_at_first_separator warehouse part_key warehouse_no_separator).
  by_evaluation.
Defined.

Lemma s3_file_parts_witness :
  isS3File (kS3Scheme ++ warehouse ++ kSep ++ part_key) = Ok true
  ∧ ∃ path,
      s3Path (kS3Scheme ++ warehouse ++ kSep ++ part_key) = Ok path
      ∧ bucketAndKeyFromS3Path path = Ok (warehouse, part_key).
Proof.
  apply (s3_file_parts warehouse part_key warehouse_no_separator).
  by_evaluation.
Defined.

End S3Names.
